(** * Curator agent: note files, category paths and the workspace store

    A shallow embedding of the TypeScript sources
    [src/domain/note.ts], [src/adapters/fs/FsWorkspace.ts],
    [src/ports/*.ts], [src/application/CategorizeNoteUseCase.ts],
    [src/adapters/ai/*.ts], [src/infrastructure/container.ts], the tools of
    [src/agent/categorizeNoteAgent.ts] and the path handling of
    [src/cli/index.ts], and the properties checked against it.

    The first part is the program: JavaScript strings and the string
    methods the sources call, [node:path], the note file format, a file
    system with calls that can fail, asynchronous functions as computations
    on a world, the workspace store, the use case, the categorization
    adapters, the container, the agent's tools and the command line.  The
    second part is the vocabulary of the properties.  The third part has the
    properties of the design document, each claim under its number.  The
    fourth part has further properties of the code. *)

From Stdlib Require Import String Ascii NArith Bool Arith Lia List.
Import ListNotations.
Local Open Scope N_scope.
Local Open Scope list_scope.

(** * The program *)

(** ** JavaScript strings

    A JavaScript string is a finite sequence of UTF-16 code units.  The
    operations below are the ones of [String.prototype] the sources call,
    written on lists of code units. *)

Definition char := N.
Definition str := list char.

Definition LF : char := 10.
Definition CR : char := 13.
Definition SPACE : char := 32.
Definition HASH : char := 35.
Definition DOT : char := 46.
Definition SLASH : char := 47.
Definition COLON : char := 58.
Definition BACKSLASH : char := 92.

(** [lit] reads a literal the way it is written in the sources: the escapes
    [\n], [\r], [\t] and [\\] stand for one code unit each. *)
Fixpoint lit (s : string) : str :=
  match s with
  | EmptyString => []
  | String a rest =>
      if Ascii.eqb a "\"%char then
        match rest with
        | String b rest' =>
            if Ascii.eqb b "n"%char then LF :: lit rest'
            else if Ascii.eqb b "r"%char then CR :: lit rest'
            else if Ascii.eqb b "t"%char then 9 :: lit rest'
            else if Ascii.eqb b "\"%char then BACKSLASH :: lit rest'
            else N_of_ascii a :: N_of_ascii b :: lit rest'
        | EmptyString => [N_of_ascii a]
        end
      else N_of_ascii a :: lit rest
  end.

Fixpoint str_eqb (a b : str) : bool :=
  match a, b with
  | [], [] => true
  | x :: a', y :: b' => (x =? y) && str_eqb a' b'
  | _, _ => false
  end.

(** Truthiness of a string: the empty string is the only falsy one. *)
Definition truthy (s : str) : bool :=
  match s with [] => false | _ :: _ => true end.

(** The code units [trim] removes and the class [\s] matches: ECMAScript's
    WhiteSpace and LineTerminator. *)
Definition is_ws (c : char) : bool :=
  ((9 <=? c) && (c <=? 13)) || (c =? 32) || (c =? 160) || (c =? 5760)
  || ((8192 <=? c) && (c <=? 8202)) || (c =? 8232) || (c =? 8233)
  || (c =? 8239) || (c =? 8287) || (c =? 12288) || (c =? 65279).

Fixpoint drop_while (p : char -> bool) (s : str) : str :=
  match s with
  | [] => []
  | c :: rest => if p c then drop_while p rest else s
  end.

Definition trimStart (s : str) : str := drop_while is_ws s.
Definition trimEnd (s : str) : str := rev (drop_while is_ws (rev s)).
Definition trim (s : str) : str := trimEnd (trimStart s).

Fixpoint startsWith (s prefix : str) {struct prefix} : bool :=
  match prefix, s with
  | [], _ => true
  | p :: prefix', c :: s' => (c =? p) && startsWith s' prefix'
  | _ :: _, [] => false
  end.

(** [s.indexOf(c)] for a one-unit needle; [None] is the source's [-1]. *)
Fixpoint indexOf (c : char) (s : str) : option nat :=
  match s with
  | [] => None
  | x :: rest =>
      if x =? c then Some O
      else match indexOf c rest with
           | Some i => Some (S i)
           | None => None
           end
  end.

(** [s.slice(a, b)] and [s.slice(a)] for indices within the string. *)
Definition slice (s : str) (a b : nat) : str := firstn (b - a) (skipn a s).
Definition slice_from (s : str) (a : nat) : str := skipn a s.

(** [parts.join(sep)]. *)
Fixpoint join (sep : str) (parts : list str) : str :=
  match parts with
  | [] => []
  | [p] => p
  | p :: rest => p ++ sep ++ join sep rest
  end.

Definition cons_to_first (c : char) (parts : list str) : list str :=
  match parts with
  | [] => [[c]]
  | p :: rest => (c :: p) :: rest
  end.

(** [s.split(/\r?\n/)]: a line feed ends a piece, and a carriage return
    directly before it belongs to the separator. *)
Fixpoint split_lines (s : str) : list str :=
  match s with
  | [] => [[]]
  | c :: rest =>
      if c =? LF then [] :: split_lines rest
      else if (c =? CR) && startsWith rest [LF] then split_lines rest
      else cons_to_first c (split_lines rest)
  end.

(** [s.replace(/\\/g, "/")]. *)
Definition backslashes_to_slashes (s : str) : str :=
  map (fun c => if c =? BACKSLASH then SLASH else c) s.

(** [s.replace(/\/+/g, "/")]: every run of slashes becomes one slash (a slash
    followed by another slash is dropped). *)
Fixpoint collapse_slashes (s : str) : str :=
  match s with
  | [] => []
  | c :: rest =>
      if (c =? SLASH) && startsWith rest [SLASH] then collapse_slashes rest
      else c :: collapse_slashes rest
  end.

(** [s.replace(/^\/|\/$/g, "")]: one slash is removed at the start and one at
    the end, where there is one. *)
Definition strip_leading_slash (s : str) : str :=
  match s with
  | c :: rest => if c =? SLASH then rest else s
  | [] => []
  end.

Definition strip_edge_slashes (s : str) : str :=
  rev (strip_leading_slash (rev (strip_leading_slash s))).

(** [s.replace(/^\/+/, "")]. *)
Definition strip_leading_slashes (s : str) : str := drop_while (N.eqb SLASH) s.

(** ** Failures

    The sources throw plain [Error]s; the file system rejects with an error
    carrying a code.  [Unfinished] is no error of the program: it stands for
    a run that has not come to an end within the calls it was given, and of
    which nothing more is known (the program may run on for ever). *)
Inductive exn : Type :=
  | Error (message : str)
  | FsError (code : str)
  | Unfinished.

Definition result (A : Type) : Type := (exn + A)%type.
Abbreviation Ok a := (@inr exn _ a).
Abbreviation Throw e := (@inl exn _ e).

(** ** src/domain/note.ts *)

Module CategoryPath.

(** The class has one private field, [value]. *)
Record t : Type := make { value : str }.

(** The string [fromRaw] tests and stores. *)
Definition cleaned (raw : str) : str :=
  let normalized := collapse_slashes (backslashes_to_slashes (trim raw)) in
  strip_edge_slashes normalized.

Definition fromRaw (raw : str) : result t :=
  let cleaned := cleaned raw in
  if negb (truthy cleaned) then Throw (Error (lit "CategoryPath cannot be empty"))
  else Ok (make cleaned).

Definition root : t := make [].

Definition toString (c : t) : str := value c.

Definition isRoot (c : t) : bool := str_eqb (value c) [].

End CategoryPath.

Record Note : Type := mkNote {
  id : str;
  title : str;
  content : str;
  category : option CategoryPath.t;
  path : str
}.

(** ** node:path

    The sources import the platform's [path] module.  These are its POSIX
    functions, after the Node.js implementation: a path is cut at slashes,
    trailing slashes do not count, and [normalize] resolves [.] and [..]. *)

Module Path.

Definition is_slash (c : char) : bool := c =? SLASH.
Definition not_slash (c : char) : bool := negb (c =? SLASH).
Definition not_dot (c : char) : bool := negb (c =? DOT).

Fixpoint take_while (p : char -> bool) (s : str) : str :=
  match s with
  | [] => []
  | c :: rest => if p c then c :: take_while p rest else []
  end.

(** The last component of the path, reversed, and the trailing slashes. *)
Definition last_component_rev (p : str) : str :=
  take_while not_slash (drop_while is_slash (rev p)).

Definition trailing_slashes (p : str) : str := take_while is_slash (rev p).

(** [path.basename(p)] and [path.basename(p, suffix)]. *)
Definition basename (p : str) : str := rev (last_component_rev p).

Definition basename_ext (p suffix : str) : str :=
  if truthy suffix && (length suffix <=? length p)%nat then
    if str_eqb suffix p then []
    else
      let comp_rev := last_component_rev p in
      if startsWith comp_rev (rev suffix) then
        if (length comp_rev =? length suffix)%nat then rev comp_rev
        else rev (skipn (length suffix) comp_rev)
      else if startsWith (rev suffix) comp_rev then
        rev comp_rev ++ trailing_slashes p
      else rev comp_rev
  else basename p.

(** [path.extname(p)]: from the last dot of the last component, unless
    there is none, the component starts with it, or the component is
    [..]. *)
Definition extname (p : str) : str :=
  let comp_rev := last_component_rev p in
  let ext_rev := take_while not_dot comp_rev in
  match skipn (length ext_rev) comp_rev with
  | [] => []
  | _dot :: before =>
      if negb (truthy before) then []
      else if str_eqb comp_rev [DOT; DOT] then []
      else DOT :: rev ext_rev
  end.

(** [path.dirname(p)]. *)
Definition dirname (p : str) : str :=
  match p with
  | [] => [DOT]
  | c0 :: t =>
      let hasRoot := c0 =? SLASH in
      match drop_while not_slash (drop_while is_slash (rev t)) with
      | [] => if hasRoot then [SLASH] else [DOT]
      | _slash :: before_rev =>
          if hasRoot && negb (truthy before_rev) then [SLASH; SLASH]
          else c0 :: rev before_rev
      end
  end.

(** The pieces between slashes. *)
Fixpoint split_slash (s : str) : list str :=
  match s with
  | [] => [[]]
  | c :: rest =>
      if c =? SLASH then [] :: split_slash rest
      else cons_to_first c (split_slash rest)
  end.

(** [normalizeString]: the components kept, last one first. *)
Fixpoint normalize_segments (allowAboveRoot : bool) (segs : list str)
    (res_rev : list str) : list str :=
  match segs with
  | [] => res_rev
  | seg :: rest =>
      if negb (truthy seg) || str_eqb seg [DOT] then
        normalize_segments allowAboveRoot rest res_rev
      else if str_eqb seg [DOT; DOT] then
        match res_rev with
        | top :: below =>
            if str_eqb top [DOT; DOT] then
              normalize_segments allowAboveRoot rest
                (if allowAboveRoot then seg :: res_rev else res_rev)
            else normalize_segments allowAboveRoot rest below
        | [] =>
            normalize_segments allowAboveRoot rest
              (if allowAboveRoot then [seg] else [])
        end
      else normalize_segments allowAboveRoot rest (seg :: res_rev)
  end.

(** [path.normalize(p)]. *)
Definition normalize (p : str) : str :=
  match p with
  | [] => [DOT]
  | c0 :: _ =>
      let isAbsolute := c0 =? SLASH in
      let trailingSeparator := startsWith (rev p) [SLASH] in
      let body :=
        join [SLASH]
          (rev (normalize_segments (negb isAbsolute) (split_slash p) [])) in
      if negb (truthy body) then
        if isAbsolute then [SLASH]
        else if trailingSeparator then [DOT; SLASH] else [DOT]
      else
        let body := if trailingSeparator then body ++ [SLASH] else body in
        if isAbsolute then SLASH :: body else body
  end.

(** [path.join(a, b)]. *)
Definition join (a b : str) : str :=
  match truthy a, truthy b with
  | true, true => normalize (a ++ [SLASH] ++ b)
  | true, false => normalize a
  | false, true => normalize b
  | false, false => [DOT]
  end.

End Path.

(** ** Objects used as maps

    [Record<string, string>]: the own properties of an object that starts as
    [{}], in the order [Object.entries] lists them.  That order has the
    properties named by an array index first, by ascending index, and then
    the others in the order they were made.  An assignment to the name
    [__proto__] reaches the setter every such object inherits, and the setter
    does nothing with a string: no property is made. *)

Definition obj := list (str * str).

Fixpoint obj_get (o : obj) (k : str) : option str :=
  match o with
  | [] => None
  | (k', v) :: rest => if str_eqb k' k then Some v else obj_get rest k
  end.

Definition PROTO : str := lit "__proto__".

(** The array index a property name stands for: the name is the decimal
    numeral, without a sign or a leading zero, of a number below [2^32 - 1]. *)
Definition digit (c : char) : option N :=
  if (48 <=? c) && (c <=? 57) then Some (c - 48) else None.

Fixpoint numeral (s : str) (acc : N) : option N :=
  match s with
  | [] => Some acc
  | c :: rest =>
      match digit c with
      | Some d => numeral rest (10 * acc + d)
      | None => None
      end
  end.

Definition array_index (k : str) : option N :=
  match k with
  | [] => None
  | c :: rest =>
      if (c =? 48) && truthy rest then None
      else
        match numeral k 0 with
        | Some n => if n <? 4294967295 then Some n else None
        | None => None
        end
  end.

(** A property that exists keeps its place and takes the value; one that
    does not goes last. *)
Fixpoint obj_put (o : obj) (k v : str) : obj :=
  match o with
  | [] => [(k, v)]
  | (k', v') :: rest =>
      if str_eqb k' k then (k', v) :: rest else (k', v') :: obj_put rest k v
  end.

(** A new property named by the index [n] goes behind the index properties
    up to [n] and before everything else. *)
Fixpoint obj_insert_index (o : obj) (n : N) (k v : str) : obj :=
  match o with
  | [] => [(k, v)]
  | (k', v') :: rest =>
      match array_index k' with
      | Some n' =>
          if n' <=? n then (k', v') :: obj_insert_index rest n k v
          else (k, v) :: o
      | None => (k, v) :: o
      end
  end.

(** [o[k] = v] for a string [v]. *)
Definition obj_set (o : obj) (k v : str) : obj :=
  if str_eqb k PROTO then o
  else
    match array_index k, obj_get o k with
    | Some n, None => obj_insert_index o n k v
    | _, _ => obj_put o k v
    end.

(** ** src/adapters/fs/FsWorkspace.ts: the note file *)

Record ParsedNoteFile : Type := mkParsed {
  frontmatter : obj;
  body : str
}.

Definition DELIM : str := lit "---".

(** The loop of [parseNoteFile], on the lines from index [i] on.  It returns
    the header object and [lines.slice(i)] for the final [i]. *)
Fixpoint parse_header (lines : list str) (fm : obj) : obj * list str :=
  match lines with
  | [] => (fm, [])
  | line :: rest =>
      if negb (truthy line) then parse_header rest fm
      else if str_eqb (trim line) DELIM then (fm, rest)
      else
        match indexOf COLON line with
        | None => parse_header rest fm
        | Some idx =>
            let key := trim (slice line 0 idx) in
            let value := trim (slice_from line (idx + 1)) in
            parse_header rest (if truthy key then obj_set fm key value else fm)
        end
  end.

Definition parseNoteFile (raw : str) : ParsedNoteFile :=
  let lines := split_lines raw in
  if negb (str_eqb (trim (hd [] lines)) DELIM) then
    {| frontmatter := []; body := raw |}
  else
    let '(fm, rest) := parse_header (tl lines) [] in
    {| frontmatter := fm; body := join [LF] rest |}.

Definition serializeNoteFile (parsed : ParsedNoteFile) : str :=
  let entries := frontmatter parsed in
  match entries with
  | [] => body parsed
  | _ :: _ =>
      let fmLines := map (fun '(k, v) => k ++ lit ": " ++ v) entries in
      join [LF] ([DELIM] ++ fmLines ++ [DELIM; []; body parsed])
  end.

(** [h1.replace(/^#\s*/, "")]. *)
Definition strip_heading_marker (h1 : str) : str :=
  match h1 with
  | c :: rest => if c =? HASH then drop_while is_ws rest else h1
  | [] => []
  end.

Definition deriveTitle (relativePath body : str) : str :=
  let lines := split_lines body in
  match find (fun line => startsWith (trim line) (lit "# ")) lines with
  | Some h1 =>
      if truthy h1 then
        let t := trim (strip_heading_marker h1) in
        if truthy t then t else Path.basename relativePath
      else Path.basename_ext relativePath (Path.extname relativePath)
  | None => Path.basename_ext relativePath (Path.extname relativePath)
  end.

(** ** The file system

    [node:fs/promises] as the sources use it.  The disk is a tree of
    directories and files; a path names the node reached from the top
    directory through its components.  Every call may also be rejected by the
    system for a reason of its own (permissions, a full or failing device):
    the world carries, for each call to come, whether it is rejected that
    way.  A rejected call leaves the disk as it was (a write that the system
    gives up half-way, leaving the file cut short, is not among the runs
    described).  A file holds the text [readFile] returns for it with
    ["utf8"]; [writeFile] stores a text as it is given, which is what the
    system does with well-formed UTF-16 (a surrogate without its pair would
    come back as U+FFFD). *)

#[warnings="-register-all"] Inductive node : Type :=
  | File (data : str)
  | Dir (entries : list (str * node)).

Fixpoint lookup_entry (name : str) (entries : list (str * node)) : option node :=
  match entries with
  | [] => None
  | (n, c) :: rest => if str_eqb n name then Some c else lookup_entry name rest
  end.

Fixpoint lookup (n : node) (segs : list str) : option node :=
  match segs with
  | [] => Some n
  | s :: rest =>
      match n with
      | Dir es =>
          match lookup_entry s es with
          | Some c => lookup c rest
          | None => None
          end
      | File _ => None
      end
  end.

(** The components the system walks through for a path, from the top
    directory (a relative path is taken from there, and [..] at the top
    stays at the top). *)
Definition fs_segments (p : str) : list str :=
  rev (Path.normalize_segments false (Path.split_slash p) []).

Definition ends_with_slash (p : str) : bool := startsWith (rev p) [SLASH].

Definition ENOENT : exn := FsError (lit "ENOENT").
Definition EISDIR : exn := FsError (lit "EISDIR").
Definition ENOTDIR : exn := FsError (lit "ENOTDIR").
Definition EEXIST : exn := FsError (lit "EEXIST").
Definition EIO : exn := FsError (lit "EIO").

Fixpoint set_entry (name : str) (c : node) (entries : list (str * node))
    : list (str * node) :=
  match entries with
  | [] => [(name, c)]
  | (n, c') :: rest =>
      if str_eqb n name then (n, c) :: rest else (n, c') :: set_entry name c rest
  end.

Fixpoint remove_entry (name : str) (entries : list (str * node))
    : list (str * node) :=
  match entries with
  | [] => []
  | (n, c') :: rest =>
      if str_eqb n name then rest else (n, c') :: remove_entry name rest
  end.

(** [update n segs f]: the tree with the directory at [segs] replaced by what
    [f] makes of its entries. *)
Fixpoint update (n : node) (segs : list str)
    (f : list (str * node) -> result (list (str * node))) : result node :=
  match n with
  | File _ => Throw ENOTDIR
  | Dir es =>
      match segs with
      | [] =>
          match f es with
          | inr es' => Ok (Dir es')
          | inl e => Throw e
          end
      | s :: rest =>
          match lookup_entry s es with
          | None => Throw ENOENT
          | Some c =>
              match update c rest f with
              | inr c' => Ok (Dir (set_entry s c' es))
              | inl e => Throw e
              end
          end
      end
  end.

Definition fs_readFile (d : node) (p : str) : result str :=
  match lookup d (fs_segments p) with
  | Some (File data) => if ends_with_slash p then Throw ENOTDIR else Ok data
  | Some (Dir _) => Throw EISDIR
  | None => Throw ENOENT
  end.

(** A [Dirent]: the name and [isDirectory()]. *)
Definition dirent := (str * bool)%type.

Definition is_dir (n : node) : bool :=
  match n with Dir _ => true | File _ => false end.

Definition fs_readdir (d : node) (p : str) : result (list dirent) :=
  match lookup d (fs_segments p) with
  | Some (Dir es) => Ok (map (fun e => (fst e, is_dir (snd e))) es)
  | Some (File _) => Throw ENOTDIR
  | None => Throw ENOENT
  end.

Definition fs_writeFile (d : node) (p data : str) : result node :=
  match rev (fs_segments p) with
  | [] => Throw EISDIR
  | name :: parent_rev =>
      if ends_with_slash p then Throw EISDIR
      else
        update d (rev parent_rev) (fun es =>
          match lookup_entry name es with
          | Some (Dir _) => Throw EISDIR
          | _ => Ok (set_entry name (File data) es)
          end)
  end.

Definition fs_unlink (d : node) (p : str) : result node :=
  match rev (fs_segments p) with
  | [] => Throw EISDIR
  | name :: parent_rev =>
      update d (rev parent_rev) (fun es =>
        match lookup_entry name es with
        | Some (File _) =>
            if ends_with_slash p then Throw ENOTDIR else Ok (remove_entry name es)
        | Some (Dir _) => Throw EISDIR
        | None => Throw ENOENT
        end)
  end.

(** [mkdir(p, { recursive: true })]: missing directories are made along the
    way, existing ones are kept, a file in the way is an error. *)
Fixpoint mkdir_p (n : node) (segs : list str) : result node :=
  match n with
  | File _ => Throw EEXIST
  | Dir es =>
      match segs with
      | [] => Ok n
      | s :: rest =>
          let child :=
            match lookup_entry s es with
            | Some c => c
            | None => Dir []
            end in
          match mkdir_p child rest with
          | inr c' => Ok (Dir (set_entry s c' es))
          | inl e => Throw e
          end
      end
  end.

Definition fs_mkdir (d : node) (p : str) : result node := mkdir_p d (fs_segments p).

Fixpoint height (n : node) : nat :=
  match n with
  | File _ => O
  | Dir es =>
      S ((fix entries_height (es : list (str * node)) : nat :=
            match es with
            | [] => O
            | (_, c) :: rest => Nat.max (height c) (entries_height rest)
            end) es)
  end.

Inductive fs_op : Type :=
  | ReadFile (p : str)
  | Readdir (p : str)
  | Mkdir (p : str)
  | WriteFile (p data : str)
  | Unlink (p : str).

Inductive level : Type := INFO | WARN | ERROR | DEBUG.

(** The world of one run: the disk, the rejections to come, the file system
    calls made so far with their success, and the calls made on the logger. *)
Record world : Type := mkWorld {
  disk : node;
  faults : list bool;
  trace : list (fs_op * bool);
  console : list (level * str)
}.

(** ** Asynchronous code

    An [async] function is a computation on the world that resolves to a
    value or rejects with an error; [await] sequences them, and a rejection
    ends the function. *)
Definition M (A : Type) : Type := world -> result A * world.

Definition ret {A : Type} (a : A) : M A := fun w => (Ok a, w).
Definition throw {A : Type} (e : exn) : M A := fun w => (Throw e, w).
Definition bind {A B : Type} (m : M A) (k : A -> M B) : M B :=
  fun w =>
    match m w with
    | (inr a, w') => k a w'
    | (inl e, w') => (Throw e, w')
    end.
Definition lift {A : Type} (r : result A) : M A := fun w => (r, w).

Notation "x <- m ;; k" := (bind m (fun x => k))
  (at level 61, m at next level, right associativity).
Notation "m ;;; k" := (bind m (fun _ => k))
  (at level 61, right associativity).

(** One call of the file system: it takes the next rejection flag, runs on the
    disk unless rejected, and is recorded with its outcome. *)
Definition fs_call {A : Type} (op : fs_op) (run : node -> result (A * node)) : M A :=
  fun w =>
    let rejected := hd false (faults w) in
    let outcome := if rejected then Throw EIO else run (disk w) in
    match outcome with
    | inr (a, d') =>
        (Ok a, mkWorld d' (tl (faults w)) (trace w ++ [(op, true)]) (console w))
    | inl e =>
        (Throw e, mkWorld (disk w) (tl (faults w)) (trace w ++ [(op, false)]) (console w))
    end.

Definition keep {A : Type} (d : node) (r : result A) : result (A * node) :=
  match r with
  | inr a => Ok (a, d)
  | inl e => Throw e
  end.

Definition change (r : result node) : result (unit * node) :=
  match r with
  | inr d' => Ok (tt, d')
  | inl e => Throw e
  end.

Module fs.
Definition readFile (p : str) : M str :=
  fs_call (ReadFile p) (fun d => keep d (fs_readFile d p)).
Definition readdir (p : str) : M (list dirent) :=
  fs_call (Readdir p) (fun d => keep d (fs_readdir d p)).
Definition mkdir (p : str) : M unit :=
  fs_call (Mkdir p) (fun d => change (fs_mkdir d p)).
Definition writeFile (p data : str) : M unit :=
  fs_call (WriteFile p data) (fun d => change (fs_writeFile d p data)).
Definition unlink (p : str) : M unit :=
  fs_call (Unlink p) (fun d => change (fs_unlink d p)).
End fs.

Definition log (l : level) (message : str) : M unit :=
  fun w => (Ok tt, mkWorld (disk w) (faults w) (trace w) (console w ++ [(l, message)])).

(** ** src/adapters/fs/FsWorkspace.ts: the workspace store *)

Definition QUOTE : char := 34.

(** A [Set<string>] in insertion order. *)
Definition set_has (x : str) (s : list str) : bool := existsb (str_eqb x) s.
Definition set_add (x : str) (s : list str) : list str :=
  if set_has x s then s else s ++ [x].

(** A [for ... of] loop with an [await] in its body. *)
Fixpoint for_each {A S : Type} (body : A -> S -> M S) (l : list A) (s : S) : M S :=
  match l with
  | [] => ret s
  | a :: rest => s' <- body a s ;; for_each body rest s'
  end.

Module FsWorkspace.
Section WithRoot.

(** The constructor's argument. *)
Variable workspaceRoot : str.

Definition resolveAbsolute (relativePath : str) : str :=
  let normalized := strip_leading_slashes (backslashes_to_slashes relativePath) in
  Path.join workspaceRoot normalized.

(** [None] is [undefined]. *)
Definition deriveCategoryFromPath (relativePath : str)
    : result (option CategoryPath.t) :=
  let dir := backslashes_to_slashes (Path.dirname relativePath) in
  if str_eqb dir [DOT] || str_eqb dir [] then Ok None
  else
    match CategoryPath.fromRaw dir with
    | inr c => Ok (Some c)
    | inl e => Throw e
    end.

Definition loadNote (relativePath : str) : M Note :=
  let absPath := resolveAbsolute relativePath in
  raw <- fs.readFile absPath ;;
  let parsed := parseNoteFile raw in
  let categoryFromFm := obj_get (frontmatter parsed) (lit "category") in
  category <- lift
    match categoryFromFm with
    | Some c =>
        if truthy c && negb (str_eqb (trim c) []) then
          match CategoryPath.fromRaw c with
          | inr cp => Ok (Some cp)
          | inl e => Throw e
          end
        else deriveCategoryFromPath relativePath
    | None => deriveCategoryFromPath relativePath
    end ;;
  let title := deriveTitle relativePath (body parsed) in
  ret {| id := relativePath;
         path := relativePath;
         title := title;
         content := body parsed;
         category := category |}.

(** The inner function [walk] of [listCategories]; [categories] is the set
    it adds to.  [fuel] bounds the depth of the calls; a walk that needs more
    is [Unfinished]. *)
Fixpoint walk (fuel : nat) (currentRel : str) (categories : list str)
    : M (list str) :=
  match fuel with
  | O => throw Unfinished
  | S fuel' =>
      let abs := resolveAbsolute currentRel in
      entries <- fs.readdir abs ;;
      for_each
        (fun (entry : dirent) categories =>
           let entryRel :=
             strip_leading_slashes
               (backslashes_to_slashes (Path.join currentRel (fst entry))) in
           if snd entry then walk fuel' entryRel (set_add entryRel categories)
           else ret categories)
        entries categories
  end.

(** The loop that builds the result from the set. *)
Fixpoint build_result (categories : list str) (result_ : list CategoryPath.t)
    : result (list CategoryPath.t) :=
  match categories with
  | [] => Ok result_
  | cat :: rest =>
      if str_eqb cat [DOT] || str_eqb cat [] then build_result rest result_
      else
        match CategoryPath.fromRaw cat with
        | inr c => build_result rest (result_ ++ [c])
        | inl e => Throw e
        end
  end.

(** [walk] is given fuel for one call more than the disk is high: a walk
    that goes down the directories of the disk needs no more.  A walk that a
    directory name sends elsewhere can need more, and is then [Unfinished]. *)
Definition listCategories : M (list CategoryPath.t) :=
  fun w =>
    (categories <- walk (S (height (disk w))) [DOT] [] ;;
     lift (build_result categories [])) w.

Definition applyCategoryChange (notePath : str) (newCategory : CategoryPath.t)
    : M Note :=
  let currentRel := strip_leading_slashes (backslashes_to_slashes notePath) in
  let absOld := resolveAbsolute currentRel in
  raw <- fs.readFile absOld ;;
  let parsed := parseNoteFile raw in
  let parsed :=
    {| frontmatter :=
         obj_set (frontmatter parsed) (lit "category")
           (CategoryPath.toString newCategory);
       body := body parsed |} in
  let newContent := serializeNoteFile parsed in
  let fileName := Path.basename currentRel in
  let newRel :=
    strip_leading_slashes
      (backslashes_to_slashes
         (Path.join (CategoryPath.toString newCategory) fileName)) in
  let absNew := resolveAbsolute newRel in
  fs.mkdir (Path.dirname absNew) ;;;
  fs.writeFile absNew newContent ;;;
  (if negb (str_eqb absNew absOld) then fs.unlink absOld else ret tt) ;;;
  note <- loadNote newRel ;;
  ret note.

End WithRoot.
End FsWorkspace.

(** ** src/ports and src/application/CategorizeNoteUseCase.ts *)

Record WorkspacePort : Type := mkWorkspacePort {
  loadNote : str -> M Note;
  listCategories : M (list CategoryPath.t);
  applyCategoryChange : str -> CategoryPath.t -> M Note
}.

(** [FsWorkspace implements WorkspacePort]. *)
Definition FsWorkspacePort (workspaceRoot : str) : WorkspacePort :=
  {| loadNote := FsWorkspace.loadNote workspaceRoot;
     listCategories := FsWorkspace.listCategories workspaceRoot;
     applyCategoryChange := FsWorkspace.applyCategoryChange workspaceRoot |}.

(** The optional [confidence] of a decision is a number the use case never
    reads; it is left out. *)
Record CategorizationDecision : Type := mkDecision {
  suggestedCategory : CategoryPath.t;
  reasoning : str
}.

Record CategorizationContext : Type := mkContext {
  note : Note;
  availableCategories : list CategoryPath.t
}.

(** The categorizer is an outside service: it answers a context with a
    decision or fails, and has no hand on the disk. *)
Record CategorizationPort : Type := mkCategorizationPort {
  suggestCategory : CategorizationContext -> result CategorizationDecision
}.

Record CategorizeNoteOutput : Type := mkOutput {
  originalNote : Note;
  updatedNote : Note;
  wasMoved : bool;
  out_reasoning : str
}.

Fixpoint uint_to_str (u : Decimal.uint) : str :=
  match u with
  | Decimal.Nil => []
  | Decimal.D0 u => 48 :: uint_to_str u
  | Decimal.D1 u => 49 :: uint_to_str u
  | Decimal.D2 u => 50 :: uint_to_str u
  | Decimal.D3 u => 51 :: uint_to_str u
  | Decimal.D4 u => 52 :: uint_to_str u
  | Decimal.D5 u => 53 :: uint_to_str u
  | Decimal.D6 u => 54 :: uint_to_str u
  | Decimal.D7 u => 55 :: uint_to_str u
  | Decimal.D8 u => 56 :: uint_to_str u
  | Decimal.D9 u => 57 :: uint_to_str u
  end.

Definition number_to_str (n : nat) : str := uint_to_str (Nat.to_uint n).

Module CategorizeNoteUseCase.
Section WithPorts.

Variable workspace : WorkspacePort.
Variable categorizer : CategorizationPort.

(** [originalNote.category?.toString() ?? ""]. *)
Definition currentCategoryStr (n : Note) : str :=
  match category n with
  | Some c => CategoryPath.toString c
  | None => []
  end.

Definition execute (relativePath : str) : M CategorizeNoteOutput :=
  log INFO (lit "Loading note: " ++ relativePath) ;;;
  originalNote <- loadNote workspace relativePath ;;
  log DEBUG (lit "Loaded note: " ++ [QUOTE] ++ title originalNote ++ [QUOTE]) ;;;
  availableCategories <- listCategories workspace ;;
  log DEBUG (lit "Found " ++ number_to_str (length availableCategories)
             ++ lit " existing categories") ;;;
  log INFO (lit "Analyzing note content...") ;;;
  decision <- lift (suggestCategory categorizer
                      {| note := originalNote;
                         availableCategories := availableCategories |}) ;;
  let currentCategoryStr := currentCategoryStr originalNote in
  let suggestedCategoryStr := CategoryPath.toString (suggestedCategory decision) in
  if str_eqb currentCategoryStr suggestedCategoryStr then
    log INFO (lit "Note already in optimal category: " ++ suggestedCategoryStr) ;;;
    ret {| originalNote := originalNote;
           updatedNote := originalNote;
           wasMoved := false;
           out_reasoning := reasoning decision |}
  else
    log INFO (lit "Moving note from " ++ [QUOTE]
              ++ (if truthy currentCategoryStr then currentCategoryStr
                  else lit "(root)")
              ++ [QUOTE] ++ lit " to " ++ [QUOTE] ++ suggestedCategoryStr ++ [QUOTE]) ;;;
    updatedNote <- applyCategoryChange workspace relativePath
                     (suggestedCategory decision) ;;
    log INFO (lit "Successfully categorized note to: " ++ suggestedCategoryStr) ;;;
    ret {| originalNote := originalNote;
           updatedNote := updatedNote;
           wasMoved := true;
           out_reasoning := reasoning decision |}.

End WithPorts.
End CategorizeNoteUseCase.

(** ** src/adapters/ai: the categorization adapters

    [OpenAICategorizationAdapter] and [GoogleCategorizationAdapter] have the
    same text but for the provider whose model they hand to
    [generateObject].  The language model is an outside service:
    [generateObject] answers a provider, a model name and a prompt with an
    object of the response schema, or fails.  The [confidence] of the object
    goes into the field of the decision that is left out above. *)

Inductive LLMProvider : Type := openai | google.

Module Response.
Record t : Type := make { category : str; reasoning : str }.
End Response.

Module CategorizationAdapter.
Section WithService.

Variable generateObject : LLMProvider -> str -> str -> result Response.t.
Variable provider : LLMProvider.
Variable model : str.

Definition buildPrompt (n : Note) (availableCategories : list CategoryPath.t)
    : str :=
  let categoryList :=
    if (0 <? length availableCategories)%nat then
      join [LF]
        (map (fun c => lit "  - " ++ CategoryPath.toString c) availableCategories)
    else lit "  (no existing categories)" in
  let currentCategory :=
    match category n with
    | Some c => CategoryPath.toString c
    | None => lit "(uncategorized)"
    end in
  join [LF]
    [ lit "You are an AI note categorization assistant for a personal knowledge base.";
      [];
      lit "## Task";
      lit "Analyze the following note and suggest the best category for it.";
      [];
      lit "## Rules";
      lit "- Prefer existing categories when they fit well.";
      lit "- Only suggest a new category if no existing one is appropriate.";
      lit "- Use hierarchical paths like 'AI/Agents' or 'Product/Ideas'.";
      lit "- Keep category names concise and descriptive.";
      [];
      lit "## Note Details";
      lit "**Title:** " ++ title n;
      lit "**Current Category:** " ++ currentCategory;
      [];
      lit "**Content:**";
      content n;
      [];
      lit "## Available Categories";
      categoryList ].

Definition suggestCategory (context : CategorizationContext)
    : result CategorizationDecision :=
  let prompt := buildPrompt (note context) (availableCategories context) in
  match generateObject provider model prompt with
  | inl e => Throw e
  | inr object =>
      match CategoryPath.fromRaw (Response.category object) with
      | inl e => Throw e
      | inr c =>
          Ok {| suggestedCategory := c; reasoning := Response.reasoning object |}
      end
  end.

End WithService.
End CategorizationAdapter.

Definition OpenAICategorizationAdapter
    (generateObject : LLMProvider -> str -> str -> result Response.t)
    (model : str) : CategorizationPort :=
  {| suggestCategory :=
       CategorizationAdapter.suggestCategory generateObject openai model |}.

Definition GoogleCategorizationAdapter
    (generateObject : LLMProvider -> str -> str -> result Response.t)
    (model : str) : CategorizationPort :=
  {| suggestCategory :=
       CategorizationAdapter.suggestCategory generateObject google model |}.

(** [CategorizationAdapterFactory.create]; the [default] branch of its
    [switch] is not reached by a provider of the type. *)
Module CategorizationAdapterFactory.
Definition create
    (generateObject : LLMProvider -> str -> str -> result Response.t)
    (provider : LLMProvider) (model : str) : CategorizationPort :=
  match provider with
  | openai => OpenAICategorizationAdapter generateObject model
  | google => GoogleCategorizationAdapter generateObject model
  end.
End CategorizationAdapterFactory.

(** ** src/infrastructure/container.ts

    The container builds each adapter once, on first use, from the
    configuration.  The adapters hold nothing but their arguments, so the
    instances are given here as values.  The categorizer is the OpenAI
    adapter whatever [llmProvider] says. *)

Record AppConfig : Type := mkAppConfig {
  workspaceRoot : str;
  llmProvider : LLMProvider;
  aiModel : str;
  debug : bool
}.

Module Container.
Section WithConfig.

Variable generateObject : LLMProvider -> str -> str -> result Response.t.
Variable config : AppConfig.

Definition workspace : WorkspacePort := FsWorkspacePort (workspaceRoot config).

Definition categorizer : CategorizationPort :=
  OpenAICategorizationAdapter generateObject (aiModel config).

(** [container.categorizeNoteUseCase.execute({ relativePath })]. *)
Definition categorizeNoteUseCase (relativePath : str) : M CategorizeNoteOutput :=
  CategorizeNoteUseCase.execute workspace categorizer relativePath.

End WithConfig.
End Container.

(** ** src/agent/categorizeNoteAgent.ts: the tools

    The three functions the agent offers the language model as tools.  What
    the model does with them is the model's affair; what each tool does when
    called is below. *)

Module LoadNoteOutput.
Record t : Type := make {
  id : str;
  path : str;
  title : str;
  content : str;
  category : option str
}.
End LoadNoteOutput.

Module ApplyCategoryChangeOutput.
Record t : Type := make {
  id : str;
  path : str;
  title : str;
  category : option str
}.
End ApplyCategoryChangeOutput.

Module Agent.
Section WithRoot.

Variable WORKSPACE_ROOT : str.

Definition load_note (p : str) : M LoadNoteOutput.t :=
  n <- FsWorkspace.loadNote WORKSPACE_ROOT p ;;
  ret (LoadNoteOutput.make (id n) (path n) (title n) (content n)
         (option_map CategoryPath.toString (category n))).

Definition list_categories : M (list str) :=
  categories <- FsWorkspace.listCategories WORKSPACE_ROOT ;;
  ret (map CategoryPath.toString categories).

Definition apply_category_change (p newCategory : str)
    : M ApplyCategoryChangeOutput.t :=
  categoryPath <- lift (CategoryPath.fromRaw newCategory) ;;
  updated <- FsWorkspace.applyCategoryChange WORKSPACE_ROOT p categoryPath ;;
  ret (ApplyCategoryChangeOutput.make (id updated) (path updated) (title updated)
         (option_map CategoryPath.toString (category updated))).

End WithRoot.
End Agent.

(** ** src/cli/index.ts: the path given on the command line

    [argPath.replace(/^\.?[\/\\]*/, "").replace(/\\/g, "/")]: one dot at the
    start goes, then every slash and backslash that follows it, and the
    backslashes left become slashes. *)

Module Cli.

Definition strip_dot_and_separators (s : str) : str :=
  drop_while (fun c => (c =? SLASH) || (c =? BACKSLASH))
    match s with
    | c :: rest => if c =? DOT then rest else s
    | [] => []
    end.

Definition relPath (argPath : str) : str :=
  backslashes_to_slashes (strip_dot_and_separators argPath).

End Cli.

(** * Vocabulary of the properties *)

(** A slash or a backslash. *)
Definition is_sep (c : char) : bool := (c =? SLASH) || (c =? BACKSLASH).

(** The first line of a text, as [split] cuts it. *)
Definition first_line (raw : str) : str := hd [] (split_lines raw).

(** White space that does not end a line. *)
Definition blank_no_lf (s : str) : bool :=
  forallb (fun c => is_ws c && negb (c =? LF)) s.

Definition no_lf (s : str) : bool := forallb (fun c => negb (c =? LF)) s.

(** A line without the carriage return that [split] takes with the line
    feed after it. *)
Definition chomp_cr (s : str) : str :=
  match rev s with
  | c :: r => if c =? CR then rev r else s
  | [] => []
  end.

(** The header entry a line stands for: the line has a colon and the part
    before the first colon, trimmed, is not empty; the entry is that key with
    the trimmed rest as its value. *)
Definition header_entry (line : str) : option (str * str) :=
  match indexOf COLON line with
  | None => None
  | Some idx =>
      let key := trim (firstn idx line) in
      if truthy key then Some (key, trim (skipn (S idx) line)) else None
  end.

(** The header made of the entries of some lines, each assigned to the
    object in turn: a later entry replaces an earlier one of the same key. *)
Definition header_of (lines : list str) : obj :=
  fold_left (fun fm kv => obj_set fm (fst kv) (snd kv))
    (flat_map (fun l => match header_entry l with
                        | Some kv => [kv]
                        | None => []
                        end) lines)
    [].

(** A note whose first line is the delimiter with a space on either side. *)
Definition padded_note : str := lit " --- \nkey: v\n---\nbody".

(** A note whose first line is the delimiter with a space after it. *)
Definition trailing_space_note : str := lit "--- \ntitle: x\n---\ntext".

(** A note with a header block that is never closed and has a line for the
    key [__proto__]. *)
Definition proto_note : str := lit "---\n__proto__: x\na: 1".

(** The normalization of the design document, its four steps in the order
    it lists them: backslashes to slashes, repeated slashes to one, the
    slashes at the ends off, the white space around off. *)
Definition spec_normalized (raw : str) : str :=
  trim (strip_edge_slashes (collapse_slashes (backslashes_to_slashes raw))).

(** Well-formed UTF-16: every surrogate is one half of a pair.  These are
    the texts that come back from a file as they were written to it. *)
Definition is_high_surrogate (c : char) : bool := (55296 <=? c) && (c <=? 56319).
Definition is_low_surrogate (c : char) : bool := (56320 <=? c) && (c <=? 57343).

Fixpoint well_formed (s : str) : bool :=
  match s with
  | [] => true
  | c :: rest =>
      if is_high_surrogate c then
        match rest with
        | d :: rest' => is_low_surrogate d && well_formed rest'
        | [] => false
        end
      else negb (is_low_surrogate c) && well_formed rest
  end.

(** Neither side of an entry has white space around it. *)
Definition trimmed_entry (kv : str * str) : Prop :=
  trim (fst kv) = fst kv /\ trim (snd kv) = snd kv.

(** The order [Object.entries] lists the properties of an object in: the
    keys that are array indices first, in ascending order, then the others. *)
Definition not_index (kv : str * str) : bool :=
  match array_index (fst kv) with
  | Some _ => false
  | None => true
  end.

Fixpoint ordered_from (lo : N) (o : obj) : bool :=
  match o with
  | [] => true
  | (k, _) :: rest =>
      match array_index k with
      | Some n => (lo <=? n) && ordered_from n rest
      | None => forallb not_index rest
      end
  end.

Definition key_order (o : obj) : bool := ordered_from 0 o.

(** A header that [serializeNoteFile] writes without ambiguity: it has an
    entry, no key twice, and every key and value is trimmed and free of line
    feeds; keys are not empty, have no colon and are not [__proto__]; the
    entries are in the order an object lists them. *)
Definition entry_ok (kv : str * str) : Prop :=
  fst kv <> [] /\ trim (fst kv) = fst kv /\ ~ In COLON (fst kv)
  /\ no_lf (fst kv) = true /\ trim (snd kv) = snd kv /\ no_lf (snd kv) = true
  /\ fst kv <> PROTO.

Definition header_ok (H : obj) : Prop :=
  H <> [] /\ NoDup (map fst H) /\ Forall entry_ok H /\ key_order H = true.

(** [s.split(/\r?\n/).join("\n")]: the text with each line break written as
    one line feed. *)
Definition lf_breaks (s : str) : str := join [LF] (split_lines s).

(** The test [deriveTitle] finds the heading line with. *)
Definition is_heading (line : str) : bool := startsWith (trim line) (lit "# ").

(** The calls that change the disk, and the record of them in a trace. *)
Definition is_write (op : fs_op) : bool :=
  match op with
  | ReadFile _ | Readdir _ => false
  | Mkdir _ | WriteFile _ _ | Unlink _ => true
  end.

Definition writes (t : list (fs_op * bool)) : list (fs_op * bool) :=
  filter (fun e => is_write (fst e)) t.

(** A computation that leaves the disk alone and makes no call that changes
    it. *)
Definition read_only {A : Type} (m : M A) : Prop :=
  forall w, disk (snd (m w)) = disk w
            /\ writes (trace (snd (m w))) = writes (trace w).

(** Two worlds with the same disk and the same rejections to come; a
    computation that sees nothing else of the world. *)
Definition sim (w1 w2 : world) : Prop :=
  disk w1 = disk w2 /\ faults w1 = faults w2.

Definition respects {A : Type} (m : M A) : Prop :=
  forall w1 w2, sim w1 w2 ->
    fst (m w1) = fst (m w2) /\ sim (snd (m w1)) (snd (m w2)).

(** The two absolute paths [applyCategoryChange] computes: the one it reads
    the note from and the one it writes the note to. *)
Definition old_path (root notePath : str) : str :=
  FsWorkspace.resolveAbsolute root
    (strip_leading_slashes (backslashes_to_slashes notePath)).

Definition new_path (root notePath : str) (newCategory : CategoryPath.t) : str :=
  FsWorkspace.resolveAbsolute root
    (strip_leading_slashes
       (backslashes_to_slashes
          (Path.join (CategoryPath.toString newCategory)
             (Path.basename
                (strip_leading_slashes (backslashes_to_slashes notePath)))))).

(** The calls of one run of [applyCategoryChange], in order: the six ways
    the run can go.  [present data] says that both files are on the disk at
    the end, the new one holding [data]. *)
Definition change_run (absOld absNew : str) (present : str -> Prop)
    (evs : list (fs_op * bool)) : Prop :=
  evs = [(ReadFile absOld, false)]
  \/ (exists dir, evs = [(ReadFile absOld, true); (Mkdir dir, false)])
  \/ (exists dir data,
        evs = [(ReadFile absOld, true); (Mkdir dir, true);
               (WriteFile absNew data, false)])
  \/ (exists dir data,
        absNew <> absOld /\ present data
        /\ evs = [(ReadFile absOld, true); (Mkdir dir, true);
                  (WriteFile absNew data, true); (Unlink absOld, false)])
  \/ (exists dir data p ok,
        absNew <> absOld
        /\ evs = [(ReadFile absOld, true); (Mkdir dir, true);
                  (WriteFile absNew data, true); (Unlink absOld, true);
                  (ReadFile p, ok)])
  \/ (exists dir data p ok,
        absNew = absOld /\ present data
        /\ evs = [(ReadFile absOld, true); (Mkdir dir, true);
                  (WriteFile absNew data, true); (ReadFile p, ok)]).

(** A workspace with a note filed under [AI/Agents], and a categorizer that
    suggests [AI/Agents]. *)
Definition demo_disk : node :=
  Dir [(lit "ws",
        Dir [(lit "AI",
              Dir [(lit "Agents",
                    Dir [(lit "n.md",
                          File (lit "---\ncategory: AI/Agents\n---\n\n# T\nbody"))])]);
             (lit "Product", Dir []);
             (lit "inbox", Dir [(lit "idea.md", File (lit "# Idea\ntext"))])])].

Definition demo_world : world := mkWorld demo_disk [] [] [].

Definition demo_categorizer : CategorizationPort :=
  {| suggestCategory := fun _ =>
       Ok {| suggestedCategory := CategoryPath.make (lit "AI/Agents");
             reasoning := lit "about agents" |} |}.

Definition demo_note : Note :=
  {| id := lit "AI/Agents/n.md";
     title := lit "T";
     content := lit "\n# T\nbody";
     category := Some (CategoryPath.make (lit "AI/Agents"));
     path := lit "AI/Agents/n.md" |}.

(** A path component: not empty, without a slash, neither [.] nor [..]. *)
Definition seg_ok (s : str) : bool :=
  truthy s && forallb Path.not_slash s
  && negb (str_eqb s [DOT]) && negb (str_eqb s [DOT; DOT]).

(** A directory name that is its own category name: a path component
    without a backslash and without white space at either end. *)
Definition plain_name (s : str) : bool :=
  seg_ok s && forallb (fun c => negb (c =? BACKSLASH)) s && str_eqb (trim s) s.

Fixpoint names_distinct (names : list str) : bool :=
  match names with
  | [] => true
  | n :: rest => negb (existsb (str_eqb n) rest) && names_distinct rest
  end.

(** A tree as a file system holds it, with plain directory names: no name
    twice in a directory, and every directory below named plainly. *)
Fixpoint tidy (n : node) : bool :=
  match n with
  | File _ => true
  | Dir es =>
      names_distinct (map fst es)
      && (fix tidy_entries (es : list (str * node)) : bool :=
            match es with
            | [] => true
            | (name, c) :: rest =>
                (if is_dir c then plain_name name else true)
                && tidy c && tidy_entries rest
            end) es
  end.

(** No call to come is rejected by the system. *)
Definition calm_world (w : world) : Prop := forallb negb (faults w) = true.

(** The relative path [walk] is called with for the directory at the
    components [L] under the workspace root. *)
Definition rel_of (L : list str) : str :=
  match L with
  | [] => [DOT]
  | _ :: _ => join [SLASH] L
  end.

(** A string with good ends: its first and its last unit are neither white
    space nor a slash. *)
Definition good_ends (s : str) : Prop :=
  (exists c r, s = c :: r /\ is_ws c = false /\ (c =? SLASH) = false)
  /\ (exists r d, s = r ++ [d] /\ is_ws d = false /\ (d =? SLASH) = false).

(** Vocabulary for [normalizeString]: the component [..]; a piece between
    slashes; a piece that is kept (neither empty nor [.]); a stack of
    components with every [..] below every other component. *)
Definition is_dd (s : str) : bool := str_eqb s [DOT; DOT].
Definition not_dd (s : str) : bool := negb (is_dd s).
Definition piece (s : str) : bool := forallb Path.not_slash s.
Definition kept (s : str) : bool :=
  truthy s && negb (str_eqb s [DOT]) && piece s.

Fixpoint settled (acc : list str) : bool :=
  match acc with
  | [] => true
  | top :: below => if is_dd top then forallb is_dd below else settled below
  end.

(** A computation that uses up rejection flags and adds none. *)
Definition calm {A : Type} (m : M A) : Prop :=
  forall w, calm_world w -> calm_world (snd (m w)).

(** What [readdir] reports of an entry. *)
Definition dirent_of (e : str * node) : dirent := (fst e, is_dir (snd e)).

(** The body of the loop of [walk], with [recur] for the call to itself. *)
Definition walk_body (recur : str -> list str -> M (list str)) (currentRel : str)
    : dirent -> list str -> M (list str) :=
  fun entry categories =>
    let entryRel :=
      strip_leading_slashes
        (backslashes_to_slashes (Path.join currentRel (fst entry))) in
    if snd entry then recur entryRel (set_add entryRel categories)
    else ret categories.

(** [x] is the relative path of a directory that lies below the directory
    [n], itself at the components [L] under the workspace root. *)
Definition under (n : node) (L : list str) (x : str) : Prop :=
  exists segs es', segs <> [] /\ lookup n segs = Some (Dir es')
                   /\ x = join [SLASH] (L ++ segs).

(** What a call of [walk] with the given fuel does on a tidy directory: it
    returns, and the set has gained the paths of the directories below. *)
Definition walk_spec (root : str) (fuel : nat) : Prop :=
  forall L es cats w,
    forallb plain_name L = true ->
    lookup (disk w) (fs_segments root ++ L) = Some (Dir es) ->
    tidy (Dir es) = true ->
    (height (Dir es) <= fuel)%nat ->
    calm_world w -> NoDup cats ->
    exists cats',
      fst (FsWorkspace.walk root fuel (rel_of L) cats w) = Ok cats'
      /\ NoDup cats'
      /\ forall x, In x cats' <-> In x cats \/ under (Dir es) L x.

(** Workspaces for the listing: the one of the design document, the same
    with the directories met in another order, and three with directory
    names that are not plain. *)
Definition listing_world (entries : list (str * node)) : world :=
  mkWorld (Dir [(lit "ws", Dir entries)]) [] [] [].

Definition spec_workspace : list (str * node) :=
  [(lit "AI", Dir [(lit "Agents", Dir [])]); (lit "Product", Dir [])].

Definition spec_workspace_reordered : list (str * node) :=
  [(lit "Product", Dir []); (lit "AI", Dir [(lit "Agents", Dir [])])].

Definition padded_workspace : list (str * node) :=
  [(lit " x", Dir []); (lit "x", Dir [])].

Definition blank_workspace : list (str * node) := [(lit " ", Dir [])].

Definition backslash_workspace : list (str * node) := [(lit "a\\b", Dir [])].

(** A string without a backslash. *)
Definition no_backslash (s : str) : bool :=
  forallb (fun c => negb (c =? BACKSLASH)) s.

(** The workspace-relative path [applyCategoryChange] moves a note to, and
    the text it writes there for a note it read as [raw]. *)
Definition new_rel (notePath : str) (newCategory : CategoryPath.t) : str :=
  strip_leading_slashes
    (backslashes_to_slashes
       (Path.join (CategoryPath.toString newCategory)
          (Path.basename
             (strip_leading_slashes (backslashes_to_slashes notePath))))).

Definition new_content (raw : str) (newCategory : CategoryPath.t) : str :=
  serializeNoteFile
    {| frontmatter :=
         obj_set (frontmatter (parseNoteFile raw)) (lit "category")
           (CategoryPath.toString newCategory);
       body := body (parseNoteFile raw) |}.

(** What [loadNote] resolves to on a disk when the system does not reject
    its call. *)
Definition note_of (root rel : str) (d : node) : result Note :=
  fst (FsWorkspace.loadNote root rel (mkWorld d [] [] [])).

(** A disk on which no directory holds two entries of one name. *)
Fixpoint distinct_names (n : node) : bool :=
  match n with
  | File _ => true
  | Dir es =>
      names_distinct (map fst es)
      && (fix below (es : list (str * node)) : bool :=
            match es with
            | [] => true
            | (_, c) :: rest => distinct_names c && below rest
            end) es
  end.

(** The ways a run of [applyCategoryChange] on the disk [d] can end: with
    which result, and on which disk.  The run stops at the first call that
    fails; a failed call leaves the disk as it was. *)
Inductive change_end (root notePath : str) (c : CategoryPath.t) (d : node)
    : result Note -> node -> Prop :=
  | end_unread (e : exn) :
      change_end root notePath c d (Throw e) d
  | end_no_directory (raw : str) (e : exn) :
      fs_readFile d (old_path root notePath) = Ok raw ->
      change_end root notePath c d (Throw e) d
  | end_unwritten (raw : str) (d1 : node) (e : exn) :
      fs_readFile d (old_path root notePath) = Ok raw ->
      fs_mkdir d (Path.dirname (new_path root notePath c)) = Ok d1 ->
      change_end root notePath c d (Throw e) d1
  | end_not_removed (raw : str) (d1 d2 : node) (e : exn) :
      fs_readFile d (old_path root notePath) = Ok raw ->
      fs_mkdir d (Path.dirname (new_path root notePath c)) = Ok d1 ->
      fs_writeFile d1 (new_path root notePath c) (new_content raw c) = Ok d2 ->
      new_path root notePath c <> old_path root notePath ->
      change_end root notePath c d (Throw e) d2
  | end_moved (raw : str) (d1 d2 d3 : node) (r : result Note) :
      fs_readFile d (old_path root notePath) = Ok raw ->
      fs_mkdir d (Path.dirname (new_path root notePath c)) = Ok d1 ->
      fs_writeFile d1 (new_path root notePath c) (new_content raw c) = Ok d2 ->
      new_path root notePath c <> old_path root notePath ->
      fs_unlink d2 (old_path root notePath) = Ok d3 ->
      r = Throw EIO \/ r = note_of root (new_rel notePath c) d3 ->
      change_end root notePath c d r d3
  | end_in_place (raw : str) (d1 d2 : node) (r : result Note) :
      fs_readFile d (old_path root notePath) = Ok raw ->
      fs_mkdir d (Path.dirname (new_path root notePath c)) = Ok d1 ->
      fs_writeFile d1 (new_path root notePath c) (new_content raw c) = Ok d2 ->
      new_path root notePath c = old_path root notePath ->
      r = Throw EIO \/ r = note_of root (new_rel notePath c) d2 ->
      change_end root notePath c d r d2.

(** A computation whose calls to the file system are all [readdir]s, and
    which leaves the disk and the log alone. *)
Definition is_readdir (e : fs_op * bool) : Prop := exists p, fst e = Readdir p.

Definition lists_only {A : Type} (m : M A) : Prop :=
  forall w, exists evs,
    trace (snd (m w)) = trace w ++ evs
    /\ Forall is_readdir evs
    /\ disk (snd (m w)) = disk w
    /\ console (snd (m w)) = console w.

(** The note of [inbox/idea.md] in the workspace above once it is moved to
    [Product]. *)
Definition moved_note : Note :=
  {| id := lit "Product/idea.md";
     title := lit "Idea";
     content := lit "\n# Idea\ntext";
     category := Some (CategoryPath.make (lit "Product"));
     path := lit "Product/idea.md" |}.

(** A workspace with a note that lies in its root and has no header, a
    language model that answers every prompt with [Product], and an
    application configured for them. *)
Definition loose_world : world :=
  mkWorld
    (Dir [(lit "ws", Dir [(lit "loose.md", File (lit "# Loose\nthoughts"));
                          (lit "Product", Dir [])])])
    [] [] [].

Definition demo_service : LLMProvider -> str -> str -> result Response.t :=
  fun _ _ _ => Ok (Response.make (lit " Product/ ") (lit "a product idea")).

Definition demo_config : AppConfig :=
  {| workspaceRoot := lit "/ws"; llmProvider := openai;
     aiModel := lit "gpt-4o"; debug := false |}.

Definition loose_out : CategorizeNoteOutput :=
  {| originalNote :=
       {| id := lit "loose.md"; title := lit "Loose";
          content := lit "# Loose\nthoughts"; category := None;
          path := lit "loose.md" |};
     updatedNote :=
       {| id := lit "Product/loose.md"; title := lit "Loose";
          content := lit "\n# Loose\nthoughts";
          category := Some (CategoryPath.make (lit "Product"));
          path := lit "Product/loose.md" |};
     wasMoved := true;
     out_reasoning := lit "a product idea" |}.

(** The directories below a directory, each as the path of its names from
    the names [L], a directory before what lies in it and the entries of a
    directory in their order. *)
Fixpoint listing (n : node) (L : list str) : list str :=
  match n with
  | File _ => []
  | Dir es =>
      (fix entries (es : list (str * node)) : list str :=
         match es with
         | [] => []
         | (name, c) :: rest =>
             (if is_dir c
              then join [SLASH] (L ++ [name]) :: listing c (L ++ [name])
              else [])
             ++ entries rest
         end) es
  end.

Definition entry_listing (L : list str) (e : str * node) : list str :=
  if is_dir (snd e)
  then join [SLASH] (L ++ [fst e]) :: listing (snd e) (L ++ [fst e])
  else [].

(** What a call of [walk] with the given fuel returns on a tidy directory
    when none of the paths it is given lies below that directory: the paths
    it was given, then the listing of the directory. *)
Definition walk_lists (root : str) (fuel : nat) : Prop :=
  forall L es cats w,
    forallb plain_name L = true ->
    lookup (disk w) (fs_segments root ++ L) = Some (Dir es) ->
    tidy (Dir es) = true ->
    (height (Dir es) <= fuel)%nat ->
    calm_world w -> NoDup cats ->
    (forall x, In x cats -> ~ under (Dir es) L x) ->
    fst (FsWorkspace.walk root fuel (rel_of L) cats w)
    = Ok (cats ++ listing (Dir es) L).

(** * Properties *)

(** ** Strings *)

Lemma str_eqb_eq (a b : str) : str_eqb a b = true <-> a = b.
Proof.
  revert b; induction a as [|x a IH]; intros [|y b]; simpl; split; intro H;
    try reflexivity; try discriminate.
  - apply andb_true_iff in H as [Hx Hab]. apply N.eqb_eq in Hx.
    apply IH in Hab. now subst.
  - injection H as -> ->. rewrite N.eqb_refl. simpl. now apply IH.
Qed.

Lemma str_eqb_refl (a : str) : str_eqb a a = true.
Proof. now apply str_eqb_eq. Qed.

Lemma str_eqb_neq (a b : str) : str_eqb a b = false <-> a <> b.
Proof.
  split; intro H.
  - intro E. apply str_eqb_eq in E. congruence.
  - destruct (str_eqb a b) eqn:E; [|reflexivity].
    apply str_eqb_eq in E. contradiction.
Qed.

Lemma str_eqb_sym (a b : str) : str_eqb a b = str_eqb b a.
Proof.
  destruct (str_eqb a b) eqn:E; symmetry.
  - apply str_eqb_eq in E. subst. apply str_eqb_refl.
  - apply str_eqb_neq. apply str_eqb_neq in E. congruence.
Qed.

Lemma truthy_false (s : str) : truthy s = false <-> s = [].
Proof. destruct s; simpl; split; congruence. Qed.

Lemma truthy_true (s : str) : truthy s = true <-> s <> [].
Proof. destruct s; simpl; split; congruence. Qed.

Lemma drop_while_idem (p : char -> bool) (s : str) :
  drop_while p (drop_while p s) = drop_while p s.
Proof.
  induction s as [|c s IH]; simpl; [reflexivity|].
  destruct (p c) eqn:E; [exact IH|]. simpl. now rewrite E.
Qed.

Lemma drop_while_all (p : char -> bool) (s : str) :
  forallb p s = true -> drop_while p s = [].
Proof.
  induction s as [|c s IH]; simpl; [reflexivity|].
  intro H. apply andb_true_iff in H as [Hc Hs]. rewrite Hc. auto.
Qed.

Lemma drop_while_nil_all (p : char -> bool) (s : str) :
  drop_while p s = [] -> forallb p s = true.
Proof.
  induction s as [|c s IH]; simpl; [reflexivity|].
  destruct (p c); [auto | discriminate].
Qed.

Lemma drop_while_head (p : char -> bool) (s : str) (c : char) (r : str) :
  drop_while p s = c :: r -> p c = false.
Proof.
  induction s as [|x s IH]; simpl; [discriminate|].
  destruct (p x) eqn:E; [exact IH|]. intro H. injection H as -> _. exact E.
Qed.

Lemma drop_while_fix (p : char -> bool) (c : char) (s : str) :
  p c = false -> drop_while p (c :: s) = c :: s.
Proof. intro H. simpl. now rewrite H. Qed.

Lemma drop_while_app_all (p : char -> bool) (a b : str) :
  forallb p a = true -> drop_while p (a ++ b) = drop_while p b.
Proof.
  induction a as [|c a IH]; simpl; [reflexivity|].
  intro H. apply andb_true_iff in H as [Hc Ha]. rewrite Hc. auto.
Qed.

(** A string that keeps a unit under [drop_while] keeps what follows it. *)
Lemma drop_while_app_keep (p : char -> bool) (a b : str) :
  drop_while p a <> [] -> drop_while p (a ++ b) = drop_while p a ++ b.
Proof.
  induction a as [|c a IH]; simpl; [congruence|].
  destruct (p c); [exact IH | reflexivity].
Qed.

Lemma trimEnd_app_ws (s : str) (c : char) :
  is_ws c = true -> trimEnd (s ++ [c]) = trimEnd s.
Proof.
  intro H. unfold trimEnd. rewrite rev_app_distr. simpl. now rewrite H.
Qed.

Lemma trim_app_ws (s : str) (c : char) :
  is_ws c = true -> trim (s ++ [c]) = trim s.
Proof.
  intro H. unfold trim, trimStart.
  destruct (drop_while is_ws s) as [|x r] eqn:E.
  - rewrite drop_while_app_all by now apply drop_while_nil_all.
    simpl. rewrite H. reflexivity.
  - rewrite drop_while_app_keep by (rewrite E; discriminate).
    rewrite E. now apply trimEnd_app_ws.
Qed.

Lemma trim_cons_ws (s : str) (c : char) :
  is_ws c = true -> trim (c :: s) = trim s.
Proof. intro H. unfold trim, trimStart. simpl. now rewrite H. Qed.

Lemma trim_app_ws_l (a s : str) :
  forallb is_ws a = true -> trim (a ++ s) = trim s.
Proof.
  induction a as [|c a IH]; simpl; [reflexivity|].
  intro H. apply andb_true_iff in H as [Hc Ha].
  rewrite trim_cons_ws by exact Hc. auto.
Qed.

Lemma trim_app_ws_r (s a : str) :
  forallb is_ws a = true -> trim (s ++ a) = trim s.
Proof.
  revert s. induction a as [|c a IH]; intros s H; simpl in *.
  - now rewrite app_nil_r.
  - apply andb_true_iff in H as [Hc Ha].
    replace (s ++ c :: a) with ((s ++ [c]) ++ a) by now rewrite <- app_assoc.
    rewrite IH by exact Ha. now apply trim_app_ws.
Qed.

(** What [trim] returns begins and ends with a unit that is not white
    space. *)
Lemma trimEnd_last (s : str) (c : char) (r : str) :
  trimEnd s = r ++ [c] -> is_ws c = false.
Proof.
  unfold trimEnd. intro H.
  assert (E : drop_while is_ws (rev s) = c :: rev r).
  { rewrite <- (rev_involutive (drop_while is_ws (rev s))), H, rev_app_distr.
    reflexivity. }
  now apply drop_while_head in E.
Qed.

Lemma trimEnd_fix (s : str) (c : char) :
  is_ws c = false -> trimEnd (s ++ [c]) = s ++ [c].
Proof.
  intro H. unfold trimEnd. rewrite rev_app_distr. simpl. rewrite H.
  simpl. now rewrite rev_involutive.
Qed.

Lemma trimEnd_idem (s : str) : trimEnd (trimEnd s) = trimEnd s.
Proof.
  unfold trimEnd. rewrite rev_involutive, drop_while_idem. reflexivity.
Qed.

Lemma trimEnd_head (s : str) (c : char) :
  is_ws c = false -> exists r, trimEnd (c :: s) = c :: r.
Proof.
  intro H. unfold trimEnd. simpl.
  destruct (drop_while is_ws (rev s)) as [|x r] eqn:E.
  - rewrite drop_while_app_all by now apply drop_while_nil_all.
    simpl. rewrite H. simpl. eauto.
  - rewrite drop_while_app_keep by (rewrite E; discriminate).
    rewrite rev_app_distr. simpl. eauto.
Qed.

Lemma trimStart_trimEnd (s : str) :
  trimStart (trimEnd (trimStart s)) = trimEnd (trimStart s).
Proof.
  unfold trimStart. destruct (drop_while is_ws s) as [|c r] eqn:E.
  - reflexivity.
  - pose proof (drop_while_head _ _ _ _ E) as Hc.
    destruct (trimEnd_head r c Hc) as [r' ->]. now apply drop_while_fix.
Qed.

Lemma trim_idem (s : str) : trim (trim s) = trim s.
Proof.
  unfold trim. rewrite (trimStart_trimEnd s). apply trimEnd_idem.
Qed.

(** ** CategoryPath *)

Lemma collapse_slashes_cons (c : char) (s : str) :
  collapse_slashes (c :: s)
  = if (c =? SLASH) && startsWith s [SLASH] then collapse_slashes s
    else c :: collapse_slashes s.
Proof. reflexivity. Qed.

Lemma collapse_all_slash (s : str) :
  forallb Path.is_slash s = true ->
  collapse_slashes s = [] \/ collapse_slashes s = [SLASH].
Proof.
  induction s as [|c s IH]; simpl; [now left|].
  intro H. apply andb_true_iff in H as [Hc Hs].
  unfold Path.is_slash in Hc. apply N.eqb_eq in Hc. subst c.
  destruct s as [|d s']; [now right|].
  pose proof Hs as Hs0.
  simpl in Hs. apply andb_true_iff in Hs as [Hd Hs'].
  unfold Path.is_slash in Hd. apply N.eqb_eq in Hd. subst d.
  replace ((SLASH =? SLASH) && startsWith (SLASH :: s') [SLASH]) with true
    by reflexivity.
  now apply IH.
Qed.

Lemma collapse_keeps (s : str) (c : char) :
  In c s -> (c =? SLASH) = false -> In c (collapse_slashes s).
Proof.
  induction s as [|x s IH]; [simpl; tauto|].
  intros Hin Hc. rewrite collapse_slashes_cons.
  destruct Hin as [-> | Hin].
  - rewrite Hc. simpl. now left.
  - destruct ((x =? SLASH) && startsWith s [SLASH]); [|simpl; right]; auto.
Qed.

Lemma collapse_only_slashes (s : str) :
  forallb Path.is_slash (collapse_slashes s) = true ->
  forallb Path.is_slash s = true.
Proof.
  intro H. apply forallb_forall. intros c Hc.
  destruct (c =? SLASH) eqn:E; [exact E|].
  pose proof (collapse_keeps s c Hc E) as Hin.
  rewrite forallb_forall in H. specialize (H c Hin).
  unfold Path.is_slash in H. congruence.
Qed.

Lemma strip_leading_slash_nil (s : str) :
  strip_leading_slash s = [] -> s = [] \/ s = [SLASH].
Proof.
  destruct s as [|c s]; simpl; [now left|].
  destruct (c =? SLASH) eqn:E; [|discriminate].
  intros ->. apply N.eqb_eq in E. subst. now right.
Qed.

Lemma strip_edge_nil (n : str) :
  strip_edge_slashes n = [] -> forallb Path.is_slash n = true.
Proof.
  unfold strip_edge_slashes. intro H.
  assert (H1 : strip_leading_slash (rev (strip_leading_slash n)) = []).
  { rewrite <- (rev_involutive (strip_leading_slash _)), H. reflexivity. }
  apply strip_leading_slash_nil in H1.
  assert (H2 : strip_leading_slash n = [] \/ strip_leading_slash n = [SLASH]).
  { destruct H1 as [H1|H1];
      rewrite <- (rev_involutive (strip_leading_slash n)), H1; auto. }
  destruct n as [|c n]; [reflexivity|]. simpl in H2.
  destruct (c =? SLASH) eqn:E.
  - simpl. unfold Path.is_slash at 1. rewrite E.
    destruct H2 as [-> | ->]; reflexivity.
  - destruct H2 as [H2|H2]; [discriminate|].
    injection H2 as -> _. discriminate.
Qed.

Lemma backslashes_all_sep (s : str) :
  forallb Path.is_slash (backslashes_to_slashes s) = forallb is_sep s.
Proof.
  induction s as [|c s IH]; simpl; [reflexivity|]. rewrite IH. f_equal.
  unfold Path.is_slash, is_sep.
  destruct (c =? BACKSLASH) eqn:E; [now rewrite orb_true_r|].
  now rewrite orb_false_r.
Qed.

Lemma cleaned_nil_iff (raw : str) :
  CategoryPath.cleaned raw = [] <-> forallb is_sep (trim raw) = true.
Proof.
  unfold CategoryPath.cleaned. rewrite <- backslashes_all_sep. split; intro H.
  - apply collapse_only_slashes, strip_edge_nil, H.
  - destruct (collapse_all_slash _ H) as [-> | ->]; reflexivity.
Qed.

Lemma fromRaw_cases (raw : str) :
  (CategoryPath.cleaned raw = [] /\
   CategoryPath.fromRaw raw = Throw (Error (lit "CategoryPath cannot be empty")))
  \/ (CategoryPath.cleaned raw <> [] /\
      CategoryPath.fromRaw raw = Ok (CategoryPath.make (CategoryPath.cleaned raw))).
Proof.
  unfold CategoryPath.fromRaw.
  destruct (CategoryPath.cleaned raw) eqn:E; simpl; [left | right]; split;
    congruence.
Qed.

(** C8. [CategoryPath.fromRaw] throws its error exactly when the trimmed
    input has nothing but slashes and backslashes in it.  The empty string, a
    blank string and a string of slashes are refused, and [root()] is a path,
    the empty one, which no successful [fromRaw] returns.  But [fromRaw]
    trims before it strips the slashes at the ends, so the value it tests is
    not the normalized one: the raw string [/ /] is empty after the
    normalization of the design document, and [fromRaw] accepts it, with a
    value of one space. *)
Theorem fromRaw_accepts_blank_path :
  (forall raw,
      CategoryPath.fromRaw raw = Throw (Error (lit "CategoryPath cannot be empty"))
      <-> forallb is_sep (trim raw) = true)
  /\ CategoryPath.fromRaw (lit "")
     = Throw (Error (lit "CategoryPath cannot be empty"))
  /\ CategoryPath.fromRaw (lit "   ")
     = Throw (Error (lit "CategoryPath cannot be empty"))
  /\ CategoryPath.fromRaw (lit "///")
     = Throw (Error (lit "CategoryPath cannot be empty"))
  /\ spec_normalized (lit "/ /") = []
  /\ CategoryPath.fromRaw (lit "/ /") = Ok (CategoryPath.make (lit " "))
  /\ CategoryPath.isRoot CategoryPath.root = true
  /\ CategoryPath.toString CategoryPath.root = []
  /\ (forall raw c,
      CategoryPath.fromRaw raw = Ok c ->
      CategoryPath.isRoot c = false /\ c <> CategoryPath.root).
Proof.
  repeat split; try reflexivity.
  - intro H. apply cleaned_nil_iff.
    destruct (fromRaw_cases raw) as [[E _] | [_ E]]; [exact E|].
    rewrite E in H. discriminate.
  - intro H. apply cleaned_nil_iff in H.
    destruct (fromRaw_cases raw) as [[_ E] | [E _]]; congruence.
  - destruct (fromRaw_cases raw) as [[_ E] | [Hne E]]; rewrite E in H;
      [discriminate|].
    injection H as <-. unfold CategoryPath.isRoot. simpl.
    now apply str_eqb_neq.
  - destruct (fromRaw_cases raw) as [[_ E] | [Hne E]]; rewrite E in H;
      [discriminate|].
    injection H as <-. unfold CategoryPath.root. intro E'.
    injection E' as E'. contradiction.
Qed.

(** C2. Normalization is not idempotent: [fromRaw] trims before it strips the
    slashes at the ends, so white space next to such a slash stays.  The raw
    string [/ /] is accepted with the value of one space, and that value is
    refused by [fromRaw]. *)
Theorem fromRaw_not_idempotent :
  CategoryPath.fromRaw (lit "/ /") = Ok (CategoryPath.make (lit " "))
  /\ CategoryPath.fromRaw (CategoryPath.toString (CategoryPath.make (lit " ")))
     = Throw (Error (lit "CategoryPath cannot be empty"))
  /\ CategoryPath.fromRaw (lit "/ a/") = Ok (CategoryPath.make (lit " a"))
  /\ CategoryPath.fromRaw (CategoryPath.toString (CategoryPath.make (lit " a")))
     = Ok (CategoryPath.make (lit "a")).
Proof. repeat split; reflexivity. Qed.

(** ** Objects used as maps *)

Lemma obj_get_put (o : obj) (k v k' : str) :
  obj_get (obj_put o k v) k' = if str_eqb k k' then Some v else obj_get o k'.
Proof.
  induction o as [|[k0 v0] o IH]; simpl.
  - reflexivity.
  - destruct (str_eqb k0 k) eqn:E; simpl.
    + apply str_eqb_eq in E. subst k0. destruct (str_eqb k k'); reflexivity.
    + rewrite IH. destruct (str_eqb k0 k') eqn:E'; [|reflexivity].
      apply str_eqb_eq in E'. subst k0. rewrite str_eqb_sym, E. reflexivity.
Qed.

Lemma obj_get_insert_index (o : obj) (n : N) (k v k' : str) :
  obj_get o k = None ->
  obj_get (obj_insert_index o n k v) k'
  = if str_eqb k k' then Some v else obj_get o k'.
Proof.
  induction o as [|[k0 v0] o IH]; intro Hk; [reflexivity|].
  cbn [obj_insert_index]. cbn [obj_get] in Hk.
  destruct (str_eqb k0 k) eqn:E0; [discriminate|].
  destruct (array_index k0) as [n0|]; [destruct (n0 <=? n)|]; try reflexivity.
  cbn [obj_get]. rewrite IH by exact Hk.
  destruct (str_eqb k0 k') eqn:E1; [|reflexivity].
  destruct (str_eqb k k') eqn:E2; [|reflexivity].
  apply str_eqb_eq in E1, E2. subst. now rewrite str_eqb_refl in E0.
Qed.

Lemma obj_get_set (o : obj) (k v k' : str) :
  k <> PROTO ->
  obj_get (obj_set o k v) k' = if str_eqb k k' then Some v else obj_get o k'.
Proof.
  intro Hk. unfold obj_set. apply str_eqb_neq in Hk. rewrite Hk.
  destruct (array_index k) as [n|]; [|apply obj_get_put].
  destruct (obj_get o k) eqn:E; [apply obj_get_put|].
  now apply obj_get_insert_index.
Qed.

Lemma obj_get_set_proto (o : obj) (k v : str) :
  obj_get (obj_set o k v) PROTO = obj_get o PROTO.
Proof.
  destruct (str_eqb k PROTO) eqn:E.
  - unfold obj_set. now rewrite E.
  - rewrite obj_get_set by now apply str_eqb_neq. now rewrite E.
Qed.

Lemma obj_get_none (o : obj) (k : str) :
  obj_get o k = None <-> ~ In k (map fst o).
Proof.
  induction o as [|[k0 v0] o IH]; simpl; [tauto|].
  destruct (str_eqb k0 k) eqn:E.
  - apply str_eqb_eq in E. subst. split; [discriminate | tauto].
  - apply str_eqb_neq in E. tauto.
Qed.

Lemma obj_put_Forall (P : str * str -> Prop) (o : obj) (k v : str) :
  Forall P o -> P (k, v) -> Forall P (obj_put o k v).
Proof.
  intros Ho Hkv. induction o as [|[k0 v0] o IH]; simpl.
  - constructor; [exact Hkv | constructor].
  - inversion Ho as [|? ? H0 Ho']; subst.
    destruct (str_eqb k0 k) eqn:E.
    + apply str_eqb_eq in E. subst k0. constructor; assumption.
    + constructor; [assumption | now apply IH].
Qed.

Lemma obj_insert_index_Forall (P : str * str -> Prop) (o : obj) (n : N)
    (k v : str) :
  Forall P o -> P (k, v) -> Forall P (obj_insert_index o n k v).
Proof.
  intros Ho Hkv. induction o as [|[k0 v0] o IH]; cbn [obj_insert_index].
  - constructor; [exact Hkv | constructor].
  - inversion Ho as [|? ? H0 Ho']; subst.
    destruct (array_index k0) as [n0|]; [destruct (n0 <=? n)|];
      constructor; auto.
Qed.

Lemma obj_set_Forall_own (P : str * str -> Prop) (o : obj) (k v : str) :
  Forall P o -> (k <> PROTO -> P (k, v)) -> Forall P (obj_set o k v).
Proof.
  intros Ho Hkv. unfold obj_set.
  destruct (str_eqb k PROTO) eqn:E; [exact Ho|].
  apply str_eqb_neq in E. specialize (Hkv E).
  destruct (array_index k) as [n|]; [|now apply obj_put_Forall].
  destruct (obj_get o k); [now apply obj_put_Forall|].
  now apply obj_insert_index_Forall.
Qed.

Lemma obj_set_Forall (P : str * str -> Prop) (o : obj) (k v : str) :
  Forall P o -> P (k, v) -> Forall P (obj_set o k v).
Proof. intros Ho Hkv. now apply obj_set_Forall_own. Qed.

Lemma obj_put_keys (o : obj) (k v x : str) :
  In x (map fst (obj_put o k v)) -> x = k \/ In x (map fst o).
Proof.
  induction o as [|[k' v'] o IH]; simpl.
  - intros [H | []]. now left.
  - destruct (str_eqb k' k); simpl; intros [H | H]; auto.
    destruct (IH H); auto.
Qed.

Lemma obj_put_NoDup (o : obj) (k v : str) :
  NoDup (map fst o) -> NoDup (map fst (obj_put o k v)).
Proof.
  induction o as [|[k' v'] o IH]; simpl; intro H.
  - repeat constructor. simpl. tauto.
  - inversion H as [|? ? Hk' Ho]; subst.
    destruct (str_eqb k' k) eqn:E; simpl; [exact H|].
    constructor; [|auto].
    intro Hin. apply obj_put_keys in Hin as [-> | Hin]; [|contradiction].
    now rewrite str_eqb_refl in E.
Qed.

Lemma obj_insert_index_keys (o : obj) (n : N) (k v x : str) :
  In x (map fst (obj_insert_index o n k v)) -> x = k \/ In x (map fst o).
Proof.
  induction o as [|[k' v'] o IH]; cbn [obj_insert_index].
  - simpl. intros [H | []]. now left.
  - destruct (array_index k') as [n'|]; [destruct (n' <=? n)|];
      simpl; intros [H | H]; auto.
    destruct (IH H); auto.
Qed.

Lemma obj_insert_index_NoDup (o : obj) (n : N) (k v : str) :
  ~ In k (map fst o) ->
  NoDup (map fst o) -> NoDup (map fst (obj_insert_index o n k v)).
Proof.
  induction o as [|[k' v'] o IH]; cbn [obj_insert_index]; intros Hk H.
  - repeat constructor. simpl. tauto.
  - assert (Hfront : NoDup (map fst ((k, v) :: (k', v') :: o)))
      by (simpl; constructor; assumption).
    destruct (array_index k') as [n'|]; [destruct (n' <=? n)|];
      try exact Hfront.
    inversion H as [|? ? Hk' Ho]; subst. simpl. constructor.
    + intro Hin. apply obj_insert_index_keys in Hin as [E | Hin];
        [|contradiction].
      apply Hk. left. exact E.
    + apply IH; [|exact Ho]. intro Hin. apply Hk. now right.
Qed.

Lemma obj_set_keys (o : obj) (k v x : str) :
  In x (map fst (obj_set o k v)) -> x = k \/ In x (map fst o).
Proof.
  unfold obj_set. destruct (str_eqb k PROTO); [now right|].
  destruct (array_index k) as [n|]; [|apply obj_put_keys].
  destruct (obj_get o k); [apply obj_put_keys | apply obj_insert_index_keys].
Qed.

Lemma obj_set_NoDup (o : obj) (k v : str) :
  NoDup (map fst o) -> NoDup (map fst (obj_set o k v)).
Proof.
  intro H. unfold obj_set. destruct (str_eqb k PROTO); [exact H|].
  destruct (array_index k) as [n|]; [|now apply obj_put_NoDup].
  destruct (obj_get o k) eqn:E; [now apply obj_put_NoDup|].
  apply obj_insert_index_NoDup; [now apply obj_get_none | exact H].
Qed.

Lemma obj_set_not_nil (o : obj) (k v : str) : k <> PROTO -> obj_set o k v <> [].
Proof.
  intros Hk E. pose proof (obj_get_set o k v k Hk) as H.
  rewrite E, str_eqb_refl in H. discriminate H.
Qed.

(** The order of the entries. *)
Lemma ordered_from_le (lo lo' : N) (o : obj) :
  lo' <= lo -> ordered_from lo o = true -> ordered_from lo' o = true.
Proof.
  intros Hle. destruct o as [|[k v] o]; [reflexivity|]. cbn [ordered_from].
  destruct (array_index k) as [n|]; [|auto].
  intro H. apply andb_true_iff in H as [H1 H2]. apply N.leb_le in H1.
  apply andb_true_iff. split; [apply N.leb_le; lia | exact H2].
Qed.

Lemma not_index_put (o : obj) (k v : str) :
  (obj_get o k = None -> array_index k = None) ->
  forallb not_index o = true -> forallb not_index (obj_put o k v) = true.
Proof.
  induction o as [|[k0 v0] o IH]; intros Hk H.
  - simpl. unfold not_index. cbn [fst]. now rewrite (Hk eq_refl).
  - cbn [obj_put]. cbn [forallb] in H. apply andb_true_iff in H as [H0 Ho].
    cbn [obj_get] in Hk. destruct (str_eqb k0 k) eqn:E.
    + cbn [forallb]. apply andb_true_iff. now split.
    + cbn [forallb]. apply andb_true_iff. split; [exact H0|]. now apply IH.
Qed.

Lemma ordered_put (lo : N) (o : obj) (k v : str) :
  (obj_get o k = None -> array_index k = None) ->
  ordered_from lo o = true -> ordered_from lo (obj_put o k v) = true.
Proof.
  revert lo. induction o as [|[k0 v0] o IH]; intros lo Hk H.
  - cbn [obj_put ordered_from]. now rewrite (Hk eq_refl).
  - cbn [obj_put]. cbn [obj_get] in Hk. cbn [ordered_from] in H.
    destruct (str_eqb k0 k) eqn:E; [exact H|].
    cbn [ordered_from]. destruct (array_index k0) as [n0|].
    + apply andb_true_iff in H as [H1 H2]. apply andb_true_iff.
      split; [exact H1 | now apply IH].
    + now apply not_index_put.
Qed.

Lemma ordered_insert_index (lo : N) (o : obj) (n : N) (k v : str) :
  array_index k = Some n -> lo <= n ->
  ordered_from lo o = true ->
  ordered_from lo (obj_insert_index o n k v) = true.
Proof.
  intro Hk. revert lo. induction o as [|[k0 v0] o IH]; intros lo Hlo H.
  - cbn [obj_insert_index ordered_from]. rewrite Hk.
    apply andb_true_iff. split; [now apply N.leb_le | reflexivity].
  - cbn [obj_insert_index]. cbn [ordered_from] in H.
    destruct (array_index k0) as [n0|] eqn:E0.
    + apply andb_true_iff in H as [H1 H2].
      destruct (n0 <=? n) eqn:Ele.
      * cbn [ordered_from]. rewrite E0. apply andb_true_iff.
        split; [exact H1|]. apply IH; [now apply N.leb_le | exact H2].
      * cbn [ordered_from]. rewrite Hk, E0. apply N.leb_gt in Ele.
        apply andb_true_iff. split; [now apply N.leb_le|].
        apply andb_true_iff. split; [apply N.leb_le; lia | exact H2].
    + cbn [ordered_from]. rewrite Hk, E0.
      apply andb_true_iff. split; [now apply N.leb_le | exact H].
Qed.

Lemma key_order_set (o : obj) (k v : str) :
  key_order o = true -> key_order (obj_set o k v) = true.
Proof.
  unfold key_order, obj_set. intro H. destruct (str_eqb k PROTO); [exact H|].
  destruct (array_index k) as [n|] eqn:E.
  - destruct (obj_get o k) eqn:Eg.
    + apply ordered_put; [|exact H]. rewrite Eg. discriminate.
    + apply ordered_insert_index; [exact E | apply N.le_0_l | exact H].
  - apply ordered_put; [|exact H]. now intros _.
Qed.

(** A key that is new, assigned to the entries that come before it in the
    order of an object, goes last. *)
Lemma obj_put_fresh (acc : obj) (k v : str) :
  ~ In k (map fst acc) -> obj_put acc k v = acc ++ [(k, v)].
Proof.
  induction acc as [|[k0 v0] acc IH]; intro H; simpl.
  - reflexivity.
  - destruct (str_eqb k0 k) eqn:E.
    + apply str_eqb_eq in E. subst. exfalso. apply H. now left.
    + rewrite IH; [reflexivity|]. intro Hin. apply H. now right.
Qed.

Lemma ordered_lower (lo : N) (acc rest : obj) (k v : str) (n : N) :
  array_index k = Some n ->
  ordered_from lo (acc ++ (k, v) :: rest) = true -> lo <= n.
Proof.
  intro Hk. revert lo. induction acc as [|[k0 v0] acc IH]; intros lo H.
  - cbn [app ordered_from] in H. rewrite Hk in H.
    apply andb_true_iff in H as [H _]. now apply N.leb_le.
  - cbn [app ordered_from] in H. destruct (array_index k0) as [n0|].
    + apply andb_true_iff in H as [H1 H2]. apply N.leb_le in H1.
      specialize (IH _ H2). lia.
    + rewrite forallb_app in H. apply andb_true_iff in H as [_ H].
      cbn [forallb] in H. unfold not_index at 1 in H. cbn [fst] in H.
      rewrite Hk in H. discriminate H.
Qed.

Lemma obj_insert_index_last (lo : N) (acc rest : obj) (k v : str) (n : N) :
  array_index k = Some n ->
  ordered_from lo (acc ++ (k, v) :: rest) = true ->
  obj_insert_index acc n k v = acc ++ [(k, v)].
Proof.
  intro Hk. revert lo. induction acc as [|[k0 v0] acc IH]; intros lo H.
  - reflexivity.
  - cbn [app ordered_from] in H. cbn [obj_insert_index app].
    destruct (array_index k0) as [n0|].
    + apply andb_true_iff in H as [_ H2].
      pose proof (ordered_lower _ _ _ _ _ _ Hk H2) as Hle.
      apply N.leb_le in Hle. rewrite Hle. now rewrite (IH _ H2).
    + rewrite forallb_app in H. apply andb_true_iff in H as [_ H].
      cbn [forallb] in H. unfold not_index at 1 in H. cbn [fst] in H.
      rewrite Hk in H. discriminate H.
Qed.

Lemma obj_set_fresh (acc rest : obj) (k v : str) :
  k <> PROTO -> ~ In k (map fst acc) ->
  key_order (acc ++ (k, v) :: rest) = true ->
  obj_set acc k v = acc ++ [(k, v)].
Proof.
  intros Hk Hnew Hord. unfold obj_set. apply str_eqb_neq in Hk. rewrite Hk.
  destruct (array_index k) as [n|] eqn:E; [|now apply obj_put_fresh].
  apply obj_get_none in Hnew. rewrite Hnew.
  exact (obj_insert_index_last _ _ _ _ _ _ E Hord).
Qed.

Lemma fold_set_fresh (H acc : obj) :
  NoDup (map fst (acc ++ H)) ->
  Forall (fun kv => fst kv <> PROTO) H ->
  key_order (acc ++ H) = true ->
  fold_left (fun fm kv => obj_set fm (fst kv) (snd kv)) H acc = acc ++ H.
Proof.
  revert acc. induction H as [|[k v] H IH]; intros acc Hnd Hp Hord; simpl.
  - now rewrite app_nil_r.
  - inversion Hp as [|? ? Hk Hp']; subst. cbn [fst] in Hk.
    rewrite (obj_set_fresh acc H k v Hk).
    + rewrite IH.
      * now rewrite <- app_assoc.
      * rewrite <- app_assoc. exact Hnd.
      * exact Hp'.
      * rewrite <- app_assoc. exact Hord.
    + rewrite map_app in Hnd. simpl in Hnd.
      apply NoDup_remove_2 in Hnd. intro Hin. apply Hnd.
      apply in_or_app. now left.
    + exact Hord.
Qed.

(** ** Note files: parsing *)

Lemma split_lines_cons (c : char) (rest : str) :
  split_lines (c :: rest)
  = if c =? LF then [] :: split_lines rest
    else if (c =? CR) && startsWith rest [LF] then split_lines rest
    else cons_to_first c (split_lines rest).
Proof. reflexivity. Qed.

Lemma split_lines_not_nil (s : str) : split_lines s <> [].
Proof.
  induction s as [|c s IH]; [discriminate|]. rewrite split_lines_cons.
  destruct (c =? LF); [discriminate|].
  destruct ((c =? CR) && startsWith s [LF]); [exact IH|].
  destruct (split_lines s); discriminate.
Qed.

Lemma chomp_cr_cons (c : char) (a : str) :
  a <> [] -> chomp_cr (c :: a) = c :: chomp_cr a.
Proof.
  intro Ha. unfold chomp_cr. simpl.
  destruct (rev a) as [|x r] eqn:E.
  - apply (f_equal (@rev char)) in E. rewrite rev_involutive in E.
    contradiction.
  - simpl. destruct (x =? CR); [|reflexivity].
    rewrite rev_app_distr. reflexivity.
Qed.

(** The first line of a text that has a line feed: what stands before the
    feed, short of a carriage return at its end. *)
Lemma split_lines_first (a rest : str) :
  no_lf a = true ->
  split_lines (a ++ LF :: rest) = chomp_cr a :: split_lines rest.
Proof.
  induction a as [|c a IH]; intro H.
  - reflexivity.
  - simpl in H. apply andb_true_iff in H as [Hc Ha].
    apply negb_true_iff in Hc.
    change ((c :: a) ++ LF :: rest) with (c :: (a ++ LF :: rest)).
    rewrite split_lines_cons, Hc.
    destruct a as [|d a'].
    + simpl app. simpl startsWith. rewrite andb_true_r.
      unfold chomp_cr. simpl. destruct (c =? CR); reflexivity.
    + assert (Hd : startsWith ((d :: a') ++ LF :: rest) [LF] = false).
      { simpl in Ha. apply andb_true_iff in Ha as [Hd _].
        apply negb_true_iff in Hd. simpl. now rewrite Hd. }
      rewrite Hd, andb_false_r, IH by exact Ha.
      rewrite (chomp_cr_cons c (d :: a')) by discriminate. reflexivity.
Qed.

Lemma split_lines_single (a : str) : no_lf a = true -> split_lines a = [a].
Proof.
  induction a as [|c a IH]; intro H; [reflexivity|].
  simpl in H. apply andb_true_iff in H as [Hc Ha].
  apply negb_true_iff in Hc. rewrite split_lines_cons, Hc.
  assert (Hs : startsWith a [LF] = false).
  { destruct a as [|d a']; [reflexivity|]. simpl in Ha.
    apply andb_true_iff in Ha as [Hd _]. apply negb_true_iff in Hd.
    simpl. now rewrite Hd. }
  rewrite Hs, andb_false_r, IH by exact Ha. reflexivity.
Qed.

Lemma trim_chomp_cr (a : str) : trim (chomp_cr a) = trim a.
Proof.
  unfold chomp_cr. destruct (rev a) as [|c r] eqn:E.
  - apply (f_equal (@rev char)) in E. rewrite rev_involutive in E.
    now subst.
  - destruct (c =? CR) eqn:Hc; [|reflexivity].
    apply N.eqb_eq in Hc. subst c.
    apply (f_equal (@rev char)) in E. rewrite rev_involutive in E.
    simpl in E. subst a. symmetry. now apply trim_app_ws.
Qed.

Lemma blank_no_lf_ws (s : str) : blank_no_lf s = true -> forallb is_ws s = true.
Proof.
  unfold blank_no_lf. induction s as [|c s IH]; simpl; [reflexivity|].
  intro H. apply andb_true_iff in H as [Hc Hs].
  apply andb_true_iff in Hc as [Hc _]. rewrite Hc. auto.
Qed.

Lemma blank_no_lf_no_lf (s : str) : blank_no_lf s = true -> no_lf s = true.
Proof.
  unfold blank_no_lf, no_lf. induction s as [|c s IH]; simpl; [reflexivity|].
  intro H. apply andb_true_iff in H as [Hc Hs].
  apply andb_true_iff in Hc as [_ Hc]. rewrite Hc. auto.
Qed.

Lemma no_lf_app (a b : str) : no_lf (a ++ b) = no_lf a && no_lf b.
Proof. unfold no_lf. apply forallb_app. Qed.

Lemma trim_padded (pre s post : str) :
  forallb is_ws pre = true -> forallb is_ws post = true ->
  trim (pre ++ s ++ post) = trim s.
Proof.
  intros Hpre Hpost. rewrite trim_app_ws_l by exact Hpre.
  now apply trim_app_ws_r.
Qed.

(** The lines of a text that opens with a line trimming to the delimiter. *)
Lemma split_lines_padded (pre post tail : str) :
  blank_no_lf pre = true -> blank_no_lf post = true ->
  tail = [] \/ hd_error tail = Some LF ->
  exists l0,
    split_lines (pre ++ DELIM ++ post ++ tail) = l0 :: tl (split_lines (DELIM ++ tail))
    /\ trim l0 = DELIM.
Proof.
  intros Hpre Hpost Htail.
  assert (Hline : no_lf (pre ++ DELIM ++ post) = true).
  { rewrite !no_lf_app, (blank_no_lf_no_lf pre), (blank_no_lf_no_lf post)
      by assumption. reflexivity. }
  assert (Htrim : trim (pre ++ DELIM ++ post) = DELIM).
  { rewrite trim_padded by now apply blank_no_lf_ws. reflexivity. }
  destruct Htail as [-> | Htail].
  - rewrite !app_nil_r. exists (pre ++ DELIM ++ post).
    rewrite split_lines_single by exact Hline. split; [reflexivity|exact Htrim].
  - destruct tail as [|c t]; [discriminate|]. injection Htail as ->.
    exists (chomp_cr (pre ++ DELIM ++ post)).
    replace (pre ++ DELIM ++ post ++ LF :: t)
      with ((pre ++ DELIM ++ post) ++ LF :: t)
      by now rewrite <- !app_assoc.
    rewrite !split_lines_first by (exact Hline || reflexivity).
    split; [reflexivity|]. now rewrite trim_chomp_cr.
Qed.

Lemma parseNoteFile_header (raw : str) :
  trim (first_line raw) = DELIM ->
  parseNoteFile raw
  = let '(fm, rest) := parse_header (tl (split_lines raw)) [] in
    {| frontmatter := fm; body := join [LF] rest |}.
Proof.
  intro H. unfold parseNoteFile. fold (first_line raw). rewrite H.
  rewrite str_eqb_refl. reflexivity.
Qed.

Lemma trim_nil : trim [] = [].
Proof. reflexivity. Qed.

Lemma parse_header_closing (line : str) (rest : list str) (fm : obj) :
  trim line = DELIM -> parse_header (line :: rest) fm = (fm, rest).
Proof.
  intro H. simpl. destruct line as [|c line]; [discriminate|].
  simpl truthy. simpl negb. cbv iota. rewrite H. reflexivity.
Qed.

Lemma parse_header_trimmed (lines : list str) (fm : obj) :
  Forall trimmed_entry fm -> Forall trimmed_entry (fst (parse_header lines fm)).
Proof.
  revert fm. induction lines as [|line rest IH]; intros fm Hfm; simpl.
  - exact Hfm.
  - destruct (negb (truthy line)); [now apply IH|].
    destruct (str_eqb (trim line) DELIM); [exact Hfm|].
    destruct (indexOf COLON line) as [idx|]; [|now apply IH].
    apply IH. destruct (truthy _); [|exact Hfm].
    apply obj_set_Forall; [exact Hfm|].
    split; apply trim_idem.
Qed.

Lemma parseNoteFile_trimmed (raw : str) :
  Forall trimmed_entry (frontmatter (parseNoteFile raw)).
Proof.
  unfold parseNoteFile. destruct (negb _); [constructor|].
  pose proof (parse_header_trimmed (tl (split_lines raw)) [] (Forall_nil _)) as H.
  destruct (parse_header _ _) as [fm rest]. exact H.
Qed.

(** C4, as the code has it.  A line is the delimiter when it is [---] once
    trimmed.  A note whose first line is [---] with white space around it is
    parsed exactly like the note with the bare [---] line: the header block
    is read.  The same holds for the line that closes the block.  Keys and
    values of the header are stored trimmed. *)
Theorem padded_delimiter_opens_header (pre post tail : str) :
  blank_no_lf pre = true -> blank_no_lf post = true ->
  tail = [] \/ hd_error tail = Some LF ->
  parseNoteFile (pre ++ DELIM ++ post ++ tail) = parseNoteFile (DELIM ++ tail)
  /\ parseNoteFile (DELIM ++ tail)
     = (let '(fm, rest) := parse_header (tl (split_lines (DELIM ++ tail))) [] in
        {| frontmatter := fm; body := join [LF] rest |})
  /\ (forall line rest fm,
        trim line = DELIM -> parse_header (line :: rest) fm = (fm, rest))
  /\ (forall k v,
        In (k, v) (frontmatter (parseNoteFile (pre ++ DELIM ++ post ++ tail))) ->
        trim k = k /\ trim v = v).
Proof.
  intros Hpre Hpost Htail.
  destruct (split_lines_padded pre post tail Hpre Hpost Htail) as (l0 & Hl & Ht).
  destruct (split_lines_padded [] [] tail eq_refl eq_refl Htail) as (l1 & Hl1 & Ht1).
  change ([] ++ DELIM ++ [] ++ tail) with (DELIM ++ tail) in Hl1.
  assert (Hexact : parseNoteFile (DELIM ++ tail)
     = (let '(fm, rest) := parse_header (tl (split_lines (DELIM ++ tail))) [] in
        {| frontmatter := fm; body := join [LF] rest |})).
  { apply parseNoteFile_header. unfold first_line.
    rewrite Hl1. exact Ht1. }
  repeat split.
  - rewrite Hexact. rewrite parseNoteFile_header
      by (unfold first_line; rewrite Hl; exact Ht).
    rewrite Hl. reflexivity.
  - exact Hexact.
  - intros. now apply parse_header_closing.
  - pose proof (parseNoteFile_trimmed (pre ++ DELIM ++ post ++ tail)) as HF.
    rewrite Forall_forall in HF. apply (HF (k, v) H).
  - pose proof (parseNoteFile_trimmed (pre ++ DELIM ++ post ++ tail)) as HF.
    rewrite Forall_forall in HF. apply (HF (k, v) H).
Qed.

Lemma padded_delimiter_opens_header_witness :
  parseNoteFile (lit " " ++ DELIM ++ lit " \t" ++ lit "\n  key :  v  \n --- \nbody")
  = {| frontmatter := [(lit "key", lit "v")]; body := lit "body" |}.
Proof.
  destruct (padded_delimiter_opens_header (lit " ") (lit " \t")
              (lit "\n  key :  v  \n --- \nbody") eq_refl eq_refl
              (or_intror eq_refl)) as [H _].
  rewrite H. reflexivity.
Defined.

(** C4, as the design document has it, fails: the first line of this note is
    [---] with a space on either side, and the note is parsed with a header
    block; its body is not the whole text. *)
Lemma padded_delimiter_counterexample :
  first_line padded_note = lit " --- "
  /\ first_line padded_note <> DELIM
  /\ parseNoteFile padded_note
     = {| frontmatter := [(lit "key", lit "v")]; body := lit "body" |}
  /\ parseNoteFile padded_note <> {| frontmatter := []; body := padded_note |}.
Proof.
  repeat split; try reflexivity; intro E; vm_compute in E; discriminate E.
Qed.

(** ** Note files: a header block that is never closed *)

Lemma header_entry_nil : header_entry [] = None.
Proof. reflexivity. Qed.

Lemma parse_header_open (lines : list str) (fm : obj) :
  (forall l, In l lines -> trim l <> DELIM) ->
  parse_header lines fm
  = (fold_left (fun fm kv => obj_set fm (fst kv) (snd kv))
       (flat_map (fun l => match header_entry l with
                           | Some kv => [kv]
                           | None => []
                           end) lines)
       fm,
     []).
Proof.
  revert fm. induction lines as [|line rest IH]; intros fm H.
  - reflexivity.
  - assert (Hrest : forall l, In l rest -> trim l <> DELIM)
      by (intros l Hl; apply H; now right).
    assert (Hline : str_eqb (trim line) DELIM = false)
      by (apply str_eqb_neq, H; now left).
    cbn [parse_header flat_map]. rewrite Hline.
    destruct line as [|c line'].
    + simpl. now apply IH.
    + cbn [truthy negb]. unfold header_entry, slice, slice_from.
      destruct (indexOf COLON (c :: line')) as [idx|]; [|now apply IH].
      rewrite Nat.sub_0_r, Nat.add_1_r. cbn [skipn].
      destruct (truthy (trim (firstn idx (c :: line')))); now rewrite IH.
Qed.

Lemma fold_set_keeps (E : list (str * str)) (acc : obj) (k : str) :
  obj_get acc k <> None ->
  obj_get (fold_left (fun fm kv => obj_set fm (fst kv) (snd kv)) E acc) k <> None.
Proof.
  revert acc. induction E as [|[k0 v0] E IH]; intros acc H; simpl; [exact H|].
  apply IH. destruct (str_eqb k0 PROTO) eqn:Ep.
  - unfold obj_set. now rewrite Ep.
  - rewrite obj_get_set by now apply str_eqb_neq.
    destruct (str_eqb k0 k); [discriminate|exact H].
Qed.

Lemma fold_set_has (E : list (str * str)) (acc : obj) (k v : str) :
  k <> PROTO -> In (k, v) E ->
  obj_get (fold_left (fun fm kv => obj_set fm (fst kv) (snd kv)) E acc) k <> None.
Proof.
  intro Hk. revert acc.
  induction E as [|[k0 v0] E IH]; intros acc H; simpl in *; [tauto|].
  destruct H as [H | H].
  - injection H as -> ->. apply fold_set_keeps.
    rewrite obj_get_set, str_eqb_refl by exact Hk. discriminate.
  - now apply IH.
Qed.

Lemma fold_set_no_proto (E : list (str * str)) (acc : obj) :
  obj_get acc PROTO = None ->
  obj_get (fold_left (fun fm kv => obj_set fm (fst kv) (snd kv)) E acc) PROTO
  = None.
Proof.
  revert acc. induction E as [|[k0 v0] E IH]; intros acc H; simpl; [exact H|].
  apply IH. now rewrite obj_get_set_proto.
Qed.

Lemma fold_set_from (E : list (str * str)) (acc : obj) (k v : str) :
  obj_get (fold_left (fun fm kv => obj_set fm (fst kv) (snd kv)) E acc) k = Some v ->
  obj_get acc k = Some v \/ In (k, v) E.
Proof.
  revert acc. induction E as [|[k0 v0] E IH]; intros acc H; simpl in *; [now left|].
  apply IH in H as [H | H]; [|now right; right].
  destruct (str_eqb k0 PROTO) eqn:Ep.
  { unfold obj_set in H. rewrite Ep in H. now left. }
  rewrite obj_get_set in H by now apply str_eqb_neq.
  destruct (str_eqb k0 k) eqn:E0; [|now left].
  apply str_eqb_eq in E0. subst k0. injection H as ->. right. now left.
Qed.

Lemma in_entries (lines : list str) (k v : str) :
  In (k, v) (flat_map (fun l => match header_entry l with
                                | Some kv => [kv]
                                | None => []
                                end) lines)
  <-> exists l, In l lines /\ header_entry l = Some (k, v).
Proof.
  rewrite in_flat_map. split; intros (l & Hl & H); exists l; split; try exact Hl.
  - destruct (header_entry l) as [kv|]; simpl in H; [|tauto].
    destruct H as [-> | []]. reflexivity.
  - rewrite H. now left.
Qed.

(** The entries of a header come in the order of the object: keys that are
    array indices first, by their number, then the others as they were
    made; a key set again keeps its place, and [__proto__] is no entry. *)
Lemma header_of_object_order :
  header_of [lit "b: 1"; lit "10: x"; lit "__proto__: y"; lit "2: z";
             lit "b: 3"; lit "007: w"]
  = [(lit "2", lit "z"); (lit "10", lit "x"); (lit "b", lit "3");
     (lit "007", lit "w")].
Proof. reflexivity. Qed.

(** C10. A note that opens with the delimiter line and never closes the
    block is parsed without failure, and nothing is left for the body.  The
    header is the object the lines after the first are assigned to in turn:
    a line with a colon and a key that is not empty once trimmed is a header
    entry unless the key is [__proto__], every entry of the header comes
    from such a line, and a line for the key [__proto__] leaves no entry,
    although it has a colon and a key. *)
Theorem unterminated_header (raw : str) :
  trim (first_line raw) = DELIM ->
  (forall l, In l (tl (split_lines raw)) -> trim l <> DELIM) ->
  parseNoteFile raw
  = {| frontmatter := header_of (tl (split_lines raw)); body := [] |}
  /\ (forall l k v,
        In l (tl (split_lines raw)) -> header_entry l = Some (k, v) ->
        k <> PROTO ->
        obj_get (frontmatter (parseNoteFile raw)) k <> None)
  /\ (forall k v,
        obj_get (frontmatter (parseNoteFile raw)) k = Some v ->
        exists l, In l (tl (split_lines raw)) /\ header_entry l = Some (k, v))
  /\ obj_get (frontmatter (parseNoteFile raw)) PROTO = None.
Proof.
  intros Hfirst Hopen.
  assert (E : parseNoteFile raw
              = {| frontmatter := header_of (tl (split_lines raw)); body := [] |}).
  { rewrite parseNoteFile_header by exact Hfirst.
    rewrite parse_header_open by exact Hopen. reflexivity. }
  rewrite E. cbn [frontmatter]. unfold header_of. repeat split.
  - intros l k v Hl Hkv Hk. apply fold_set_has with (v := v); [exact Hk|].
    apply in_entries. eauto.
  - intros k v H. apply fold_set_from in H as [H | H]; [discriminate|].
    now apply in_entries.
  - now apply fold_set_no_proto.
Qed.

Lemma unterminated_header_witness :
  In (lit "__proto__: x") (tl (split_lines proto_note))
  /\ header_entry (lit "__proto__: x") = Some (PROTO, lit "x")
  /\ parseNoteFile proto_note
     = {| frontmatter := [(lit "a", lit "1")]; body := [] |}
  /\ obj_get (frontmatter (parseNoteFile proto_note)) PROTO = None.
Proof.
  assert (Hfirst : trim (first_line proto_note) = DELIM) by reflexivity.
  assert (Hopen : forall l, In l (tl (split_lines proto_note)) -> trim l <> DELIM).
  { intros l Hl. vm_compute in Hl.
    repeat (destruct Hl as [<- | Hl];
            [intro E; vm_compute in E; discriminate E|]).
    destruct Hl. }
  destruct (unterminated_header _ Hfirst Hopen) as (H & _ & _ & Hp).
  split; [vm_compute; tauto|]. split; [reflexivity|].
  split; [rewrite H; reflexivity | exact Hp].
Defined.

(** ** Note files: writing and reading back *)

Lemma join_cons (sep p : str) (rest : list str) :
  rest <> [] -> join sep (p :: rest) = p ++ sep ++ join sep rest.
Proof. destruct rest; [congruence | reflexivity]. Qed.

Lemma split_join_lines (ls : list str) (text : str) :
  Forall (fun l => no_lf l = true /\ chomp_cr l = l) ls ->
  split_lines (join [LF] (ls ++ [text])) = ls ++ split_lines text.
Proof.
  induction ls as [|l ls IH]; intro H.
  - reflexivity.
  - inversion H as [|? ? [Hl Hc] Hls]; subst.
    change ((l :: ls) ++ [text]) with (l :: (ls ++ [text])).
    rewrite join_cons by (destruct ls; discriminate).
    change (l ++ [LF] ++ join [LF] (ls ++ [text]))
      with (l ++ LF :: join [LF] (ls ++ [text])).
    rewrite split_lines_first by exact Hl. rewrite Hc, IH by exact Hls.
    reflexivity.
Qed.

Lemma in_drop_while (p : char -> bool) (s : str) (c : char) :
  In c s -> p c = false -> In c (drop_while p s).
Proof.
  induction s as [|x s IH]; simpl; [tauto|].
  intros [-> | Hin] Hc.
  - rewrite Hc. now left.
  - destruct (p x); [auto | now right].
Qed.

Lemma in_trim (s : str) (c : char) :
  In c s -> is_ws c = false -> In c (trim s).
Proof.
  intros Hin Hc. unfold trim, trimEnd, trimStart.
  rewrite <- in_rev. apply in_drop_while; [|exact Hc].
  rewrite <- in_rev. now apply in_drop_while.
Qed.

Lemma indexOf_app (c : char) (k rest : str) :
  ~ In c k -> indexOf c (k ++ c :: rest) = Some (length k).
Proof.
  induction k as [|x k IH]; intro H; simpl.
  - now rewrite N.eqb_refl.
  - destruct (x =? c) eqn:E.
    + apply N.eqb_eq in E. subst. exfalso. apply H. now left.
    + rewrite IH; [reflexivity|]. intro Hin. apply H. now right.
Qed.

Lemma skipn_app_exact {A : Type} (a b : list A) : skipn (length a) (a ++ b) = b.
Proof. induction a; simpl; auto. Qed.

Lemma firstn_app_exact {A : Type} (a b : list A) : firstn (length a) (a ++ b) = a.
Proof. induction a; simpl; [reflexivity | now f_equal]. Qed.

Lemma trimmed_last (v : str) : trim v = v -> chomp_cr v = v.
Proof.
  intro H. unfold chomp_cr. destruct (rev v) as [|c r] eqn:E.
  - apply (f_equal (@rev char)) in E. rewrite rev_involutive in E.
    now subst.
  - destruct (c =? CR) eqn:Hc; [|reflexivity].
    apply N.eqb_eq in Hc. subst c.
    apply (f_equal (@rev char)) in E. rewrite rev_involutive in E.
    simpl in E. unfold trim in H. rewrite E in H.
    apply trimEnd_last in H. discriminate H.
Qed.

Lemma chomp_cr_app (a b : str) : b <> [] -> chomp_cr b = b -> chomp_cr (a ++ b) = a ++ b.
Proof.
  intros Hb H. unfold chomp_cr in *. rewrite rev_app_distr.
  destruct (rev b) as [|c r] eqn:E.
  - apply (f_equal (@rev char)) in E. rewrite rev_involutive in E.
    contradiction.
  - simpl. destruct (c =? CR) eqn:Hc; [|reflexivity].
    exfalso. apply (f_equal (@length char)) in H.
    apply (f_equal (@length char)) in E.
    rewrite length_rev in *. simpl in E. lia.
Qed.

Lemma entry_ok_not_proto (kv : str * str) : entry_ok kv -> fst kv <> PROTO.
Proof. now intros (_ & _ & _ & _ & _ & _ & H). Qed.

(** The line written for a well-formed entry is read back as that entry. *)
Lemma entry_line (k v : str) :
  entry_ok (k, v) ->
  no_lf (k ++ lit ": " ++ v) = true
  /\ chomp_cr (k ++ lit ": " ++ v) = k ++ lit ": " ++ v
  /\ truthy (k ++ lit ": " ++ v) = true
  /\ str_eqb (trim (k ++ lit ": " ++ v)) DELIM = false
  /\ indexOf COLON (k ++ lit ": " ++ v) = Some (length k)
  /\ trim (slice (k ++ lit ": " ++ v) 0 (length k)) = k
  /\ trim (slice_from (k ++ lit ": " ++ v) (length k + 1)) = v.
Proof.
  intros (Hk & Hkt & Hkc & Hkl & Hvt & Hvl & _).
  simpl in Hk, Hkt, Hkc, Hkl, Hvt, Hvl.
  set (line := k ++ lit ": " ++ v).
  assert (Eline : line = k ++ COLON :: SPACE :: v) by reflexivity.
  repeat split.
  - rewrite Eline, no_lf_app. rewrite Hkl. simpl. exact Hvl.
  - rewrite Eline.
    replace (k ++ COLON :: SPACE :: v) with ((k ++ [COLON]) ++ SPACE :: v)
      by now rewrite <- app_assoc.
    apply chomp_cr_app; [discriminate|].
    destruct v as [|c v'].
    + reflexivity.
    + change (SPACE :: c :: v') with ([SPACE] ++ c :: v').
      apply chomp_cr_app; [discriminate|]. now apply trimmed_last.
  - rewrite Eline. destruct k; [contradiction | reflexivity].
  - apply str_eqb_neq. intro E.
    assert (Hin : In COLON (trim line)).
    { apply in_trim; [|reflexivity]. rewrite Eline. apply in_or_app.
      right. now left. }
    rewrite E in Hin. vm_compute in Hin. intuition discriminate.
  - rewrite Eline. now apply indexOf_app.
  - unfold slice. rewrite Nat.sub_0_r. cbn [skipn].
    rewrite Eline, firstn_app_exact. exact Hkt.
  - unfold slice_from. rewrite Nat.add_1_r, Eline.
    change (k ++ COLON :: SPACE :: v) with (k ++ [COLON] ++ SPACE :: v).
    rewrite app_assoc.
    replace (S (length k)) with (length (k ++ [COLON]))
      by (rewrite length_app; simpl; lia).
    rewrite skipn_app_exact, trim_cons_ws by reflexivity. exact Hvt.
Qed.

Lemma parse_header_written (H : obj) (acc : obj) (rest : list str) :
  Forall entry_ok H ->
  parse_header (map (fun '(k, v) => k ++ lit ": " ++ v) H ++ DELIM :: rest) acc
  = (fold_left (fun fm kv => obj_set fm (fst kv) (snd kv)) H acc, rest).
Proof.
  revert acc. induction H as [|[k v] H IH]; intros acc Hok.
  - reflexivity.
  - inversion Hok as [|? ? Hkv HH]; subst.
    destruct (entry_line k v Hkv) as (_ & _ & Ht & Hd & Hi & Hkey & Hval).
    cbn [map app parse_header]. rewrite Ht, Hd, Hi, Hkey, Hval. cbn [negb].
    destruct Hkv as (Hk & _). simpl in Hk.
    destruct k as [|c k']; [contradiction|]. cbn [truthy].
    now apply IH.
Qed.

Lemma lf_breaks_cons_lf (s : str) : lf_breaks (LF :: s) = LF :: lf_breaks s.
Proof.
  unfold lf_breaks. rewrite split_lines_cons. simpl (LF =? LF).
  cbv iota. rewrite join_cons by apply split_lines_not_nil. reflexivity.
Qed.

(** No text is its own line-feed form with a line feed put before it. *)
Lemma lf_breaks_grows (s : str) : LF :: lf_breaks s <> s.
Proof.
  induction s as [|c s IH]; [discriminate|].
  intro E. injection E as <- E. rewrite lf_breaks_cons_lf in E.
  contradiction.
Qed.

(** C1.  What the round trip does: the header comes back as written, and the
    body comes back with a line feed before it (the empty line
    [serializeNoteFile] puts after the closing delimiter is read as the
    first line of the body) and its line breaks written as line feeds.  The
    body read is never the body written. *)
Theorem round_trip_prepends_line_feed (H : obj) (B : str) :
  header_ok H ->
  parseNoteFile (serializeNoteFile {| frontmatter := H; body := B |})
  = {| frontmatter := H; body := LF :: lf_breaks B |}
  /\ body (parseNoteFile (serializeNoteFile {| frontmatter := H; body := B |}))
     <> B.
Proof.
  intros (Hne & Hnd & Hok & Hord).
  assert (E : parseNoteFile (serializeNoteFile {| frontmatter := H; body := B |})
              = {| frontmatter := H; body := LF :: lf_breaks B |}).
  { unfold serializeNoteFile. cbn [frontmatter body].
    destruct H as [|e H']; [contradiction|].
    set (fmLines := map (fun '(k, v) => k ++ lit ": " ++ v) (e :: H')).
    assert (Hsplit :
      split_lines (join [LF] ([DELIM] ++ fmLines ++ [DELIM; []; B]))
      = DELIM :: fmLines ++ DELIM :: [] :: split_lines B).
    { replace ([DELIM] ++ fmLines ++ [DELIM; []; B])
        with ((DELIM :: fmLines ++ [DELIM; []]) ++ [B])
        by (simpl; rewrite <- app_assoc; reflexivity).
      rewrite split_join_lines.
      - simpl. rewrite <- app_assoc. reflexivity.
      - constructor; [split; reflexivity|].
        apply Forall_app. split.
        + unfold fmLines. rewrite Forall_map.
          eapply Forall_impl; [|exact Hok]. intros [k v] Hkv.
          destruct (entry_line k v Hkv) as (H1 & H2 & _). now split.
        + repeat constructor. }
    rewrite parseNoteFile_header by (unfold first_line; rewrite Hsplit; reflexivity).
    rewrite Hsplit. cbn [tl]. unfold fmLines.
    rewrite parse_header_written by exact Hok.
    rewrite (fold_set_fresh _ [] Hnd (Forall_impl _ entry_ok_not_proto Hok) Hord).
    rewrite join_cons by apply split_lines_not_nil. reflexivity. }
  split; [exact E|]. rewrite E. cbn [body]. apply lf_breaks_grows.
Qed.

Lemma round_trip_prepends_line_feed_witness :
  parseNoteFile
    (serializeNoteFile
       {| frontmatter := [(lit "category", lit "AI/Agents")];
          body := lit "# My Title\n\ntext" |})
  = {| frontmatter := [(lit "category", lit "AI/Agents")];
       body := lit "\n# My Title\n\ntext" |}.
Proof.
  assert (Hok : header_ok [(lit "category", lit "AI/Agents")]).
  { split; [discriminate|]. split; [|split; [|reflexivity]].
    - repeat constructor. simpl. tauto.
    - repeat constructor; try reflexivity; simpl.
      + discriminate.
      + vm_compute. intuition discriminate.
      + discriminate. }
  destruct (round_trip_prepends_line_feed _ (lit "# My Title\n\ntext") Hok)
    as [E _].
  rewrite E. reflexivity.
Defined.

(** ** Note files: a text without a header *)

Lemma parse_header_suffix (lines : list str) (fm : obj) :
  exists pre, lines = pre ++ snd (parse_header lines fm).
Proof.
  revert fm. induction lines as [|line rest IH]; intro fm.
  - exists []. reflexivity.
  - cbn [parse_header].
    assert (Hskip : forall fm', exists pre,
                      line :: rest = pre ++ snd (parse_header rest fm')).
    { intro fm'. destruct (IH fm') as [pre E]. exists (line :: pre).
      cbn [app]. now rewrite <- E. }
    destruct (negb (truthy line)); [apply Hskip|].
    destruct (str_eqb (trim line) DELIM); [now exists [line]|].
    destruct (indexOf COLON line); apply Hskip.
Qed.

Lemma join_suffix_length (pre rest : list str) :
  (length (join [LF] rest) <= length (join [LF] (pre ++ rest)))%nat.
Proof.
  induction pre as [|p pre IH]; [apply Nat.le_refl|].
  cbn [app]. destruct (pre ++ rest) as [|q l] eqn:E.
  - destruct pre; [|discriminate E]. simpl in E. subst rest. simpl. lia.
  - rewrite join_cons by discriminate. rewrite !length_app. lia.
Qed.

Lemma join_cons_to_first (c : char) (parts : list str) :
  parts <> [] -> join [LF] (cons_to_first c parts) = c :: join [LF] parts.
Proof.
  destruct parts as [|p [|q l]]; [contradiction | reflexivity | reflexivity].
Qed.

Lemma lf_breaks_length (s : str) : (length (lf_breaks s) <= length s)%nat.
Proof.
  unfold lf_breaks. induction s as [|c s IH]; [apply Nat.le_refl|].
  rewrite split_lines_cons. destruct (c =? LF).
  - rewrite join_cons by apply split_lines_not_nil. simpl. lia.
  - destruct ((c =? CR) && startsWith s [LF]); [simpl; lia|].
    rewrite join_cons_to_first by apply split_lines_not_nil. simpl. lia.
Qed.

Lemma header_body_shorter (B : str) :
  trim (first_line B) = DELIM ->
  (length (body (parseNoteFile B)) < length B)%nat.
Proof.
  intro H. rewrite (parseNoteFile_header B H).
  pose proof (lf_breaks_length B) as HB. unfold lf_breaks in HB.
  unfold first_line in H.
  destruct (split_lines B) as [|l0 tail] eqn:E; [discriminate H|].
  cbn [hd tl] in *.
  destruct (parse_header_suffix tail []) as [pre Epre].
  pose proof (join_suffix_length pre (snd (parse_header tail []))) as Hs.
  rewrite <- Epre in Hs.
  destruct (parse_header tail []) as [fm rest]. cbn [snd body] in *.
  assert (H0 : (0 < length l0)%nat).
  { destruct l0; [discriminate H | simpl; lia]. }
  destruct tail as [|t1 tail'].
  - destruct pre; [|discriminate Epre]. simpl in Epre. subst rest.
    simpl in *. exact (Nat.lt_le_trans _ _ _ H0 HB).
  - rewrite join_cons in HB by discriminate. rewrite !length_app in HB.
    change (length [LF]) with 1%nat in HB. lia.
Qed.

(** C9, as the code has it.  A text is all body, with an empty header,
    exactly when its first line is not a delimiter line; and a line is a
    delimiter line when it is [---] once trimmed. *)
Theorem no_header_passthrough (raw : str) :
  parseNoteFile raw = {| frontmatter := []; body := raw |}
  <-> trim (first_line raw) <> DELIM.
Proof.
  split.
  - intros E H. pose proof (header_body_shorter raw H) as L.
    rewrite E in L. cbn [body] in L. lia.
  - intro H. unfold parseNoteFile. fold (first_line raw).
    apply str_eqb_neq in H. now rewrite H.
Qed.

(** C9, as the design document has it, fails: the first line of this note is
    [---] with a space after it, which is not the delimiter [---], and the
    note is parsed with a header block; its body is not the whole text. *)
Lemma no_header_passthrough_counterexample :
  first_line trailing_space_note = lit "--- "
  /\ first_line trailing_space_note <> DELIM
  /\ parseNoteFile trailing_space_note
     = {| frontmatter := [(lit "title", lit "x")]; body := lit "text" |}
  /\ parseNoteFile trailing_space_note
     <> {| frontmatter := []; body := trailing_space_note |}.
Proof.
  repeat split; try reflexivity; intro E; vm_compute in E; discriminate E.
Qed.

(** ** Note files: the title *)

Lemma deriveTitle_no_heading (relativePath body : str) :
  find is_heading (split_lines body) = None ->
  deriveTitle relativePath body
  = Path.basename_ext relativePath (Path.extname relativePath).
Proof.
  intro H. unfold deriveTitle. fold is_heading.
  change (fun line : str => startsWith (trim line) (lit "# ")) with is_heading.
  now rewrite H.
Qed.

Lemma trim_trimStart (s : str) : trim (drop_while is_ws s) = trim s.
Proof. unfold trim, trimStart. now rewrite drop_while_idem. Qed.

Lemma trim_nil_all_ws (s : str) : trim s = [] -> forallb is_ws s = true.
Proof.
  unfold trim, trimStart. intro H.
  destruct (drop_while is_ws s) as [|c r] eqn:E.
  - now apply drop_while_nil_all.
  - pose proof (drop_while_head _ _ _ _ E) as Hc.
    destruct (trimEnd_head r c Hc) as [r' Hr]. rewrite Hr in H. discriminate.
Qed.

(** A heading line that starts with the marker gives its trimmed remainder,
    and the remainder is never empty. *)
Lemma deriveTitle_heading (relativePath body h1 : str) :
  find is_heading (split_lines body) = Some h1 ->
  startsWith h1 (lit "# ") = true ->
  deriveTitle relativePath body = trim (skipn 2 h1) /\ trim (skipn 2 h1) <> [].
Proof.
  intros Hfind Hstart.
  assert (Hh : is_heading h1 = true) by (apply find_some in Hfind; tauto).
  destruct h1 as [|c0 [|c1 r]];
    [discriminate Hstart
    | simpl in Hstart; rewrite andb_false_r in Hstart; discriminate Hstart |].
  simpl in Hstart. apply andb_true_iff in Hstart as [H0 H1].
  rewrite andb_true_r in H1. apply N.eqb_eq in H0, H1.
  change (lit "# ") with [HASH; SPACE] in Hh. simpl in H0, H1. subst c0 c1.
  assert (Hne : trim r <> []).
  { intro E. apply trim_nil_all_ws in E. unfold is_heading in Hh.
    change (35 :: 32 :: r) with ([35] ++ (32 :: r)) in Hh.
    rewrite trim_app_ws_r in Hh by (simpl; now rewrite E).
    discriminate Hh. }
  split; [|exact Hne].
  unfold deriveTitle.
  change (fun line : str => startsWith (trim line) (lit "# ")) with is_heading.
  rewrite Hfind. cbn [truthy strip_heading_marker skipn].
  change (35 =? HASH) with true. cbv iota.
  change (drop_while is_ws (32 :: r)) with (drop_while is_ws r).
  rewrite trim_trimStart.
  destruct (trim r); [contradiction | reflexivity].
Qed.

(** A heading line that starts with white space keeps its marker. *)
Lemma deriveTitle_indented (relativePath body : str) (c : char) (r : str) :
  find is_heading (split_lines body) = Some (c :: r) ->
  is_ws c = true ->
  deriveTitle relativePath body = trim (c :: r)
  /\ startsWith (deriveTitle relativePath body) (lit "# ") = true.
Proof.
  intros Hfind Hc.
  assert (Hh : is_heading (c :: r) = true) by (apply find_some in Hfind; tauto).
  assert (E : deriveTitle relativePath body = trim (c :: r)).
  { unfold deriveTitle.
    change (fun line : str => startsWith (trim line) (lit "# ")) with is_heading.
    rewrite Hfind. cbn [truthy strip_heading_marker].
    assert (Hhash : (c =? HASH) = false).
    { destruct (c =? HASH) eqn:E; [|reflexivity].
      apply N.eqb_eq in E. subst c. discriminate Hc. }
    rewrite Hhash. unfold is_heading in Hh.
    destruct (trim (c :: r)); [discriminate Hh | reflexivity]. }
  split; [exact E|]. rewrite E. exact Hh.
Qed.

(** C3.  The two titles of the design document come out as it says.  A
    heading line that is indented is found as the heading (it is tested once
    trimmed) and keeps its marker in the title (the marker is taken off the
    line as it stands): the title of the third body is [# A], neither [A] nor
    the base name. *)
Theorem deriveTitle_examples :
  deriveTitle (lit "notes/foo.md") (lit "# My Title\n\ntext") = lit "My Title"
  /\ deriveTitle (lit "notes/foo.md") (lit "no heading here") = lit "foo"
  /\ deriveTitle (lit "notes/foo.md") (lit "  # A\n# B") = lit "# A".
Proof. repeat split; reflexivity. Qed.

(** ** Computations that only read *)

Lemma bind_run {A B : Type} (m : M A) (k : A -> M B) (w : world) :
  bind m k w
  = match fst (m w) with
    | inr a => k a (snd (m w))
    | inl e => (Throw e, snd (m w))
    end.
Proof. unfold bind. destruct (m w) as [[e|a] w']; reflexivity. Qed.

Lemma read_only_ret {A : Type} (a : A) : read_only (ret a).
Proof. intro w. split; reflexivity. Qed.

Lemma read_only_throw {A : Type} (e : exn) : read_only (@throw A e).
Proof. intro w. split; reflexivity. Qed.

Lemma read_only_lift {A : Type} (r : result A) : read_only (lift r).
Proof. intro w. split; reflexivity. Qed.


Lemma read_only_bind {A B : Type} (m : M A) (k : A -> M B) :
  read_only m -> (forall a, read_only (k a)) -> read_only (bind m k).
Proof.
  intros Hm Hk w. rewrite bind_run. destruct (Hm w) as [Hd Ht].
  destruct (fst (m w)) as [e|a]; simpl.
  - now split.
  - destruct (Hk a (snd (m w))) as [Hd' Ht']. split; congruence.
Qed.

Lemma writes_app (t1 t2 : list (fs_op * bool)) :
  writes (t1 ++ t2) = writes t1 ++ writes t2.
Proof. apply filter_app. Qed.

Lemma read_only_fs_call {A : Type} (op : fs_op) (query : node -> result A) :
  is_write op = false -> read_only (fs_call op (fun d => keep d (query d))).
Proof.
  intros Hop w. unfold fs_call.
  destruct (hd false (faults w)); simpl.
  - rewrite writes_app. simpl. rewrite Hop, app_nil_r. now split.
  - destruct (query (disk w)) as [e|a]; simpl;
      rewrite writes_app; simpl; rewrite Hop, app_nil_r; now split.
Qed.

Lemma read_only_for_each {A S : Type} (body : A -> S -> M S) (l : list A) :
  (forall a s, In a l -> read_only (body a s)) ->
  forall s, read_only (for_each body l s).
Proof.
  induction l as [|a l IH]; intros H s; simpl.
  - apply read_only_ret.
  - apply read_only_bind; [apply H; now left|].
    intro s'. apply IH. intros a' s'' Hin. apply H. now right.
Qed.

Lemma read_only_walk (root : str) (fuel : nat) :
  forall currentRel categories,
    read_only (FsWorkspace.walk root fuel currentRel categories).
Proof.
  induction fuel as [|fuel IH]; intros currentRel categories; simpl.
  - apply read_only_throw.
  - apply read_only_bind; [now apply read_only_fs_call|].
    intro entries. apply read_only_for_each. intros [name isdir] s _.
    simpl. destruct isdir; [apply IH | apply read_only_ret].
Qed.

Lemma read_only_loadNote (root relativePath : str) :
  read_only (FsWorkspace.loadNote root relativePath).
Proof.
  unfold FsWorkspace.loadNote.
  apply read_only_bind; [now apply read_only_fs_call|].
  intro raw. apply read_only_bind; [apply read_only_lift|].
  intro c. apply read_only_ret.
Qed.

Lemma read_only_listCategories (root : str) :
  read_only (FsWorkspace.listCategories root).
Proof.
  intro w. unfold FsWorkspace.listCategories.
  apply (read_only_bind (FsWorkspace.walk root (S (height (disk w))) [DOT] [])).
  - apply read_only_walk.
  - intro c. apply read_only_lift.
Qed.

(** ** Computations that see the disk and the rejections only *)

Lemma sim_refl (w : world) : sim w w.
Proof. split; reflexivity. Qed.

Lemma respects_ret {A : Type} (a : A) : respects (ret a).
Proof. intros w1 w2 H. now split. Qed.

Lemma respects_throw {A : Type} (e : exn) : respects (@throw A e).
Proof. intros w1 w2 H. now split. Qed.

Lemma respects_lift {A : Type} (r : result A) : respects (lift r).
Proof. intros w1 w2 H. now split. Qed.

Lemma sim_log (l : level) (s : str) (w : world) : sim (snd (log l s w)) w.
Proof. split; reflexivity. Qed.

Lemma respects_bind {A B : Type} (m : M A) (k : A -> M B) :
  respects m -> (forall a, respects (k a)) -> respects (bind m k).
Proof.
  intros Hm Hk w1 w2 H. rewrite !bind_run.
  destruct (Hm w1 w2 H) as [Hr Hs]. rewrite Hr.
  destruct (fst (m w2)) as [e|a]; simpl.
  - now split.
  - now apply Hk.
Qed.

Lemma respects_fs_call {A : Type} (op : fs_op) (run : node -> result (A * node)) :
  respects (fs_call op run).
Proof.
  intros w1 w2 [Hd Hf]. unfold fs_call. rewrite Hd, Hf.
  destruct (hd false (faults w2)); simpl.
  - repeat split; simpl; congruence.
  - destruct (run (disk w2)) as [e|[a d']]; simpl; repeat split; simpl;
      congruence.
Qed.

Lemma respects_for_each {A S : Type} (body : A -> S -> M S) (l : list A) :
  (forall a s, respects (body a s)) ->
  forall s, respects (for_each body l s).
Proof.
  intro H. induction l as [|a l IH]; intro s; simpl.
  - apply respects_ret.
  - apply respects_bind; [apply H | exact IH].
Qed.

Lemma respects_walk (root : str) (fuel : nat) :
  forall currentRel categories,
    respects (FsWorkspace.walk root fuel currentRel categories).
Proof.
  induction fuel as [|fuel IH]; intros currentRel categories; simpl.
  - apply respects_throw.
  - apply respects_bind; [apply respects_fs_call|].
    intro entries. apply respects_for_each. intros [name isdir] s.
    simpl. destruct isdir; [apply IH | apply respects_ret].
Qed.

Lemma respects_loadNote (root relativePath : str) :
  respects (FsWorkspace.loadNote root relativePath).
Proof.
  unfold FsWorkspace.loadNote.
  apply respects_bind; [apply respects_fs_call|].
  intro raw. apply respects_bind; [apply respects_lift|].
  intro c. apply respects_ret.
Qed.

Lemma respects_listCategories (root : str) :
  respects (FsWorkspace.listCategories root).
Proof.
  intros w1 w2 H. unfold FsWorkspace.listCategories.
  destruct H as [Hd Hf]. rewrite Hd.
  apply (respects_bind (FsWorkspace.walk root (S (height (disk w2))) [DOT] [])).
  - apply respects_walk.
  - intro c. apply respects_lift.
  - now split.
Qed.

(** ** The use case: a suggestion that changes nothing *)

Lemma bind_log_run {B : Type} (l : level) (s : str) (k : unit -> M B) (w : world) :
  bind (log l s) k w = k tt (snd (log l s w)).
Proof. reflexivity. Qed.

Lemma bind_ok_run {A B : Type} (m : M A) (k : A -> M B) (w w' : world) (a : A) :
  m w = (Ok a, w') -> bind m k w = k a w'.
Proof. intro H. unfold bind. now rewrite H. Qed.

Lemma bind_lift_ok {A B : Type} (r : result A) (k : A -> M B) (w : world) (a : A) :
  r = Ok a -> bind (lift r) k w = k a w.
Proof. intros ->. reflexivity. Qed.

(** A reading computation run in a world that looks the same does the same. *)
Lemma transfer {A : Type} (m : M A) (w w0 w0' : world) (a : A) :
  respects m -> read_only m ->
  m w0 = (Ok a, w0') -> sim w w0 ->
  exists w', m w = (Ok a, w') /\ sim w' w0'
             /\ disk w' = disk w /\ writes (trace w') = writes (trace w).
Proof.
  intros Hr Ho E Hs. destruct (Hr w w0 Hs) as [Hfst Hsim].
  destruct (Ho w) as [Hd Ht]. rewrite E in Hfst, Hsim. cbn [fst snd] in *.
  destruct (m w) as [r w'] eqn:Em. cbn [fst snd] in *. subst r.
  exists w'. repeat split; try assumption; apply Hsim.
Qed.

Lemma execute_noop_run (root : str) (categorizer : CategorizationPort)
    (relativePath : str) (w w1 w2 : world) (n : Note)
    (cats : list CategoryPath.t) (d : CategorizationDecision) :
  FsWorkspace.loadNote root relativePath w = (Ok n, w1) ->
  FsWorkspace.listCategories root w1 = (Ok cats, w2) ->
  suggestCategory categorizer {| note := n; availableCategories := cats |} = Ok d ->
  CategoryPath.toString (suggestedCategory d)
  = CategorizeNoteUseCase.currentCategoryStr n ->
  exists w',
    CategorizeNoteUseCase.execute (FsWorkspacePort root) categorizer relativePath w
    = (Ok {| originalNote := n; updatedNote := n; wasMoved := false;
             out_reasoning := reasoning d |}, w')
    /\ disk w' = disk w /\ writes (trace w') = writes (trace w).
Proof.
  intros Hload Hlist Hsuggest Hsame.
  unfold CategorizeNoteUseCase.execute.
  cbn [loadNote listCategories FsWorkspacePort].
  rewrite bind_log_run.
  destruct (transfer _ (snd (log INFO (lit "Loading note: " ++ relativePath) w))
              w w1 n (respects_loadNote root relativePath)
              (read_only_loadNote root relativePath) Hload (sim_log _ _ _))
    as (wb & Eb & Hsb & Hdb & Htb).
  rewrite (bind_ok_run _ _ _ _ _ Eb), bind_log_run.
  assert (Hsc : sim (snd (log DEBUG (lit "Loaded note: " ++ [QUOTE] ++ title n
                                      ++ [QUOTE]) wb)) w1)
    by (split; apply Hsb).
  destruct (transfer _ _ w1 w2 cats (respects_listCategories root)
              (read_only_listCategories root) Hlist Hsc)
    as (wd & Ed & Hsd & Hdd & Htd).
  rewrite (bind_ok_run _ _ _ _ _ Ed), !bind_log_run.
  rewrite (bind_lift_ok _ _ _ _ Hsuggest).
  rewrite Hsame, str_eqb_refl, bind_log_run. unfold ret.
  eexists. split; [reflexivity|]. cbn [log snd disk trace] in *.
  split; congruence.
Qed.

(** C6. When the categorizer suggests the category the loaded note already
    has (the empty string for a note without one), [execute] returns the
    loaded note as both notes with [wasMoved = false]; the disk is as it was
    and no call that changes it has been made. *)
Theorem noop_categorization (root : str) (categorizer : CategorizationPort)
    (relativePath : str) (w w1 w2 : world) (n : Note)
    (cats : list CategoryPath.t) (d : CategorizationDecision) :
  FsWorkspace.loadNote root relativePath w = (Ok n, w1) ->
  FsWorkspace.listCategories root w1 = (Ok cats, w2) ->
  suggestCategory categorizer {| note := n; availableCategories := cats |} = Ok d ->
  CategoryPath.toString (suggestedCategory d)
  = CategorizeNoteUseCase.currentCategoryStr n ->
  fst (CategorizeNoteUseCase.execute (FsWorkspacePort root) categorizer relativePath w)
  = Ok {| originalNote := n; updatedNote := n; wasMoved := false;
          out_reasoning := reasoning d |}
  /\ disk (snd (CategorizeNoteUseCase.execute (FsWorkspacePort root) categorizer
                  relativePath w))
     = disk w
  /\ writes (trace (snd (CategorizeNoteUseCase.execute (FsWorkspacePort root)
                           categorizer relativePath w)))
     = writes (trace w).
Proof.
  intros Hload Hlist Hsuggest Hsame.
  destruct (execute_noop_run root categorizer relativePath w w1 w2 n cats d
              Hload Hlist Hsuggest Hsame) as (w' & E & Hd & Ht).
  rewrite E. cbn [fst snd]. repeat split; assumption.
Qed.

Lemma noop_categorization_witness :
  fst (CategorizeNoteUseCase.execute (FsWorkspacePort (lit "/ws")) demo_categorizer
         (lit "AI/Agents/n.md") demo_world)
  = Ok {| originalNote := demo_note; updatedNote := demo_note; wasMoved := false;
          out_reasoning := lit "about agents" |}
  /\ disk (snd (CategorizeNoteUseCase.execute (FsWorkspacePort (lit "/ws"))
                  demo_categorizer (lit "AI/Agents/n.md") demo_world))
     = demo_disk
  /\ writes (trace (snd (CategorizeNoteUseCase.execute (FsWorkspacePort (lit "/ws"))
                           demo_categorizer (lit "AI/Agents/n.md") demo_world)))
     = [].
Proof.
  refine (noop_categorization (lit "/ws") demo_categorizer (lit "AI/Agents/n.md")
            demo_world
            (snd (FsWorkspace.loadNote (lit "/ws") (lit "AI/Agents/n.md") demo_world))
            (snd (FsWorkspace.listCategories (lit "/ws")
                    (snd (FsWorkspace.loadNote (lit "/ws") (lit "AI/Agents/n.md")
                            demo_world))))
            demo_note
            [CategoryPath.make (lit "AI"); CategoryPath.make (lit "AI/Agents");
             CategoryPath.make (lit "Product"); CategoryPath.make (lit "inbox")]
            {| suggestedCategory := CategoryPath.make (lit "AI/Agents");
               reasoning := lit "about agents" |}
            _ _ _ _); vm_compute; reflexivity.
Defined.

(** ** The disk: what writing and making directories leave in place *)

Lemma lookup_entry_set_entry (n m : str) (c : node) (es : list (str * node)) :
  lookup_entry n (set_entry m c es)
  = if str_eqb m n then Some c else lookup_entry n es.
Proof.
  induction es as [|[k c'] es IH]; simpl.
  - rewrite (str_eqb_sym m n). destruct (str_eqb n m) eqn:E; reflexivity.
  - destruct (str_eqb k m) eqn:Ekm; simpl.
    + apply str_eqb_eq in Ekm. subst k.
      destruct (str_eqb m n); reflexivity.
    + rewrite IH. destruct (str_eqb k n) eqn:Ekn; [|reflexivity].
      apply str_eqb_eq in Ekn. subst k. now rewrite str_eqb_sym, Ekm.
Qed.

Lemma update_lookup_new (name : str) (c : node)
    (f : list (str * node) -> result (list (str * node))) :
  (forall es es', f es = Ok es' -> lookup_entry name es' = Some c) ->
  forall segs d d',
    update d segs f = Ok d' -> lookup d' (segs ++ [name]) = Some c.
Proof.
  intros Hf. induction segs as [|s segs IH]; intros d d' H;
    destruct d as [data|es]; try discriminate H; simpl in H.
  - destruct (f es) as [e|es'] eqn:E; [discriminate|]. injection H as <-.
    simpl. rewrite (Hf _ _ E). reflexivity.
  - destruct (lookup_entry s es) as [c0|]; [|discriminate].
    destruct (update c0 segs f) as [e|c0'] eqn:E; [discriminate|].
    injection H as <-. simpl. rewrite lookup_entry_set_entry, str_eqb_refl.
    now apply IH with (d := c0).
Qed.

Lemma update_lookup_file (name : str)
    (f : list (str * node) -> result (list (str * node))) :
  (forall es es' n, f es = Ok es' -> str_eqb name n = false ->
                    lookup_entry n es' = lookup_entry n es) ->
  (forall es es' es0, f es = Ok es' -> lookup_entry name es <> Some (Dir es0)) ->
  forall segs d d' Q x,
    update d segs f = Ok d' ->
    lookup d Q = Some (File x) -> Q <> segs ++ [name] ->
    lookup d' Q = Some (File x).
Proof.
  intros Hother Hnodir.
  induction segs as [|s segs IH]; intros d d' Q x H HQ Hne;
    destruct d as [data|es]; try discriminate H; simpl in H.
  - destruct (f es) as [e|es'] eqn:E; [discriminate|]. injection H as <-.
    destruct Q as [|q Q']; [discriminate HQ|]. simpl in *.
    destruct (str_eqb name q) eqn:Eq.
    + apply str_eqb_eq in Eq. subst q.
      destruct (lookup_entry name es) as [[data|es0]|] eqn:El; try discriminate.
      * destruct Q'; [contradiction | discriminate HQ].
      * exfalso. now apply (Hnodir es es' es0 E).
    + rewrite (Hother _ _ _ E Eq). exact HQ.
  - destruct (lookup_entry s es) as [c0|] eqn:El; [|discriminate].
    destruct (update c0 segs f) as [e|c0'] eqn:E; [discriminate|].
    injection H as <-.
    destruct Q as [|q Q']; [discriminate HQ|]. simpl in *.
    rewrite lookup_entry_set_entry.
    destruct (str_eqb s q) eqn:Eq; [|exact HQ].
    apply str_eqb_eq in Eq. subst q. rewrite El in HQ.
    apply IH with (d := c0); [exact E | exact HQ |].
    intro E'. apply Hne. now rewrite E'.
Qed.

Lemma mkdir_p_keeps (segs : list str) :
  forall d d' Q x,
    mkdir_p d segs = Ok d' -> lookup d Q = Some (File x) ->
    lookup d' Q = Some (File x).
Proof.
  induction segs as [|s segs IH]; intros d d' Q x H HQ;
    destruct d as [data|es]; try discriminate H; simpl in H.
  - injection H as <-. exact HQ.
  - destruct (mkdir_p _ segs) as [e|c'] eqn:E; [discriminate|].
    injection H as <-.
    destruct Q as [|q Q']; [discriminate HQ|]. simpl in *.
    rewrite lookup_entry_set_entry.
    destruct (str_eqb s q) eqn:Eq; [|exact HQ].
    apply str_eqb_eq in Eq. subst q.
    destruct (lookup_entry s es) as [c0|] eqn:El; [|discriminate].
    now apply IH with (d := c0).
Qed.

Lemma fs_readFile_inv (d : node) (p x : str) :
  fs_readFile d p = Ok x ->
  lookup d (fs_segments p) = Some (File x) /\ ends_with_slash p = false.
Proof.
  unfold fs_readFile.
  destruct (lookup d (fs_segments p)) as [[data|es]|]; try discriminate.
  destruct (ends_with_slash p); [discriminate|].
  intro H. injection H as ->. now split.
Qed.

Lemma fs_mkdir_keeps (d d' : node) (p q x : str) :
  fs_mkdir d p = Ok d' -> fs_readFile d q = Ok x -> fs_readFile d' q = Ok x.
Proof.
  unfold fs_mkdir. intros H Hq. apply fs_readFile_inv in Hq as [Hl He].
  unfold fs_readFile. rewrite (mkdir_p_keeps _ _ _ _ _ H Hl), He. reflexivity.
Qed.

Lemma fs_writeFile_inv (d d' : node) (p data : str) :
  fs_writeFile d p data = Ok d' ->
  exists name parent,
    fs_segments p = parent ++ [name] /\ ends_with_slash p = false
    /\ update d parent (fun es =>
         match lookup_entry name es with
         | Some (Dir _) => Throw EISDIR
         | _ => Ok (set_entry name (File data) es)
         end) = Ok d'.
Proof.
  unfold fs_writeFile. intro H.
  destruct (rev (fs_segments p)) as [|name parent_rev] eqn:E; [discriminate|].
  destruct (ends_with_slash p); [discriminate|].
  exists name, (rev parent_rev). repeat split; [|exact H].
  rewrite <- (rev_involutive (fs_segments p)), E. reflexivity.
Qed.

(** The file written is there with what was written. *)
Lemma fs_writeFile_read (d d' : node) (p data : str) :
  fs_writeFile d p data = Ok d' -> fs_readFile d' p = Ok data.
Proof.
  intro H. apply fs_writeFile_inv in H as (name & parent & Hs & He & Hu).
  unfold fs_readFile. rewrite Hs, He.
  match type of Hu with
  | update _ _ ?f = _ =>
      assert (HN : forall es es', f es = Ok es' ->
                                  lookup_entry name es' = Some (File data))
  end.
  { intros es es' E. cbv beta in E.
    destruct (lookup_entry name es) as [[x|es0]|];
      try discriminate; injection E as <-;
      now rewrite lookup_entry_set_entry, str_eqb_refl. }
  rewrite (update_lookup_new _ _ _ HN _ _ _ Hu). reflexivity.
Qed.

(** A file that was there is still there. *)
Lemma fs_writeFile_keeps (d d' : node) (p data q x : str) :
  fs_writeFile d p data = Ok d' -> fs_readFile d q = Ok x ->
  exists y, fs_readFile d' q = Ok y.
Proof.
  intros H Hq. pose proof (fs_writeFile_read _ _ _ _ H) as Hnew.
  apply fs_readFile_inv in Hq as [Hl He].
  apply fs_writeFile_inv in H as (name & parent & Hs & _ & Hu).
  destruct (list_eq_dec (list_eq_dec N.eq_dec) (fs_segments q) (fs_segments p))
    as [Eseg | Nseg].
  - exists data. unfold fs_readFile in *. rewrite Eseg, He.
    destruct (lookup d' (fs_segments p)) as [[y|es]|]; try discriminate.
    destruct (ends_with_slash p); [discriminate | exact Hnew].
  - exists x. unfold fs_readFile. rewrite He.
    match type of Hu with
    | update _ _ ?f = _ =>
        assert (H1 : forall es es' n, f es = Ok es' -> str_eqb name n = false ->
                                      lookup_entry n es' = lookup_entry n es);
        [|assert (H2 : forall es es' es0, f es = Ok es' ->
                                          lookup_entry name es <> Some (Dir es0))]
    end.
    + intros es es' n E En. cbv beta in E.
      destruct (lookup_entry name es) as [[z|es0]|];
        try discriminate; injection E as <-;
        now rewrite lookup_entry_set_entry, En.
    + intros es es' es0 E El. cbv beta in E. rewrite El in E. discriminate.
    + rewrite (update_lookup_file _ _ H1 H2 _ _ _ _ _ Hu Hl); [reflexivity|].
      now rewrite <- Hs.
Qed.

(** ** Changing the category: the order of the calls *)

Lemma fs_call_cases {A : Type} (op : fs_op) (run : node -> result (A * node))
    (w : world) :
  (exists a d',
      run (disk w) = Ok (a, d')
      /\ fs_call op run w
         = (Ok a, mkWorld d' (tl (faults w)) (trace w ++ [(op, true)]) (console w)))
  \/ (exists e,
      fs_call op run w
      = (Throw e,
         mkWorld (disk w) (tl (faults w)) (trace w ++ [(op, false)]) (console w))).
Proof.
  unfold fs_call. destruct (hd false (faults w)).
  - right. eauto.
  - destruct (run (disk w)) as [e|[a d']]; [right | left]; eauto.
Qed.

Lemma bind_throw_run {A B : Type} (m : M A) (k : A -> M B) (w w' : world)
    (e : exn) :
  m w = (Throw e, w') -> bind m k w = (Throw e, w').
Proof. intro H. unfold bind. now rewrite H. Qed.

Lemma keep_inv {A : Type} (d d' : node) (r : result A) (a : A) :
  keep d r = Ok (a, d') -> r = Ok a /\ d' = d.
Proof. destruct r; simpl; [discriminate|]. intro H. injection H as -> ->. now split. Qed.

Lemma change_inv (r : result node) (d' : node) (u : unit) :
  change r = Ok (u, d') -> r = Ok d'.
Proof. destruct r; simpl; [discriminate|]. intro H. now injection H as _ ->. Qed.

Lemma loadNote_trace (root relativePath : str) (w : world) :
  exists ok,
    trace (snd (FsWorkspace.loadNote root relativePath w))
    = trace w ++ [(ReadFile (FsWorkspace.resolveAbsolute root relativePath), ok)]
    /\ disk (snd (FsWorkspace.loadNote root relativePath w)) = disk w.
Proof.
  unfold FsWorkspace.loadNote, fs.readFile.
  destruct (fs_call_cases (ReadFile (FsWorkspace.resolveAbsolute root relativePath))
              (fun d => keep d (fs_readFile d (FsWorkspace.resolveAbsolute root relativePath))) w)
    as [(raw & d' & Hrun & E) | (e & E)].
  - apply keep_inv in Hrun as [_ ->].
    rewrite (bind_ok_run _ _ _ _ _ E). exists true.
    unfold bind, lift, ret.
    match goal with |- context [match ?r with inl _ => _ | inr _ => _ end] =>
      destruct r end; now split.
  - rewrite (bind_throw_run _ _ _ _ _ E). exists false. now split.
Qed.

Lemma applyCategoryChange_run (root notePath : str) (newCategory : CategoryPath.t)
    (w : world) :
  let w' := snd (FsWorkspace.applyCategoryChange root notePath newCategory w) in
  exists evs,
    trace w' = trace w ++ evs
    /\ change_run (old_path root notePath) (new_path root notePath newCategory)
         (fun data =>
            fs_readFile (disk w') (new_path root notePath newCategory) = Ok data
            /\ exists old, fs_readFile (disk w') (old_path root notePath) = Ok old)
         evs.
Proof.
  unfold FsWorkspace.applyCategoryChange.
  fold (old_path root notePath). fold (new_path root notePath newCategory).
  set (absOld := old_path root notePath).
  set (absNew := new_path root notePath newCategory).
  unfold fs.readFile, fs.mkdir, fs.writeFile, fs.unlink. unfold change_run.
  (* read *)
  destruct (fs_call_cases (ReadFile absOld)
              (fun d => keep d (fs_readFile d absOld)) w)
    as [(raw & d0 & Hread & E0) | (e & E0)];
    [|rewrite (bind_throw_run _ _ _ _ _ E0); cbn [snd trace];
      eexists; split; [reflexivity | now left]].
  apply keep_inv in Hread as [Hread ->].
  rewrite (bind_ok_run _ _ _ _ _ E0). clear E0.
  set (w0 := mkWorld (disk w) _ _ _).
  (* mkdir *)
  match goal with |- context [fs_call (Mkdir ?dir) ?run] =>
    destruct (fs_call_cases (Mkdir dir) run w0)
      as [(u1 & d1 & Hmk & E1) | (e & E1)] end;
    [|rewrite (bind_throw_run _ _ _ _ _ E1); cbn [snd trace w0];
      eexists; split; [rewrite <- app_assoc; reflexivity
                      | right; left; eexists; reflexivity]].
  apply change_inv in Hmk. cbn [disk w0] in Hmk.
  rewrite (bind_ok_run _ _ _ _ _ E1). clear E1.
  set (w1 := mkWorld d1 _ _ _).
  (* write *)
  match goal with |- context [fs_call (WriteFile absNew ?data) ?run] =>
    set (newContent := data);
    destruct (fs_call_cases (WriteFile absNew newContent) run w1)
      as [(u2 & d2 & Hwr & E2) | (e & E2)] end;
    [|rewrite (bind_throw_run _ _ _ _ _ E2); cbn [snd trace w0 w1];
      eexists; split; [rewrite <- !app_assoc; reflexivity
                      | right; right; left; do 2 eexists; reflexivity]].
  apply change_inv in Hwr. cbn [disk w1] in Hwr.
  rewrite (bind_ok_run _ _ _ _ _ E2). clear E2.
  set (w2 := mkWorld d2 _ _ _).
  assert (Hnew : fs_readFile d2 absNew = Ok newContent)
    by exact (fs_writeFile_read _ _ _ _ Hwr).
  assert (Hold : exists old, fs_readFile d2 absOld = Ok old).
  { eapply fs_writeFile_keeps; [exact Hwr|].
    eapply fs_mkdir_keeps; [exact Hmk | exact Hread]. }
  (* unlink, or not *)
  destruct (str_eqb absNew absOld) eqn:Esame; cbn [negb].
  - apply str_eqb_eq in Esame.
    rewrite (bind_ok_run (ret tt) _ w2 w2 tt eq_refl).
    match goal with |- context [bind (FsWorkspace.loadNote root ?rel) ?k w2] =>
      destruct (loadNote_trace root rel w2) as (ok & Ht & Hd);
      assert (Hfin : trace (snd (bind (FsWorkspace.loadNote root rel) k w2))
                     = trace (snd (FsWorkspace.loadNote root rel w2))
                     /\ disk (snd (bind (FsWorkspace.loadNote root rel) k w2))
                        = disk (snd (FsWorkspace.loadNote root rel w2)))
        by (unfold bind, ret;
            destruct (FsWorkspace.loadNote root rel w2) as [[e|a] w3]; now split)
    end.
    destruct Hfin as [Hft Hfd]. rewrite Hft, Hfd, Ht, Hd. cbn [trace disk w0 w1 w2].
    eexists. split; [rewrite <- !app_assoc; reflexivity|].
    do 5 right. exists (Path.dirname absNew), newContent. do 2 eexists.
    split; [exact Esame|]. split; [split; assumption | reflexivity].
  - apply str_eqb_neq in Esame.
    destruct (fs_call_cases (Unlink absOld)
                (fun d => change (fs_unlink d absOld)) w2)
      as [(u3 & d3 & Hun & E3) | (e & E3)].
    + rewrite (bind_ok_run _ _ _ _ _ E3). clear E3.
      set (w3 := mkWorld d3 _ _ _).
      match goal with |- context [bind (FsWorkspace.loadNote root ?rel) ?k w3] =>
        destruct (loadNote_trace root rel w3) as (ok & Ht & Hd);
        assert (Hfin : trace (snd (bind (FsWorkspace.loadNote root rel) k w3))
                       = trace (snd (FsWorkspace.loadNote root rel w3)))
          by (unfold bind, ret;
              destruct (FsWorkspace.loadNote root rel w3) as [[e|a] w4];
              reflexivity)
      end.
      rewrite Hfin, Ht. cbn [trace w0 w1 w2 w3].
      eexists. split; [rewrite <- !app_assoc; reflexivity|].
      do 4 right. left. exists (Path.dirname absNew), newContent. do 2 eexists.
      split; [exact Esame | reflexivity].
    + rewrite (bind_throw_run _ _ _ _ _ E3). cbn [snd trace disk w0 w1 w2].
      eexists. split; [rewrite <- !app_assoc; reflexivity|].
      do 3 right. left. exists (Path.dirname absNew), newContent.
      split; [exact Esame|]. split; [split; assumption | reflexivity].
Qed.

(** Where a given call stands in a list of calls written out. *)
Ltac peel E pre :=
  let x := fresh "x" in
  destruct pre as [|x pre]; cbn [app] in E;
  [ try discriminate E; try (injection E; intros; subst)
  | try discriminate E; injection E as ? E; subst x; peel E pre ].

(** C5. In every run of [applyCategoryChange], whatever the disk and whatever
    calls the system rejects: a call to [unlink] is for the old path, comes
    after the write of the new file has succeeded, and is made only when the
    two absolute paths differ; and when the write has succeeded and the old
    file has not been unlinked (the run failed in between, or the paths are
    the same), both paths hold a file at the end, the new one with the
    content written. *)
Theorem deletion_after_write (root notePath : str) (newCategory : CategoryPath.t)
    (w : world) :
  let absOld := old_path root notePath in
  let absNew := new_path root notePath newCategory in
  let w' := snd (FsWorkspace.applyCategoryChange root notePath newCategory w) in
  exists evs,
    trace w' = trace w ++ evs
    /\ (forall pre p ok post,
          evs = pre ++ (Unlink p, ok) :: post ->
          p = absOld /\ absNew <> absOld
          /\ exists data, In (WriteFile absNew data, true) pre)
    /\ (forall data,
          In (WriteFile absNew data, true) evs ->
          ~ In (Unlink absOld, true) evs ->
          fs_readFile (disk w') absNew = Ok data
          /\ exists old, fs_readFile (disk w') absOld = Ok old).
Proof.
  intros absOld absNew w'.
  destruct (applyCategoryChange_run root notePath newCategory w)
    as (evs & Ht & Hrun).
  fold absOld absNew w' in Ht, Hrun.
  exists evs. split; [exact Ht|].
  destruct Hrun as
    [-> | [(dir & ->) | [(dir & data0 & ->) | [(dir & data0 & Hne & Hp & ->)
    | [(dir & data0 & p0 & ok0 & Hne & ->)
    | (dir & data0 & p0 & ok0 & He & Hp & ->)]]]]]; split.
  - intros pre p ok post E. peel E pre.
  - intros data Hin. simpl in Hin. intuition discriminate.
  - intros pre p ok post E. peel E pre.
  - intros data Hin. simpl in Hin. intuition discriminate.
  - intros pre p ok post E. peel E pre.
  - intros data Hin. simpl in Hin. intuition discriminate.
  - intros pre p ok post E. peel E pre.
    repeat split; [exact Hne|]. exists data0. simpl. auto.
  - intros data Hin _. simpl in Hin.
    destruct Hin as [H|[H|[H|[H|[]]]]]; try discriminate H.
    injection H as <-. exact Hp.
  - intros pre p ok post E. peel E pre.
    repeat split; [exact Hne|]. exists data0. simpl. auto.
  - intros data _ Hno. exfalso. apply Hno. simpl. auto.
  - intros pre p ok post E. peel E pre.
  - intros data Hin _. simpl in Hin.
    destruct Hin as [H|[H|[H|[H|[]]]]]; try discriminate H.
    injection H as <-. exact Hp.
Qed.

(** A run that is rejected at [unlink]: the note is then at both places. *)
Example failed_unlink_keeps_both :
  let w := mkWorld
             (Dir [(lit "ws", Dir [(lit "inbox",
                      Dir [(lit "idea.md", File (lit "# Idea\ntext"))])])])
             [false; false; false; true] [] [] in
  let run := FsWorkspace.applyCategoryChange (lit "/ws") (lit "inbox/idea.md")
               (CategoryPath.make (lit "AI/Ideas")) w in
  fst run = Throw EIO
  /\ trace (snd run)
     = [(ReadFile (lit "/ws/inbox/idea.md"), true);
        (Mkdir (lit "/ws/AI/Ideas"), true);
        (WriteFile (lit "/ws/AI/Ideas/idea.md")
           (lit "---\ncategory: AI/Ideas\n---\n\n# Idea\ntext"), true);
        (Unlink (lit "/ws/inbox/idea.md"), false)]
  /\ fs_readFile (disk (snd run)) (lit "/ws/inbox/idea.md") = Ok (lit "# Idea\ntext")
  /\ fs_readFile (disk (snd run)) (lit "/ws/AI/Ideas/idea.md")
     = Ok (lit "---\ncategory: AI/Ideas\n---\n\n# Idea\ntext").
Proof. vm_compute. repeat split. Qed.

(** A change to the category the note is filed under: the note is written
    where it is and nothing is unlinked. *)
Example same_place_no_unlink :
  let run := FsWorkspace.applyCategoryChange (lit "/ws") (lit "AI/Agents/n.md")
               (CategoryPath.make (lit "AI/Agents")) demo_world in
  old_path (lit "/ws") (lit "AI/Agents/n.md")
  = new_path (lit "/ws") (lit "AI/Agents/n.md") (CategoryPath.make (lit "AI/Agents"))
  /\ map fst (trace (snd run))
     = [ReadFile (lit "/ws/AI/Agents/n.md"); Mkdir (lit "/ws/AI/Agents");
        WriteFile (lit "/ws/AI/Agents/n.md")
          (lit "---\ncategory: AI/Agents\n---\n\n\n# T\nbody");
        ReadFile (lit "/ws/AI/Agents/n.md")]
  /\ fs_readFile (disk (snd run)) (lit "/ws/AI/Agents/n.md")
     = Ok (lit "---\ncategory: AI/Agents\n---\n\n\n# T\nbody").
Proof. vm_compute. repeat split. Qed.

(** ** Paths made of plain components *)

Lemma seg_ok_inv (s : str) :
  seg_ok s = true ->
  s <> [] /\ forallb Path.not_slash s = true /\ s <> [DOT] /\ s <> [DOT; DOT].
Proof.
  unfold seg_ok. intro H.
  apply andb_true_iff in H as [H H4]. apply andb_true_iff in H as [H H3].
  apply andb_true_iff in H as [H1 H2].
  apply negb_true_iff, str_eqb_neq in H3, H4. apply truthy_true in H1.
  repeat split; assumption.
Qed.

Lemma plain_name_inv (s : str) :
  plain_name s = true ->
  seg_ok s = true /\ forallb (fun c => negb (c =? BACKSLASH)) s = true
  /\ trim s = s.
Proof.
  unfold plain_name. intro H.
  apply andb_true_iff in H as [H H3]. apply andb_true_iff in H as [H1 H2].
  apply str_eqb_eq in H3. repeat split; assumption.
Qed.

Lemma split_slash_cons (c : char) (s : str) :
  Path.split_slash (c :: s)
  = if c =? SLASH then [] :: Path.split_slash s
    else cons_to_first c (Path.split_slash s).
Proof. reflexivity. Qed.

Lemma split_slash_not_nil (s : str) : Path.split_slash s <> [].
Proof.
  induction s as [|c s IH]; [discriminate|]. rewrite split_slash_cons.
  destruct (c =? SLASH); [discriminate|].
  destruct (Path.split_slash s); discriminate.
Qed.

Lemma cons_to_first_app (c : char) (a b : list str) :
  a <> [] -> cons_to_first c (a ++ b) = cons_to_first c a ++ b.
Proof. destruct a; [congruence | reflexivity]. Qed.

Lemma split_slash_app (a b : str) :
  Path.split_slash (a ++ SLASH :: b) = Path.split_slash a ++ Path.split_slash b.
Proof.
  induction a as [|c a IH].
  - reflexivity.
  - change ((c :: a) ++ SLASH :: b) with (c :: (a ++ SLASH :: b)).
    rewrite !split_slash_cons, IH. destruct (c =? SLASH); [reflexivity|].
    apply cons_to_first_app, split_slash_not_nil.
Qed.

Lemma split_slash_plain (s : str) :
  forallb Path.not_slash s = true -> Path.split_slash s = [s].
Proof.
  induction s as [|c s IH]; intro H; [reflexivity|].
  simpl in H. apply andb_true_iff in H as [Hc Hs].
  unfold Path.not_slash in Hc. apply negb_true_iff in Hc.
  rewrite split_slash_cons, Hc, IH by exact Hs. reflexivity.
Qed.

Lemma split_slash_join (L : list str) :
  L <> [] -> forallb seg_ok L = true ->
  Path.split_slash (join [SLASH] L) = L.
Proof.
  induction L as [|s L IH]; intros Hne H; [contradiction|].
  simpl in H. apply andb_true_iff in H as [Hs HL].
  destruct (seg_ok_inv s Hs) as (_ & Hns & _).
  destruct L as [|s' L'].
  - simpl. now apply split_slash_plain.
  - rewrite join_cons by discriminate.
    change (s ++ [SLASH] ++ join [SLASH] (s' :: L'))
      with (s ++ SLASH :: join [SLASH] (s' :: L')).
    rewrite split_slash_app, split_slash_plain, IH by (assumption || discriminate).
    reflexivity.
Qed.

Lemma normalize_segments_app (b : bool) (A B acc : list str) :
  Path.normalize_segments b (A ++ B) acc
  = Path.normalize_segments b B (Path.normalize_segments b A acc).
Proof.
  revert acc. induction A as [|s A IH]; intro acc; [reflexivity|].
  cbn [app Path.normalize_segments].
  destruct (negb (truthy s) || str_eqb s [DOT]); [apply IH|].
  destruct (str_eqb s [DOT; DOT]); [|apply IH].
  destruct acc as [|top below]; [apply IH|].
  destruct (str_eqb top [DOT; DOT]); apply IH.
Qed.

Lemma normalize_segments_ok (b : bool) (L acc : list str) :
  forallb seg_ok L = true ->
  Path.normalize_segments b L acc = rev L ++ acc.
Proof.
  revert acc. induction L as [|s L IH]; intros acc H; [reflexivity|].
  simpl in H. apply andb_true_iff in H as [Hs HL].
  destruct (seg_ok_inv s Hs) as (H1 & _ & H3 & H4).
  apply truthy_true in H1. apply str_eqb_neq in H3, H4.
  cbn [Path.normalize_segments]. rewrite H1, H3, H4. cbn [negb orb].
  rewrite IH by exact HL. simpl. now rewrite <- app_assoc.
Qed.

(** The components of a path written with single slashes. *)
Lemma normalize_segments_join (b : bool) (L acc : list str) :
  forallb seg_ok L = true ->
  Path.normalize_segments b (Path.split_slash (join [SLASH] L)) acc
  = rev L ++ acc.
Proof.
  intro H. destruct L as [|s L]; [reflexivity|].
  rewrite split_slash_join by (discriminate || exact H).
  now apply normalize_segments_ok.
Qed.

Lemma normalize_segments_rel (b : bool) (L acc : list str) :
  forallb seg_ok L = true ->
  Path.normalize_segments b (Path.split_slash (rel_of L)) acc = rev L ++ acc.
Proof.
  intro H. destruct L as [|s L]; [reflexivity|].
  now apply normalize_segments_join.
Qed.

(** ** The ends of a path made of plain names *)

Lemma trim_head_not_ws (s : str) (c : char) (r : str) :
  trim s = c :: r -> is_ws c = false.
Proof.
  unfold trim, trimStart. intro H.
  destruct (drop_while is_ws s) as [|c' r'] eqn:E; [discriminate H|].
  pose proof (drop_while_head _ _ _ _ E) as Hc.
  destruct (trimEnd_head r' c' Hc) as [r'' Hr]. rewrite Hr in H.
  now injection H as <- _.
Qed.

Lemma trim_last_not_ws (s : str) (d : char) (r : str) :
  trim s = r ++ [d] -> is_ws d = false.
Proof. unfold trim. apply trimEnd_last. Qed.

Lemma trim_fix (c d : char) (r r' : str) (s : str) :
  s = c :: r -> s = r' ++ [d] -> is_ws c = false -> is_ws d = false ->
  trim s = s.
Proof.
  intros E1 E2 Hc Hd. unfold trim, trimStart.
  rewrite E1 at 1. rewrite drop_while_fix by exact Hc. rewrite <- E1.
  rewrite E2. now apply trimEnd_fix.
Qed.

Lemma plain_good_ends (s : str) : plain_name s = true -> good_ends s.
Proof.
  intro H. destruct (plain_name_inv s H) as (Hseg & _ & Htrim).
  destruct (seg_ok_inv s Hseg) as (Hne & Hns & _).
  assert (Hall : forall c, In c s -> (c =? SLASH) = false).
  { intros c Hc. rewrite forallb_forall in Hns. specialize (Hns c Hc).
    now apply negb_true_iff in Hns. }
  split.
  - destruct s as [|c r]; [contradiction|]. exists c, r.
    repeat split.
    + now apply (trim_head_not_ws (c :: r) c r).
    + apply Hall. now left.
  - destruct (exists_last Hne) as (r & d & E). exists r, d.
    repeat split; [exact E | |].
    + apply (trim_last_not_ws s d r). now rewrite Htrim.
    + apply Hall. rewrite E. apply in_or_app. right. now left.
Qed.

Lemma join_good_ends (L : list str) :
  L <> [] -> Forall good_ends L -> good_ends (join [SLASH] L).
Proof.
  induction L as [|s L IH]; intros Hne H; [contradiction|].
  inversion H as [|? ? Hs HL]; subst.
  destruct L as [|s' L']; [exact Hs|].
  rewrite join_cons by discriminate.
  destruct Hs as [(c & r & -> & Hc1 & Hc2) _].
  destruct (IH ltac:(discriminate) HL) as [_ (r' & d & E & Hd1 & Hd2)].
  split.
  - exists c, (r ++ [SLASH] ++ join [SLASH] (s' :: L')). now repeat split.
  - exists ((c :: r) ++ [SLASH] ++ r'), d. rewrite E.
    repeat split; try assumption. now rewrite <- !app_assoc.
Qed.

Lemma rel_of_good_ends (L : list str) :
  forallb plain_name L = true -> good_ends (rel_of L).
Proof.
  intro H. destruct L as [|s L].
  - split; [exists DOT, [] | exists [], DOT]; now repeat split.
  - apply join_good_ends; [discriminate|].
    rewrite forallb_forall in H. apply Forall_forall.
    intros x Hx. apply plain_good_ends, H, Hx.
Qed.

Lemma good_ends_trim (s : str) : good_ends s -> trim s = s.
Proof.
  intros [(c & r & E1 & Hc & _) (r' & d & E2 & Hd & _)].
  now apply (trim_fix c d r r').
Qed.

Lemma good_ends_strip_leading (s : str) :
  good_ends s -> strip_leading_slashes s = s.
Proof.
  intros [(c & r & -> & _ & Hc) _]. unfold strip_leading_slashes.
  apply drop_while_fix. now rewrite N.eqb_sym.
Qed.

Lemma good_ends_strip_edge (s : str) : good_ends s -> strip_edge_slashes s = s.
Proof.
  intros [(c & r & E1 & _ & Hc) (r' & d & E2 & _ & Hd)].
  unfold strip_edge_slashes.
  assert (H1 : strip_leading_slash s = s).
  { rewrite E1. simpl. now rewrite Hc. }
  assert (H2 : rev s = d :: rev r')
    by (rewrite E2, rev_app_distr; reflexivity).
  rewrite H1, H2. simpl. rewrite Hd. simpl.
  now rewrite rev_involutive, E2.
Qed.

Lemma good_ends_not_slash_end (s : str) :
  good_ends s -> startsWith (rev s) [SLASH] = false.
Proof.
  intros [_ (r' & d & -> & _ & Hd)]. rewrite rev_app_distr. simpl.
  now rewrite Hd.
Qed.

Lemma backslashes_id (s : str) :
  forallb (fun c => negb (c =? BACKSLASH)) s = true ->
  backslashes_to_slashes s = s.
Proof.
  induction s as [|c s IH]; intro H; [reflexivity|].
  simpl in H. apply andb_true_iff in H as [Hc Hs].
  apply negb_true_iff in Hc. simpl. rewrite Hc, IH by exact Hs. reflexivity.
Qed.

Lemma forallb_join (P : char -> bool) (sep : str) (L : list str) :
  forallb P sep = true -> forallb (forallb P) L = true ->
  forallb P (join sep L) = true.
Proof.
  intro Hsep. induction L as [|s L IH]; intro H; [reflexivity|].
  simpl in H. apply andb_true_iff in H as [Hs HL].
  destruct L as [|s' L']; [exact Hs|].
  rewrite join_cons by discriminate.
  rewrite !forallb_app, Hs, Hsep, IH by exact HL. reflexivity.
Qed.

Lemma plain_names_no_backslash (L : list str) :
  forallb plain_name L = true ->
  forallb (fun c => negb (c =? BACKSLASH)) (rel_of L) = true.
Proof.
  intro H. destruct L as [|s L]; [reflexivity|].
  apply forallb_join; [reflexivity|].
  rewrite forallb_forall in *. intros x Hx.
  now destruct (plain_name_inv x (H x Hx)) as (_ & Hb & _).
Qed.

Lemma plain_names_seg_ok (L : list str) :
  forallb plain_name L = true -> forallb seg_ok L = true.
Proof.
  rewrite !forallb_forall. intros H x Hx.
  now destruct (plain_name_inv x (H x Hx)) as (Hs & _).
Qed.

Lemma collapse_plain (s : str) :
  forallb Path.not_slash s = true -> collapse_slashes s = s.
Proof.
  induction s as [|c s IH]; intro H; [reflexivity|].
  simpl in H. apply andb_true_iff in H as [Hc Hs].
  unfold Path.not_slash in Hc. apply negb_true_iff in Hc.
  rewrite collapse_slashes_cons, Hc, IH by exact Hs. reflexivity.
Qed.

Lemma collapse_app (s t : str) :
  forallb Path.not_slash s = true -> startsWith t [SLASH] = false ->
  collapse_slashes (s ++ SLASH :: t) = s ++ SLASH :: collapse_slashes t.
Proof.
  intros Hs Ht. induction s as [|c s IH].
  - cbn [app]. rewrite collapse_slashes_cons, Ht, andb_false_r. reflexivity.
  - simpl in Hs. apply andb_true_iff in Hs as [Hc Hs].
    unfold Path.not_slash in Hc. apply negb_true_iff in Hc.
    cbn [app]. rewrite collapse_slashes_cons, Hc, IH by exact Hs. reflexivity.
Qed.

Lemma collapse_join (L : list str) :
  forallb seg_ok L = true -> collapse_slashes (join [SLASH] L) = join [SLASH] L.
Proof.
  induction L as [|s L IH]; intro H; [reflexivity|].
  simpl in H. apply andb_true_iff in H as [Hs HL].
  destruct (seg_ok_inv s Hs) as (_ & Hns & _).
  destruct L as [|s' L']; [now apply collapse_plain|].
  rewrite join_cons by discriminate.
  change (s ++ [SLASH] ++ join [SLASH] (s' :: L'))
    with (s ++ SLASH :: join [SLASH] (s' :: L')).
  rewrite collapse_app, IH; try assumption; [reflexivity|].
  pose proof HL as HL'. simpl in HL'. apply andb_true_iff in HL' as [Hs' _].
  destruct (seg_ok_inv s' Hs') as (Hne' & Hns' & _).
  destruct s' as [|c' r']; [contradiction|].
  simpl in Hns'. apply andb_true_iff in Hns' as [Hc' _].
  unfold Path.not_slash in Hc'. apply negb_true_iff in Hc'.
  destruct L'; simpl; now rewrite Hc'.
Qed.

(** A path of plain names is the category path [fromRaw] makes of it. *)
Lemma fromRaw_plain (L : list str) :
  L <> [] -> forallb plain_name L = true ->
  CategoryPath.fromRaw (join [SLASH] L) = Ok (CategoryPath.make (join [SLASH] L))
  /\ join [SLASH] L <> [DOT] /\ join [SLASH] L <> [].
Proof.
  intros Hne H.
  assert (Hg : good_ends (join [SLASH] L)).
  { destruct L; [contradiction|]. now apply (rel_of_good_ends (s :: L)). }
  assert (Hb : backslashes_to_slashes (join [SLASH] L) = join [SLASH] L).
  { apply backslashes_id. destruct L; [contradiction|].
    now apply (plain_names_no_backslash (s :: L)). }
  assert (Hclean : CategoryPath.cleaned (join [SLASH] L) = join [SLASH] L).
  { unfold CategoryPath.cleaned.
    rewrite good_ends_trim, Hb, collapse_join, good_ends_strip_edge;
      try assumption; [reflexivity | now apply plain_names_seg_ok]. }
  assert (Hnil : join [SLASH] L <> []).
  { destruct Hg as [(c & r & E & _) _]. rewrite E. discriminate. }
  repeat split; try assumption.
  - unfold CategoryPath.fromRaw. rewrite Hclean.
    destruct (join [SLASH] L); [contradiction | reflexivity].
  - destruct L as [|s [|s' L']]; [contradiction | |].
    + simpl. simpl in H. rewrite andb_true_r in H.
      destruct (plain_name_inv s H) as (Hs & _).
      now destruct (seg_ok_inv s Hs) as (_ & _ & Hd & _).
    + rewrite join_cons by discriminate. simpl in H.
      apply andb_true_iff in H as [Hs _].
      destruct (plain_good_ends s Hs) as [(c & r & -> & _) _].
      simpl. intro E. injection E as _ E. destruct r; discriminate E.
Qed.

(** ** Resolving the paths of the walk *)

Lemma normalize_rel (c : char) (p' : str) :
  (c =? SLASH) = false ->
  startsWith (rev (c :: p')) [SLASH] = false ->
  join [SLASH] (rev (Path.normalize_segments true (Path.split_slash (c :: p')) []))
  <> [] ->
  Path.normalize (c :: p')
  = join [SLASH] (rev (Path.normalize_segments true (Path.split_slash (c :: p')) [])).
Proof.
  intros Hc H Hne. unfold Path.normalize. rewrite H, Hc. cbn [negb].
  destruct (join [SLASH] _); [contradiction | reflexivity].
Qed.

Lemma ends_app (a s : str) :
  startsWith (rev s) [SLASH] = false -> s <> [] ->
  startsWith (rev (a ++ s)) [SLASH] = false.
Proof.
  intros H Hne. rewrite rev_app_distr.
  destruct (rev s) as [|d r] eqn:E.
  - apply (f_equal (@rev char)) in E. rewrite rev_involutive in E.
    contradiction.
  - exact H.
Qed.

Lemma good_ends_truthy (s : str) : good_ends s -> truthy s = true.
Proof. intros [(c & r & -> & _) _]. reflexivity. Qed.

Lemma good_ends_not_nil (s : str) : good_ends s -> s <> [].
Proof. intros [(c & r & -> & _) _]. discriminate. Qed.

Lemma entry_rel (L : list str) (name : str) :
  forallb plain_name L = true -> plain_name name = true ->
  strip_leading_slashes (backslashes_to_slashes (Path.join (rel_of L) name))
  = rel_of (L ++ [name]).
Proof.
  intros HL Hn.
  assert (HLn : forallb plain_name (L ++ [name]) = true)
    by (rewrite forallb_app, HL; simpl; now rewrite Hn).
  pose proof (rel_of_good_ends L HL) as Hg.
  pose proof (plain_good_ends name Hn) as Hgn.
  pose proof (rel_of_good_ends _ HLn) as Hgj.
  assert (Erel : rel_of (L ++ [name]) = join [SLASH] (L ++ [name]))
    by (destruct L; reflexivity).
  assert (Ejoin : Path.join (rel_of L) name = join [SLASH] (L ++ [name])).
  { unfold Path.join.
    rewrite (good_ends_truthy _ Hg), (good_ends_truthy _ Hgn).
    destruct Hg as [(c & r & Ec & _ & Hc) _]. rewrite Ec.
    change ((c :: r) ++ [SLASH] ++ name) with (c :: (r ++ SLASH :: name)).
    assert (Hbody :
      join [SLASH]
        (rev (Path.normalize_segments true
                (Path.split_slash (c :: (r ++ SLASH :: name))) []))
      = join [SLASH] (L ++ [name])).
    { change (c :: (r ++ SLASH :: name)) with ((c :: r) ++ SLASH :: name).
      rewrite <- Ec, split_slash_app, normalize_segments_app.
      rewrite normalize_segments_rel by now apply plain_names_seg_ok.
      destruct (plain_name_inv name Hn) as (Hseg & _).
      destruct (seg_ok_inv name Hseg) as (_ & Hns & _).
      rewrite split_slash_plain by exact Hns.
      rewrite normalize_segments_ok by (simpl; now rewrite Hseg).
      rewrite app_nil_r, <- rev_app_distr, rev_involutive. reflexivity. }
    rewrite normalize_rel; [exact Hbody | exact Hc | |].
    - replace (c :: (r ++ SLASH :: name)) with ((c :: r ++ [SLASH]) ++ name)
        by (simpl; rewrite <- app_assoc; reflexivity).
      apply ends_app; [now apply good_ends_not_slash_end
                      | now apply good_ends_not_nil].
    - rewrite Hbody, <- Erel. now apply good_ends_not_nil. }
  rewrite Ejoin, <- Erel.
  rewrite backslashes_id by now apply plain_names_no_backslash.
  now apply good_ends_strip_leading.
Qed.

(** ** Trees *)

Lemma lookup_app (d : node) (a b : list str) :
  lookup d (a ++ b)
  = match lookup d a with
    | Some n => lookup n b
    | None => None
    end.
Proof.
  revert d. induction a as [|s a IH]; intro d; [reflexivity|].
  simpl. destruct d as [x|es]; [reflexivity|].
  destruct (lookup_entry s es); [apply IH | reflexivity].
Qed.

Lemma lookup_entry_some (name : str) (es : list (str * node)) (c : node) :
  lookup_entry name es = Some c -> In (name, c) es.
Proof.
  induction es as [|[n c'] es IH]; simpl; [discriminate|].
  destruct (str_eqb n name) eqn:E.
  - apply str_eqb_eq in E. subst n. intro H. injection H as ->. now left.
  - intro H. right. now apply IH.
Qed.

Lemma lookup_entry_in (name : str) (es : list (str * node)) (c : node) :
  names_distinct (map fst es) = true -> In (name, c) es ->
  lookup_entry name es = Some c.
Proof.
  induction es as [|[n c'] es IH]; simpl; [tauto|].
  intros Hd Hin. apply andb_true_iff in Hd as [Hn Hd].
  destruct Hin as [E | Hin].
  - injection E as -> ->. now rewrite str_eqb_refl.
  - destruct (str_eqb n name) eqn:E; [|now apply IH].
    apply str_eqb_eq in E. subst n. exfalso.
    apply negb_true_iff in Hn. apply (in_map fst) in Hin. simpl in Hin.
    assert (Hex : existsb (str_eqb name) (map fst es) = true).
    { apply existsb_exists. exists name. split; [exact Hin | apply str_eqb_refl]. }
    congruence.
Qed.

Lemma tidy_entries (es : list (str * node)) :
  tidy (Dir es) = true ->
  names_distinct (map fst es) = true
  /\ forall name c, In (name, c) es ->
       tidy c = true /\ (is_dir c = true -> plain_name name = true).
Proof.
  simpl. intro H. apply andb_true_iff in H as [Hd H]. split; [exact Hd|].
  clear Hd. induction es as [|[n c'] es IH]; intros name c Hin; [destruct Hin|].
  apply andb_true_iff in H as [H Hrest]. apply andb_true_iff in H as [Hp Ht].
  destruct Hin as [E | Hin].
  - injection E as -> ->. split; [exact Ht|]. intro Hdir. now rewrite Hdir in Hp.
  - now apply IH.
Qed.

Lemma height_child (es : list (str * node)) (name : str) (c : node) :
  In (name, c) es -> (height c < height (Dir es))%nat.
Proof.
  simpl. induction es as [|[n c'] es IH]; intro Hin; [destruct Hin|].
  destruct Hin as [E | Hin].
  - injection E as -> ->. lia.
  - specialize (IH Hin). lia.
Qed.

Lemma height_lookup (segs : list str) :
  forall d n, lookup d segs = Some n -> (height n <= height d)%nat.
Proof.
  induction segs as [|s segs IH]; intros d n H; simpl in H.
  - injection H as ->. lia.
  - destruct d as [x|es]; [discriminate|].
    destruct (lookup_entry s es) as [c|] eqn:E; [|discriminate].
    apply lookup_entry_some, height_child in E. apply IH in H. lia.
Qed.

(** ** Normalizing a path does not change where it leads *)

Lemma split_slash_pieces (p : str) : forallb piece (Path.split_slash p) = true.
Proof.
  induction p as [|c p IH]; [reflexivity|]. rewrite split_slash_cons.
  destruct (c =? SLASH) eqn:E; [exact IH|].
  destruct (Path.split_slash p) as [|s rest]; [now (simpl; unfold Path.not_slash; rewrite E)|].
  simpl in *. apply andb_true_iff in IH as [Hs Hrest].
  unfold piece at 1. simpl. unfold Path.not_slash at 1. rewrite E.
  fold (piece s). now rewrite Hs, Hrest.
Qed.

Lemma all_dd_settled (acc : list str) : forallb is_dd acc = true -> settled acc = true.
Proof.
  induction acc as [|top below IH]; [reflexivity|]. simpl.
  intro H. apply andb_true_iff in H as [Ht Hb]. now rewrite Ht.
Qed.

Lemma settled_below (top : str) (below : list str) :
  settled (top :: below) = true -> settled below = true.
Proof. simpl. destruct (is_dd top); [apply all_dd_settled | auto]. Qed.

Lemma all_dd_filter (acc : list str) :
  forallb is_dd acc = true -> filter not_dd acc = [].
Proof.
  induction acc as [|top below IH]; [reflexivity|]. simpl.
  intro H. apply andb_true_iff in H as [Ht Hb]. unfold not_dd at 1.
  rewrite Ht. simpl. auto.
Qed.

Lemma normalize_segments_cons (b : bool) (seg : str) (rest acc : list str) :
  Path.normalize_segments b (seg :: rest) acc
  = if negb (truthy seg) || str_eqb seg [DOT] then
      Path.normalize_segments b rest acc
    else if is_dd seg then
      match acc with
      | top :: below =>
          if is_dd top then
            Path.normalize_segments b rest (if b then seg :: acc else acc)
          else Path.normalize_segments b rest below
      | [] => Path.normalize_segments b rest (if b then [seg] else [])
      end
    else Path.normalize_segments b rest (seg :: acc).
Proof. reflexivity. Qed.

Lemma normalize_segments_kept (b : bool) (S acc : list str) :
  forallb piece S = true -> forallb kept acc = true ->
  forallb kept (Path.normalize_segments b S acc) = true.
Proof.
  revert acc. induction S as [|seg rest IH]; intros acc HS Hacc; [exact Hacc|].
  simpl in HS. apply andb_true_iff in HS as [Hseg Hrest].
  rewrite normalize_segments_cons.
  destruct (negb (truthy seg) || str_eqb seg [DOT]) eqn:E1; [now apply IH|].
  apply orb_false_iff in E1 as [Et Ed]. apply negb_false_iff in Et.
  assert (Hk : kept seg = true) by (unfold kept; now rewrite Et, Ed, Hseg).
  destruct (is_dd seg).
  - destruct acc as [|top below].
    + apply IH; [exact Hrest|]. destruct b; simpl; [now rewrite Hk | reflexivity].
    + pose proof Hacc as Hacc'. simpl in Hacc'.
      apply andb_true_iff in Hacc' as [_ Hbelow].
      destruct (is_dd top); [|now apply IH].
      apply IH; [exact Hrest|]. destruct b; [|exact Hacc].
      simpl. simpl in Hacc. now rewrite Hk, Hacc.
  - apply IH; [exact Hrest|]. simpl. now rewrite Hk, Hacc.
Qed.

(** Below the root there is no parent to go to: the components found
    without going above it are those found with it, short of the [..] left
    at the bottom. *)
Lemma normalize_segments_filter (b : bool) (S acc : list str) :
  settled acc = true ->
  Path.normalize_segments false S (filter not_dd acc)
  = filter not_dd (Path.normalize_segments b S acc).
Proof.
  revert acc. induction S as [|seg rest IH]; intros acc Hacc; [reflexivity|].
  rewrite !normalize_segments_cons.
  destruct (negb (truthy seg) || str_eqb seg [DOT]); [now apply IH|].
  destruct (is_dd seg) eqn:Edd.
  - destruct acc as [|top below].
    + cbn [filter].
      assert (Hall : forallb is_dd (if b then [seg] else []) = true)
        by (destruct b; simpl; now rewrite ?Edd).
      rewrite <- IH by now apply all_dd_settled.
      now rewrite (all_dd_filter _ Hall).
    + cbn [filter]. unfold not_dd at 1. simpl in Hacc.
      destruct (is_dd top) eqn:Et; cbn [negb].
      * rewrite (all_dd_filter _ Hacc).
        assert (Hall : forallb is_dd (if b then seg :: top :: below
                                      else top :: below) = true)
          by (destruct b; simpl; now rewrite ?Edd, Et, Hacc).
        rewrite <- IH by now apply all_dd_settled.
        now rewrite (all_dd_filter _ Hall).
      * rewrite Et. now apply IH.
  - rewrite <- IH by (simpl; now rewrite Edd).
    cbn [filter]. unfold not_dd at 2. now rewrite Edd.
Qed.

Lemma normalize_segments_settled (b : bool) (S acc : list str) :
  settled acc = true -> settled (Path.normalize_segments b S acc) = true.
Proof.
  revert acc. induction S as [|seg rest IH]; intros acc Hacc; [exact Hacc|].
  rewrite normalize_segments_cons.
  destruct (negb (truthy seg) || str_eqb seg [DOT]); [now apply IH|].
  destruct (is_dd seg) eqn:Edd.
  - destruct acc as [|top below].
    + apply IH. destruct b; simpl; [now rewrite Edd | reflexivity].
    + destruct (is_dd top) eqn:Et.
      * apply IH. destruct b; [|exact Hacc]. simpl. rewrite Edd. simpl.
        simpl in Hacc. now rewrite Et in *.
      * apply IH. simpl in Hacc. now rewrite Et in Hacc.
  - apply IH. simpl. now rewrite Edd.
Qed.

(** Read from the bottom, a settled stack of kept components gives itself
    back, short of its [..]. *)
Lemma normalize_segments_rev (T : list str) :
  settled T = true -> forallb kept T = true ->
  Path.normalize_segments false (rev T) [] = filter not_dd T.
Proof.
  induction T as [|top below IH]; intros Hs Hk; [reflexivity|].
  simpl in Hk. apply andb_true_iff in Hk as [Hkt Hkb].
  simpl rev. rewrite normalize_segments_app, IH
    by (try exact Hkb; now apply settled_below in Hs).
  unfold kept in Hkt. apply andb_true_iff in Hkt as [Hkt _].
  apply andb_true_iff in Hkt as [Ht Hd]. apply negb_true_iff in Hd.
  rewrite normalize_segments_cons, Ht, Hd. cbn [negb orb].
  simpl in Hs. cbn [filter Path.normalize_segments].
  assert (Hn : not_dd top = negb (is_dd top)) by reflexivity. rewrite Hn.
  destruct (is_dd top) eqn:Et; cbn [negb].
  - now rewrite (all_dd_filter _ Hs).
  - reflexivity.
Qed.

Lemma split_slash_join_pieces (L : list str) :
  L <> [] -> forallb piece L = true -> Path.split_slash (join [SLASH] L) = L.
Proof.
  induction L as [|s L IH]; intros Hne H; [contradiction|].
  simpl in H. apply andb_true_iff in H as [Hs HL].
  destruct L as [|s' L'].
  - simpl. now apply split_slash_plain.
  - rewrite join_cons by discriminate.
    change (s ++ [SLASH] ++ join [SLASH] (s' :: L'))
      with (s ++ SLASH :: join [SLASH] (s' :: L')).
    rewrite split_slash_app, split_slash_plain, IH by (assumption || discriminate).
    reflexivity.
Qed.

Lemma kept_piece (L : list str) : forallb kept L = true -> forallb piece L = true.
Proof.
  rewrite !forallb_forall. intros H x Hx. specialize (H x Hx).
  unfold kept in H. now apply andb_true_iff in H as [_ H].
Qed.

Lemma join_kept_nil (L : list str) :
  forallb kept L = true -> truthy (join [SLASH] L) = false -> L = [].
Proof.
  destruct L as [|s L]; [reflexivity|]. simpl forallb. intros H Hj. exfalso.
  apply andb_true_iff in H as [Hs _]. unfold kept in Hs.
  apply andb_true_iff in Hs as [Hs _]. apply andb_true_iff in Hs as [Hs _].
  destruct s as [|c s]; [discriminate Hs|].
  destruct L; discriminate Hj.
Qed.

Lemma forallb_rev {A : Type} (P : A -> bool) (l : list A) :
  forallb P (rev l) = forallb P l.
Proof.
  induction l as [|a l IH]; [reflexivity|]. simpl.
  rewrite forallb_app, IH. simpl. rewrite andb_true_r. apply andb_comm.
Qed.

(** [path.normalize] keeps the place a path leads to. *)
Lemma fs_segments_normalize (p : str) :
  fs_segments (Path.normalize p) = fs_segments p.
Proof.
  destruct p as [|c0 p']; [reflexivity|].
  set (p := c0 :: p'). unfold fs_segments. f_equal.
  set (b := negb (c0 =? SLASH)).
  set (T := Path.normalize_segments b (Path.split_slash p) []).
  assert (HT : settled T = true) by now apply normalize_segments_settled.
  assert (Hk : forallb kept T = true)
    by (apply normalize_segments_kept; [apply split_slash_pieces | reflexivity]).
  assert (Hp : Path.normalize_segments false (Path.split_slash p) []
               = filter not_dd T)
    by apply (normalize_segments_filter b (Path.split_slash p) [] eq_refl).
  rewrite Hp. unfold Path.normalize. subst p. cbv iota.
  fold b. fold (Path.split_slash (c0 :: p')). fold T.
  destruct (truthy (join [SLASH] (rev T))) eqn:Ebody; cbn [negb].
  - assert (Hne : rev T <> []).
    { intro E. rewrite E in Ebody. discriminate Ebody. }
    assert (Hsplit : Path.split_slash (join [SLASH] (rev T)) = rev T).
    { apply split_slash_join_pieces; [exact Hne|].
      rewrite forallb_rev. now apply kept_piece. }
    assert (Hbody :
              Path.normalize_segments false
                (Path.split_slash
                   (if startsWith (rev (c0 :: p')) [SLASH]
                    then join [SLASH] (rev T) ++ [SLASH]
                    else join [SLASH] (rev T))) []
              = filter not_dd T).
    { destruct (startsWith (rev (c0 :: p')) [SLASH]).
      - rewrite split_slash_app, Hsplit, normalize_segments_app.
        rewrite normalize_segments_rev by assumption. reflexivity.
      - rewrite Hsplit. now apply normalize_segments_rev. }
    destruct (c0 =? SLASH).
    + rewrite split_slash_cons. change (SLASH =? SLASH) with true. cbv iota.
      rewrite normalize_segments_cons. cbn [truthy negb orb].
      exact Hbody.
    + exact Hbody.
  - assert (HTnil : T = []).
    { rewrite <- (rev_involutive T).
      rewrite (join_kept_nil (rev T)); [reflexivity | | exact Ebody].
      now rewrite forallb_rev. }
    rewrite HTnil.
    destruct (c0 =? SLASH); [reflexivity|].
    destruct (startsWith (rev (c0 :: p')) [SLASH]); reflexivity.
Qed.

Lemma fs_segments_below (a : str) (L : list str) :
  forallb plain_name L = true ->
  fs_segments (a ++ SLASH :: rel_of L) = fs_segments a ++ L.
Proof.
  intro HL. unfold fs_segments.
  rewrite split_slash_app, normalize_segments_app.
  rewrite normalize_segments_rel by now apply plain_names_seg_ok.
  now rewrite rev_app_distr, rev_involutive.
Qed.

(** Where [resolveAbsolute] leads for the directory at the components [L]:
    to these components below the workspace root, whatever the root. *)
Lemma resolve_below (root : str) (L : list str) :
  forallb plain_name L = true ->
  fs_segments (FsWorkspace.resolveAbsolute root (rel_of L))
  = fs_segments root ++ L.
Proof.
  intro HL. pose proof (rel_of_good_ends L HL) as Hg.
  unfold FsWorkspace.resolveAbsolute.
  rewrite backslashes_id by now apply plain_names_no_backslash.
  rewrite good_ends_strip_leading by exact Hg.
  unfold Path.join. rewrite (good_ends_truthy _ Hg).
  destruct root as [|c root'].
  - cbn [truthy]. rewrite fs_segments_normalize.
    unfold fs_segments.
    rewrite normalize_segments_rel by now apply plain_names_seg_ok.
    now rewrite app_nil_r, rev_involutive.
  - cbn [truthy]. rewrite fs_segments_normalize.
    change ((c :: root') ++ [SLASH] ++ rel_of L)
      with ((c :: root') ++ SLASH :: rel_of L).
    now apply fs_segments_below.
Qed.

(** ** Listing the categories *)

Lemma calm_ret {A : Type} (a : A) : calm (ret a).
Proof. intros w H. exact H. Qed.

Lemma calm_throw {A : Type} (e : exn) : calm (@throw A e).
Proof. intros w H. exact H. Qed.

Lemma calm_bind {A B : Type} (m : M A) (k : A -> M B) :
  calm m -> (forall a, calm (k a)) -> calm (bind m k).
Proof.
  intros Hm Hk w H. rewrite bind_run. specialize (Hm w H).
  destruct (fst (m w)) as [e|a]; [exact Hm | now apply Hk].
Qed.

Lemma calm_tl (w : world) : calm_world w -> forallb negb (tl (faults w)) = true.
Proof.
  unfold calm_world. destruct (faults w) as [|b fs]; simpl; [auto|].
  intro H. now apply andb_true_iff in H as [_ H].
Qed.

Lemma calm_hd (w : world) : calm_world w -> hd false (faults w) = false.
Proof.
  unfold calm_world. destruct (faults w) as [|b fs]; simpl; [auto|].
  intro H. apply andb_true_iff in H as [H _]. now apply negb_true_iff in H.
Qed.

Lemma calm_fs_call {A : Type} (op : fs_op) (run : node -> result (A * node)) :
  calm (fs_call op run).
Proof.
  intros w H. unfold fs_call, calm_world.
  destruct (if hd false (faults w) then _ else _) as [e|[a d']];
    now apply calm_tl.
Qed.

Lemma calm_for_each {A S : Type} (body : A -> S -> M S) (l : list A) :
  (forall a s, calm (body a s)) -> forall s, calm (for_each body l s).
Proof.
  intro H. induction l as [|a l IH]; intro s; simpl.
  - apply calm_ret.
  - apply calm_bind; [apply H | exact IH].
Qed.

Lemma calm_walk (root : str) (fuel : nat) :
  forall currentRel categories,
    calm (FsWorkspace.walk root fuel currentRel categories).
Proof.
  induction fuel as [|fuel IH]; intros currentRel categories; simpl.
  - apply calm_throw.
  - apply calm_bind; [apply calm_fs_call|].
    intro entries. apply calm_for_each. intros [name isdir] s.
    simpl. destruct isdir; [apply IH | apply calm_ret].
Qed.

Lemma readdir_ok (p : str) (w : world) (es : list (str * node)) :
  calm_world w -> lookup (disk w) (fs_segments p) = Some (Dir es) ->
  fst (fs.readdir p w) = Ok (map dirent_of es).
Proof.
  intros Hc Hl. unfold fs.readdir, fs_call. rewrite (calm_hd w Hc).
  unfold fs_readdir. rewrite Hl. reflexivity.
Qed.

Lemma walk_unfold (root : str) (fuel : nat) (currentRel : str) (cats : list str) :
  FsWorkspace.walk root (S fuel) currentRel cats
  = bind (fs.readdir (FsWorkspace.resolveAbsolute root currentRel))
      (fun entries =>
         for_each (walk_body (FsWorkspace.walk root fuel) currentRel) entries cats).
Proof. reflexivity. Qed.

Lemma set_has_in (x : str) (s : list str) : set_has x s = true <-> In x s.
Proof.
  unfold set_has. rewrite existsb_exists. split.
  - intros (y & Hy & E). apply str_eqb_eq in E. now subst.
  - intro H. exists x. split; [exact H | apply str_eqb_refl].
Qed.

Lemma set_add_in (x y : str) (s : list str) :
  In y (set_add x s) <-> y = x \/ In y s.
Proof.
  unfold set_add. destruct (set_has x s) eqn:E.
  - apply set_has_in in E. split; [auto | intros [-> | H]; assumption].
  - rewrite in_app_iff. simpl. intuition.
Qed.

Lemma set_add_nodup (x : str) (s : list str) : NoDup s -> NoDup (set_add x s).
Proof.
  intro H. unfold set_add. destruct (set_has x s) eqn:E; [exact H|].
  apply NoDup_app; [exact H | repeat constructor; auto |].
  intros y Hy [<- | []].
  apply set_has_in in Hy. congruence.
Qed.

Lemma lookup_file (x : str) (segs : list str) (es : list (str * node)) :
  lookup (File x) segs <> Some (Dir es).
Proof. destruct segs; discriminate. Qed.

Lemma loop_ok (root : str) (L : list str) (f : nat) (es : list (str * node)) :
  walk_spec root f ->
  forallb plain_name L = true ->
  tidy (Dir es) = true ->
  (height (Dir es) <= S f)%nat ->
  forall rest cats w,
    incl rest es ->
    lookup (disk w) (fs_segments root ++ L) = Some (Dir es) ->
    calm_world w -> NoDup cats ->
    exists cats',
      fst (for_each (walk_body (FsWorkspace.walk root f) (rel_of L))
             (map dirent_of rest) cats w) = Ok cats'
      /\ NoDup cats'
      /\ forall x,
           In x cats' <->
           In x cats
           \/ exists name es1,
                In (name, Dir es1) rest
                /\ exists segs es',
                     lookup (Dir es1) segs = Some (Dir es')
                     /\ x = join [SLASH] (L ++ name :: segs).
Proof.
  intros IH HL Htidy Hh.
  destruct (tidy_entries es Htidy) as [Hdist Hent].
  induction rest as [|[name child] rest IHrest]; intros cats w Hincl Hlook Hcalm Hnd.
  - exists cats. repeat split; [exact Hnd | auto |].
    intros [H | (name & es1 & [] & _)]. exact H.
  - assert (Hin : In (name, child) es) by (apply Hincl; now left).
    assert (Hincl' : incl rest es) by (intros e He; apply Hincl; now right).
    destruct (Hent name child Hin) as [Htc Hplain].
    cbn [map for_each]. rewrite bind_run.
    destruct child as [data|es1].
    + (* a file: nothing is added *)
      cbn [dirent_of walk_body fst snd is_dir ret].
      destruct (IHrest cats w Hincl' Hlook Hcalm Hnd) as (cats' & E & Hnd' & Hmem).
      exists cats'. repeat split; [exact E | exact Hnd' | |].
      * intro Hx. apply Hmem in Hx as [Hx | (n & e1 & Hn & Hrest)]; [now left|].
        right. exists n, e1. split; [now right | exact Hrest].
      * intros [Hx | (n & e1 & [Hn | Hn] & Hrest)]; apply Hmem.
        -- now left.
        -- discriminate Hn.
        -- right. exists n, e1. now split.
    + (* a directory: its path is added, and it is walked *)
      specialize (Hplain eq_refl).
      assert (HL' : forallb plain_name (L ++ [name]) = true)
        by (rewrite forallb_app, HL; simpl; now rewrite Hplain).
      cbn [dirent_of walk_body fst snd is_dir].
      rewrite (entry_rel L name HL Hplain).
      set (entryRel := rel_of (L ++ [name])).
      assert (Erel : entryRel = join [SLASH] (L ++ [name]))
        by (unfold entryRel; destruct L; reflexivity).
      assert (Hlook1 : lookup (disk w) (fs_segments root ++ L ++ [name])
                       = Some (Dir es1)).
      { rewrite app_assoc, lookup_app, Hlook. simpl.
        now rewrite (lookup_entry_in name es (Dir es1) Hdist Hin). }
      assert (Hh1 : (height (Dir es1) <= f)%nat).
      { pose proof (height_child es name (Dir es1) Hin). lia. }
      destruct (IH (L ++ [name]) es1 (set_add entryRel cats) w HL' Hlook1 Htc Hh1
                  Hcalm (set_add_nodup _ _ Hnd))
        as (cats1 & E1 & Hnd1 & Hmem1).
      fold entryRel in E1. rewrite E1.
      set (w1 := snd (FsWorkspace.walk root f entryRel
                        (set_add entryRel cats) w)).
      assert (Hd1 : disk w1 = disk w) by apply read_only_walk.
      assert (Hc1 : calm_world w1) by (apply calm_walk; exact Hcalm).
      rewrite <- Hd1 in Hlook.
      destruct (IHrest cats1 w1 Hincl' Hlook Hc1 Hnd1) as (cats' & E & Hnd' & Hmem).
      exists cats'. repeat split; [exact E | exact Hnd' | |].
      * intro Hx. apply Hmem in Hx as [Hx | (n & e1 & Hn & Hrest)].
        -- apply Hmem1 in Hx as [Hx | (segs & es' & Hne & Hl & ->)].
           ++ apply set_add_in in Hx as [-> | Hx]; [|now left].
              right. exists name, es1. split; [now left|].
              exists [], es1. split; [reflexivity | exact Erel].
           ++ right. exists name, es1. split; [now left|].
              exists segs, es'. split; [exact Hl|]. now rewrite <- app_assoc.
        -- right. exists n, e1. split; [now right | exact Hrest].
      * intros [Hx | (n & e1 & [Hn | Hn] & segs & es' & Hl & ->)]; apply Hmem.
        -- left. apply Hmem1. left. apply set_add_in. now right.
        -- injection Hn as <- <-. left. apply Hmem1.
           destruct segs as [|s segs].
           ++ left. apply set_add_in. left. now rewrite Erel.
           ++ right. exists (s :: segs), es'. split; [discriminate|].
              split; [exact Hl|]. now rewrite <- app_assoc.
        -- right. exists n, e1. split; [exact Hn|]. now exists segs, es'.
Qed.

Lemma walk_ok (root : str) (fuel : nat) : walk_spec root fuel.
Proof.
  induction fuel as [|f IH];
    intros L es cats w HL Hlook Htidy Hh Hcalm Hnd.
  - simpl in Hh. lia.
  - rewrite walk_unfold, bind_run.
    assert (Hseg : fs_segments (FsWorkspace.resolveAbsolute root (rel_of L))
                   = fs_segments root ++ L)
      by now apply resolve_below.
    rewrite (readdir_ok _ w es Hcalm) by (rewrite Hseg; exact Hlook).
    set (w0 := snd (fs.readdir _ w)).
    assert (Hd0 : disk w0 = disk w) by (apply read_only_fs_call; reflexivity).
    assert (Hc0 : calm_world w0) by (apply calm_fs_call; exact Hcalm).
    rewrite <- Hd0 in Hlook.
    destruct (loop_ok root L f es IH HL Htidy Hh es cats w0 (incl_refl es) Hlook
                Hc0 Hnd) as (cats' & E & Hnd' & Hmem).
    destruct (tidy_entries es Htidy) as [Hdist _].
    exists cats'. repeat split; [exact E | exact Hnd' | |].
    + intro Hx. apply Hmem in Hx as [Hx | (n & e1 & Hn & segs & es' & Hl & ->)];
        [now left|].
      right. exists (n :: segs), es'. split; [discriminate|]. split; [|reflexivity].
      simpl. now rewrite (lookup_entry_in n es (Dir e1) Hdist Hn).
    + intros [Hx | (segs & es' & Hne & Hl & ->)]; apply Hmem; [now left|].
      right. destruct segs as [|n segs]; [contradiction|]. simpl in Hl.
      destruct (lookup_entry n es) as [[x|e1]|] eqn:El; try discriminate.
      * exfalso. now apply (lookup_file x segs es').
      * exists n, e1. split; [now apply lookup_entry_some|]. now exists segs, es'.
Qed.

Lemma build_result_ok (cats : list str) (acc : list CategoryPath.t) :
  (forall x, In x cats ->
     CategoryPath.fromRaw x = Ok (CategoryPath.make x) /\ x <> [DOT] /\ x <> []) ->
  FsWorkspace.build_result cats acc = Ok (acc ++ map CategoryPath.make cats).
Proof.
  revert acc. induction cats as [|x cats IH]; intros acc H; simpl.
  - now rewrite app_nil_r.
  - destruct (H x (or_introl eq_refl)) as (Hf & Hd & Hn).
    apply str_eqb_neq in Hd, Hn. rewrite Hd, Hn, Hf. cbn [orb].
    rewrite IH by (intros y Hy; apply H; now right).
    now rewrite <- app_assoc.
Qed.

Lemma nodup_map_make (cats : list str) :
  NoDup cats -> NoDup (map CategoryPath.make cats).
Proof.
  induction 1 as [|x cats Hx Hnd IH]; simpl; constructor; [|exact IH].
  intro Hin. apply in_map_iff in Hin as (y & E & Hy).
  injection E as ->. contradiction.
Qed.

Lemma tidy_lookup_plain (segs : list str) :
  forall n es',
    tidy n = true -> lookup n segs = Some (Dir es') ->
    forallb plain_name segs = true.
Proof.
  induction segs as [|s segs IH]; intros n es' Ht Hl; [reflexivity|].
  destruct n as [x|es]; [discriminate Hl|]. simpl in Hl.
  destruct (lookup_entry s es) as [c|] eqn:El; [|discriminate].
  apply lookup_entry_some in El.
  destruct (tidy_entries es Ht) as [_ Hent].
  destruct (Hent s c El) as [Htc Hplain].
  destruct c as [x|es1]; [exfalso; now apply (lookup_file x segs es')|].
  simpl. rewrite (Hplain eq_refl). now apply (IH (Dir es1) es').
Qed.

(** C7, for directories named plainly.  Whatever the workspace root: when
    no directory under it has a name with a backslash or with white space at
    either end, and the system rejects no call, [listCategories] returns;
    what it returns holds, once each, the category path of every directory
    below the root, whatever the depth, and nothing else.  The order in which
    a directory lists its entries has no part in this. *)
Theorem listCategories_complete (root : str) (w : world)
    (es : list (str * node)) :
  lookup (disk w) (fs_segments root) = Some (Dir es) ->
  tidy (Dir es) = true ->
  calm_world w ->
  exists cats,
    fst (FsWorkspace.listCategories root w) = Ok cats
    /\ (forall c,
          In c cats <->
          exists segs es',
            segs <> [] /\ lookup (Dir es) segs = Some (Dir es')
            /\ c = CategoryPath.make (join [SLASH] segs))
    /\ NoDup cats.
Proof.
  intros Hlook Htidy Hcalm.
  assert (Hlook0 : lookup (disk w) (fs_segments root ++ []) = Some (Dir es))
    by now rewrite app_nil_r.
  assert (Hh : (height (Dir es) <= S (height (disk w)))%nat).
  { pose proof (height_lookup _ (disk w) (Dir es) Hlook). lia. }
  destruct (walk_ok root (S (height (disk w))) [] es [] w eq_refl Hlook0 Htidy Hh
              Hcalm (NoDup_nil _)) as (cats & E & Hnd & Hmem).
  change (rel_of []) with [DOT] in E.
  assert (Hplain : forall x, In x cats ->
            CategoryPath.fromRaw x = Ok (CategoryPath.make x)
            /\ x <> [DOT] /\ x <> []).
  { intros x Hx. apply Hmem in Hx as [[] | (segs & es' & Hne & Hl & ->)].
    apply fromRaw_plain; [exact Hne|].
    now apply (tidy_lookup_plain segs (Dir es) es'). }
  exists (map CategoryPath.make cats). repeat split.
  - unfold FsWorkspace.listCategories. rewrite bind_run, E.
    unfold lift. cbn [fst]. now rewrite build_result_ok.
  - intro Hc. apply in_map_iff in Hc as (x & <- & Hx).
    apply Hmem in Hx as [[] | (segs & es' & Hne & Hl & ->)].
    now exists segs, es'.
  - intros (segs & es' & Hne & Hl & ->). apply in_map.
    apply Hmem. right. now exists segs, es'.
  - now apply nodup_map_make.
Qed.

Lemma listCategories_complete_witness :
  exists cats,
    fst (FsWorkspace.listCategories (lit "/ws") (listing_world spec_workspace))
    = Ok cats
    /\ (forall c,
          In c cats <->
          exists segs es',
            segs <> [] /\ lookup (Dir spec_workspace) segs = Some (Dir es')
            /\ c = CategoryPath.make (join [SLASH] segs))
    /\ NoDup cats.
Proof.
  apply (listCategories_complete (lit "/ws") (listing_world spec_workspace)
           spec_workspace); reflexivity.
Defined.

(** The workspace of the design document, in two orders of enumeration. *)
Example listCategories_spec_workspace :
  fst (FsWorkspace.listCategories (lit "/ws") (listing_world spec_workspace))
  = Ok [CategoryPath.make (lit "AI"); CategoryPath.make (lit "AI/Agents");
        CategoryPath.make (lit "Product")]
  /\ fst (FsWorkspace.listCategories (lit "/ws")
            (listing_world spec_workspace_reordered))
     = Ok [CategoryPath.make (lit "Product"); CategoryPath.make (lit "AI");
           CategoryPath.make (lit "AI/Agents")].
Proof. split; reflexivity. Qed.

(** C7, for every tree, fails.  Of two directories [ x] and [x] the listing
    has the category [x] twice and none for [ x]; a directory whose name is a
    space makes the listing fail; so does one with a backslash in its name,
    which is looked for under the path with a slash. *)
Lemma listCategories_counterexample :
  fst (FsWorkspace.listCategories (lit "/ws") (listing_world padded_workspace))
  = Ok [CategoryPath.make (lit "x"); CategoryPath.make (lit "x")]
  /\ ~ NoDup [CategoryPath.make (lit "x"); CategoryPath.make (lit "x")]
  /\ fst (FsWorkspace.listCategories (lit "/ws") (listing_world blank_workspace))
     = Throw (Error (lit "CategoryPath cannot be empty"))
  /\ fst (FsWorkspace.listCategories (lit "/ws")
            (listing_world backslash_workspace))
     = Throw ENOENT.
Proof.
  repeat split; try reflexivity.
  intro H. inversion H as [|? ? Hin _]. apply Hin. now left.
Qed.

(** ** CategoryPath: where normalizing twice is normalizing once *)

Lemma collapse_head (r : str) :
  startsWith (collapse_slashes r) [SLASH] = startsWith r [SLASH].
Proof.
  induction r as [|d r IH]; [reflexivity|]. rewrite collapse_slashes_cons.
  destruct (d =? SLASH) eqn:Ed.
  - destruct (startsWith r [SLASH]) eqn:Er; simpl andb; cbv iota.
    + rewrite IH. simpl. now rewrite Ed.
    + simpl. now rewrite Ed.
  - simpl. now rewrite Ed.
Qed.

Lemma collapse_idem (y : str) :
  collapse_slashes (collapse_slashes y) = collapse_slashes y.
Proof.
  induction y as [|c y IH]; [reflexivity|]. rewrite collapse_slashes_cons.
  destruct ((c =? SLASH) && startsWith y [SLASH]) eqn:E; [exact IH|].
  rewrite collapse_slashes_cons, collapse_head, E, IH. reflexivity.
Qed.

Lemma collapse_length (s : str) :
  (length (collapse_slashes s) <= length s)%nat.
Proof.
  induction s as [|c s IH]; [apply Nat.le_refl|]. rewrite collapse_slashes_cons.
  destruct ((c =? SLASH) && startsWith s [SLASH]); simpl; lia.
Qed.

Lemma collapse_fix_tl (c : char) (r : str) :
  collapse_slashes (c :: r) = c :: r ->
  collapse_slashes r = r /\ (c =? SLASH) && startsWith r [SLASH] = false.
Proof.
  rewrite collapse_slashes_cons.
  destruct ((c =? SLASH) && startsWith r [SLASH]).
  - intro H. exfalso. pose proof (collapse_length r) as Hl.
    rewrite H in Hl. simpl in Hl. lia.
  - intro H. injection H as H. now split.
Qed.

Lemma collapse_fix_init (r : str) (d : char) :
  collapse_slashes (r ++ [d]) = r ++ [d] -> collapse_slashes r = r.
Proof.
  induction r as [|c r IH]; intro H; [reflexivity|].
  change ((c :: r) ++ [d]) with (c :: (r ++ [d])) in H.
  apply collapse_fix_tl in H as [H Hc]. specialize (IH H).
  rewrite collapse_slashes_cons, IH.
  destruct r as [|e r']; [now rewrite andb_false_r|].
  simpl in Hc. simpl. now rewrite Hc.
Qed.

Lemma collapse_no_double_end (r : str) :
  collapse_slashes (r ++ [SLASH; SLASH]) <> r ++ [SLASH; SLASH].
Proof.
  induction r as [|c r IH]; [discriminate|].
  intro H. change ((c :: r) ++ [SLASH; SLASH]) with (c :: (r ++ [SLASH; SLASH])) in H.
  apply collapse_fix_tl in H as [H _]. contradiction.
Qed.

Lemma collapse_forallb (P : char -> bool) (s : str) :
  forallb P s = true -> forallb P (collapse_slashes s) = true.
Proof.
  induction s as [|c s IH]; [reflexivity|]. intro H. simpl in H.
  apply andb_true_iff in H as [Hc Hs]. rewrite collapse_slashes_cons.
  destruct ((c =? SLASH) && startsWith s [SLASH]); [auto|].
  simpl. now rewrite Hc, IH.
Qed.

Lemma strip_leading_slash_forallb (P : char -> bool) (s : str) :
  forallb P s = true -> forallb P (strip_leading_slash s) = true.
Proof.
  destruct s as [|c s]; [reflexivity|]. simpl. intro H.
  destruct (c =? SLASH); [|exact H]. now apply andb_true_iff in H as [_ H].
Qed.

Lemma strip_edge_forallb (P : char -> bool) (s : str) :
  forallb P s = true -> forallb P (strip_edge_slashes s) = true.
Proof.
  intro H. unfold strip_edge_slashes. rewrite forallb_rev.
  apply strip_leading_slash_forallb. rewrite forallb_rev.
  now apply strip_leading_slash_forallb.
Qed.

Lemma backslashes_gone (s : str) :
  forallb (fun c => negb (c =? BACKSLASH)) (backslashes_to_slashes s) = true.
Proof.
  induction s as [|c s IH]; [reflexivity|]. simpl. rewrite IH, andb_true_r.
  destruct (c =? BACKSLASH) eqn:E; [reflexivity | now rewrite E].
Qed.

Lemma strip_leading_slash_rev (y : str) :
  (forall t, y <> t ++ [SLASH]) -> strip_leading_slash (rev y) = rev y.
Proof.
  intro H. destruct (rev y) as [|d t] eqn:E; [reflexivity|]. simpl.
  destruct (d =? SLASH) eqn:Ed; [|reflexivity].
  exfalso. apply N.eqb_eq in Ed. subst d. apply (H (rev t)).
  rewrite <- (rev_involutive y), E. reflexivity.
Qed.

Lemma strip_leading_slash_id (y : str) :
  startsWith y [SLASH] = false -> strip_leading_slash y = y.
Proof.
  destruct y as [|c r]; [reflexivity|]. simpl. rewrite andb_true_r.
  now intros ->.
Qed.

(** What is left of a string without doubled slashes when the slashes at its
    ends are taken off has no doubled slash and no slash at its ends. *)
Lemma strip_edge_fixed (n : str) :
  collapse_slashes n = n ->
  collapse_slashes (strip_edge_slashes n) = strip_edge_slashes n
  /\ strip_edge_slashes (strip_edge_slashes n) = strip_edge_slashes n.
Proof.
  intro Hn.
  assert (Hm : collapse_slashes (strip_leading_slash n) = strip_leading_slash n
               /\ startsWith (strip_leading_slash n) [SLASH] = false).
  { destruct n as [|c r]; [now split|]. simpl.
    destruct (collapse_fix_tl c r Hn) as [Hr Hc].
    destruct (c =? SLASH) eqn:Ec.
    - split; [exact Hr | exact Hc].
    - split; [exact Hn|]. simpl. now rewrite Ec. }
  unfold strip_edge_slashes.
  set (m := strip_leading_slash n) in *. destruct Hm as [Hm Hstart].
  assert (Hx : (exists t, m = t ++ [SLASH]
                          /\ rev (strip_leading_slash (rev m)) = t)
               \/ ((forall t, m <> t ++ [SLASH])
                   /\ rev (strip_leading_slash (rev m)) = m)).
  { destruct (rev m) as [|d t] eqn:Erev.
    - right. assert (E : m = [])
        by (rewrite <- (rev_involutive m), Erev; reflexivity).
      rewrite E. split; [intros t Et; destruct t; discriminate Et | reflexivity].
    - assert (Em : m = rev t ++ [d])
        by (rewrite <- (rev_involutive m), Erev; reflexivity).
      simpl. destruct (d =? SLASH) eqn:Ed.
      + left. apply N.eqb_eq in Ed. subst d. exists (rev t). now split.
      + right. split; [|now rewrite Em].
        intros t0 E. rewrite E in Em. apply app_inj_tail in Em as [_ Em].
        subst d. discriminate Ed. }
  destruct Hx as [(t & Em & ->) | [Hnot ->]].
  - assert (Ht : collapse_slashes t = t)
      by (apply (collapse_fix_init t SLASH); rewrite <- Em; exact Hm).
    split; [exact Ht|].
    assert (Hs : startsWith t [SLASH] = false).
    { destruct t as [|c r]; [reflexivity|]. rewrite Em in Hstart. exact Hstart. }
    rewrite (strip_leading_slash_id t Hs).
    rewrite strip_leading_slash_rev; [apply rev_involutive|].
    intros t' Et. subst t. apply (collapse_no_double_end t').
    rewrite <- app_assoc in Em. simpl in Em. rewrite <- Em. exact Hm.
  - split; [exact Hm|].
    rewrite (strip_leading_slash_id m Hstart).
    rewrite strip_leading_slash_rev by exact Hnot. apply rev_involutive.
Qed.

(** The value [fromRaw] stores is accepted by [fromRaw] as it is whenever it
    has no white space at its ends. *)
Lemma fromRaw_idempotent_on_trimmed (s : str) (c : CategoryPath.t) :
  CategoryPath.fromRaw s = Ok c ->
  trim (CategoryPath.toString c) = CategoryPath.toString c ->
  CategoryPath.fromRaw (CategoryPath.toString c) = Ok c.
Proof.
  intros Hs Htrim.
  destruct (fromRaw_cases s) as [[_ E] | [Hne E]]; rewrite E in Hs;
    [discriminate|].
  injection Hs as <-. cbn [CategoryPath.toString CategoryPath.value] in *.
  set (x := CategoryPath.cleaned s) in *.
  assert (Hx : CategoryPath.cleaned x = x).
  { unfold CategoryPath.cleaned at 1. rewrite Htrim.
    assert (Hb : backslashes_to_slashes x = x).
    { apply backslashes_id. unfold x, CategoryPath.cleaned.
      apply strip_edge_forallb, collapse_forallb, backslashes_gone. }
    rewrite Hb.
    destruct (strip_edge_fixed
                (collapse_slashes (backslashes_to_slashes (trim s)))
                (collapse_idem _)) as [H1 H2].
    fold (CategoryPath.cleaned s) in H1, H2. fold x in H1, H2.
    now rewrite H1, H2. }
  unfold CategoryPath.fromRaw. rewrite Hx.
  destruct x; [contradiction | reflexivity].
Qed.

(** * Further properties

    Properties of the code beyond the claims of the design document, numbered
    X1 to X30: of [CategoryPath.fromRaw], of the note file format, of the
    paths the workspace store computes, of [loadNote], [listCategories] and
    [applyCategoryChange], of the use case as the container wires it, of the
    agent's tools and of the path the command line hands on. *)

(** ** CategoryPath: the form of a stored value *)

Lemma drop_while_length (p : char -> bool) (s : str) :
  (length (drop_while p s) <= length s)%nat.
Proof.
  induction s as [|c s IH]; [apply Nat.le_refl|]. simpl.
  destruct (p c); simpl; lia.
Qed.

Lemma drop_while_length_eq (p : char -> bool) (s : str) :
  length (drop_while p s) = length s -> drop_while p s = s.
Proof.
  destruct s as [|c s]; [reflexivity|]. simpl.
  destruct (p c); [|reflexivity].
  intro H. pose proof (drop_while_length p s). simpl in H. lia.
Qed.

Lemma trim_length (s : str) : (length (trim s) <= length s)%nat.
Proof.
  unfold trim, trimEnd, trimStart. rewrite length_rev.
  pose proof (drop_while_length is_ws (rev (drop_while is_ws s))) as H1.
  rewrite length_rev in H1.
  pose proof (drop_while_length is_ws s). lia.
Qed.

Lemma trim_length_eq (s : str) : length (trim s) = length s -> trim s = s.
Proof.
  unfold trim, trimEnd, trimStart. rewrite length_rev. intro H.
  pose proof (drop_while_length is_ws (rev (drop_while is_ws s))) as H1.
  rewrite length_rev in H1.
  pose proof (drop_while_length is_ws s) as H2.
  assert (E1 : drop_while is_ws s = s) by (apply drop_while_length_eq; lia).
  rewrite E1 in *.
  assert (E2 : drop_while is_ws (rev s) = rev s)
    by (apply drop_while_length_eq; rewrite length_rev; lia).
  rewrite E2. apply rev_involutive.
Qed.

Lemma strip_leading_slash_length (s : str) :
  (length (strip_leading_slash s) <= length s)%nat
  /\ (startsWith s [SLASH] = true ->
      (length (strip_leading_slash s) < length s)%nat).
Proof.
  destruct s as [|c s]; [split; [apply Nat.le_refl | discriminate]|].
  simpl. rewrite andb_true_r. destruct (c =? SLASH); simpl; split;
    try lia; try discriminate.
Qed.

Lemma strip_edge_length (s : str) :
  (length (strip_edge_slashes s) <= length s)%nat.
Proof.
  unfold strip_edge_slashes. rewrite length_rev.
  destruct (strip_leading_slash_length (rev (strip_leading_slash s))) as [H1 _].
  rewrite length_rev in H1.
  destruct (strip_leading_slash_length s) as [H2 _]. lia.
Qed.

Lemma strip_edge_fix_ends (v : str) :
  strip_edge_slashes v = v ->
  startsWith v [SLASH] = false /\ startsWith (rev v) [SLASH] = false.
Proof.
  intro H. assert (L : length (strip_edge_slashes v) = length v) by now rewrite H.
  unfold strip_edge_slashes in L. rewrite length_rev in L.
  destruct (strip_leading_slash_length (rev (strip_leading_slash v))) as [H1 H1'].
  rewrite length_rev in H1, H1'.
  destruct (strip_leading_slash_length v) as [H2 H2'].
  assert (Hs : startsWith v [SLASH] = false).
  { destruct (startsWith v [SLASH]); [|reflexivity]. specialize (H2' eq_refl). lia. }
  split; [exact Hs|].
  rewrite (strip_leading_slash_id v Hs) in *.
  destruct (startsWith (rev v) [SLASH]); [|reflexivity].
  specialize (H1' eq_refl). lia.
Qed.

Lemma collapse_no_double (a b : str) :
  collapse_slashes (a ++ SLASH :: SLASH :: b) <> a ++ SLASH :: SLASH :: b.
Proof.
  induction a as [|c a IH].
  - cbn [app]. rewrite collapse_slashes_cons. cbn [N.eqb startsWith andb].
    change (SLASH =? SLASH) with true. cbn [andb].
    intro H. pose proof (collapse_length (SLASH :: b)) as L.
    rewrite H in L. simpl in L. lia.
  - intro H. change ((c :: a) ++ SLASH :: SLASH :: b)
      with (c :: (a ++ SLASH :: SLASH :: b)) in H.
    apply collapse_fix_tl in H as [H _]. contradiction.
Qed.

Lemma cleaned_fixed (raw : str) :
  collapse_slashes (CategoryPath.cleaned raw) = CategoryPath.cleaned raw
  /\ strip_edge_slashes (CategoryPath.cleaned raw) = CategoryPath.cleaned raw
  /\ backslashes_to_slashes (CategoryPath.cleaned raw) = CategoryPath.cleaned raw.
Proof.
  unfold CategoryPath.cleaned.
  destruct (strip_edge_fixed
              (collapse_slashes (backslashes_to_slashes (trim raw)))
              (collapse_idem _)) as [H1 H2].
  repeat split; [exact H1 | exact H2 |].
  apply backslashes_id, strip_edge_forallb, collapse_forallb, backslashes_gone.
Qed.

Lemma fromRaw_ok_inv (raw : str) (c : CategoryPath.t) :
  CategoryPath.fromRaw raw = Ok c ->
  c = CategoryPath.make (CategoryPath.cleaned raw) /\ CategoryPath.cleaned raw <> [].
Proof.
  intro H. destruct (fromRaw_cases raw) as [[_ E] | [Hne E]]; rewrite E in H.
  - discriminate.
  - injection H as <-. now split.
Qed.

(** X1. The value [fromRaw] stores is the cleaned string; it is never empty,
    has no backslash, no two slashes in a row and no slash at either end. *)
Theorem fromRaw_normal_form (raw : str) (c : CategoryPath.t) :
  CategoryPath.fromRaw raw = Ok c ->
  CategoryPath.toString c = CategoryPath.cleaned raw
  /\ CategoryPath.toString c <> []
  /\ no_backslash (CategoryPath.toString c) = true
  /\ (forall a b, CategoryPath.toString c <> a ++ SLASH :: SLASH :: b)
  /\ startsWith (CategoryPath.toString c) [SLASH] = false
  /\ startsWith (rev (CategoryPath.toString c)) [SLASH] = false.
Proof.
  intro H. apply fromRaw_ok_inv in H as [-> Hne].
  cbn [CategoryPath.toString CategoryPath.value].
  destruct (cleaned_fixed raw) as (Hc & Hs & Hb).
  split; [reflexivity|]. split; [exact Hne|]. split.
  { unfold no_backslash, CategoryPath.cleaned.
    apply strip_edge_forallb, collapse_forallb, backslashes_gone. }
  split.
  { intros a b E. rewrite E in Hc. exact (collapse_no_double a b Hc). }
  apply strip_edge_fix_ends. exact Hs.
Qed.

Lemma fromRaw_normal_form_witness :
  CategoryPath.toString (CategoryPath.make (lit "AI/Agents/Deep Dives"))
  = CategoryPath.cleaned (lit " \\AI//Agents\\\\Deep Dives/ ")
  /\ CategoryPath.toString (CategoryPath.make (lit "AI/Agents/Deep Dives")) <> []
  /\ no_backslash (CategoryPath.toString (CategoryPath.make (lit "AI/Agents/Deep Dives")))
     = true
  /\ (forall a b,
        CategoryPath.toString (CategoryPath.make (lit "AI/Agents/Deep Dives"))
        <> a ++ SLASH :: SLASH :: b)
  /\ startsWith (CategoryPath.toString (CategoryPath.make (lit "AI/Agents/Deep Dives")))
       [SLASH] = false
  /\ startsWith
       (rev (CategoryPath.toString (CategoryPath.make (lit "AI/Agents/Deep Dives"))))
       [SLASH] = false.
Proof.
  apply (fromRaw_normal_form (lit " \\AI//Agents\\\\Deep Dives/ ")).
  reflexivity.
Defined.

(** ** CategoryPath: one category, many spellings *)

Lemma cleaned_all (s : str) :
  CategoryPath.fromRaw s
  = if negb (truthy (CategoryPath.cleaned s))
    then Throw (Error (lit "CategoryPath cannot be empty"))
    else Ok (CategoryPath.make (CategoryPath.cleaned s)).
Proof. reflexivity. Qed.

Lemma drop_while_map (f : char -> char) (p : char -> bool) (s : str) :
  (forall c, p (f c) = p c) -> drop_while p (map f s) = map f (drop_while p s).
Proof.
  intro H. induction s as [|c s IH]; [reflexivity|]. simpl.
  rewrite H. destruct (p c); [exact IH | reflexivity].
Qed.

Lemma trim_map (f : char -> char) (s : str) :
  (forall c, is_ws (f c) = is_ws c) -> trim (map f s) = map f (trim s).
Proof.
  intro H. unfold trim, trimEnd, trimStart.
  rewrite (drop_while_map f is_ws s H), <- map_rev,
    (drop_while_map f is_ws _ H), map_rev. reflexivity.
Qed.

Lemma is_ws_backslash (c : char) :
  is_ws (if c =? BACKSLASH then SLASH else c) = is_ws c.
Proof.
  destruct (c =? BACKSLASH) eqn:E; [|reflexivity].
  apply N.eqb_eq in E. subst c. reflexivity.
Qed.

Lemma backslashes_idem (s : str) :
  backslashes_to_slashes (backslashes_to_slashes s) = backslashes_to_slashes s.
Proof. apply backslashes_id, backslashes_gone. Qed.

Lemma trim_backslashes (s : str) :
  trim (backslashes_to_slashes s) = backslashes_to_slashes (trim s).
Proof. apply trim_map, is_ws_backslash. Qed.

Lemma is_ws_not_slash (c : char) : is_ws c = true -> (c =? SLASH) = false.
Proof.
  intro H. destruct (c =? SLASH) eqn:E; [|reflexivity].
  apply N.eqb_eq in E. subst c. discriminate H.
Qed.

Lemma collapse_drop_ws (s : str) :
  drop_while is_ws (collapse_slashes s) = collapse_slashes (drop_while is_ws s).
Proof.
  induction s as [|c s IH]; [reflexivity|].
  cbn [drop_while]. destruct (is_ws c) eqn:Ec.
  - rewrite collapse_slashes_cons, (is_ws_not_slash c Ec). cbn [andb drop_while].
    now rewrite Ec.
  - rewrite collapse_slashes_cons.
    destruct ((c =? SLASH) && startsWith s [SLASH]) eqn:E.
    + apply andb_true_iff in E as [_ E2].
      rewrite <- collapse_head in E2.
      destruct (collapse_slashes s) as [|d x]; [discriminate E2|].
      simpl in E2. rewrite andb_true_r in E2. apply N.eqb_eq in E2. subst d.
      reflexivity.
    + cbn [drop_while]. now rewrite Ec.
Qed.

Lemma collapse_app_plain (t w : str) :
  forallb Path.not_slash w = true ->
  collapse_slashes (t ++ w) = collapse_slashes t ++ w.
Proof.
  intro Hw. induction t as [|c t IH].
  - simpl. now apply collapse_plain.
  - cbn [app]. rewrite !collapse_slashes_cons.
    assert (E : startsWith (t ++ w) [SLASH] = startsWith t [SLASH]).
    { destruct t as [|d t']; [|reflexivity]. simpl.
      destruct w as [|e w']; [reflexivity|]. simpl in Hw |- *.
      apply andb_true_iff in Hw as [He _]. unfold Path.not_slash in He.
      apply negb_true_iff in He. now rewrite He. }
    rewrite E. destruct ((c =? SLASH) && startsWith t [SLASH]); [exact IH|].
    cbn [app]. now rewrite IH.
Qed.

Lemma ws_not_slash_all (w : str) :
  forallb is_ws w = true -> forallb Path.not_slash w = true.
Proof.
  induction w as [|c w IH]; [reflexivity|]. simpl. intro H.
  apply andb_true_iff in H as [Hc Hw]. unfold Path.not_slash at 1.
  now rewrite (is_ws_not_slash c Hc), IH.
Qed.

Lemma trimEnd_split (s : str) :
  exists w, s = trimEnd s ++ w /\ forallb is_ws w = true.
Proof.
  induction s as [|c s IH] using rev_ind.
  - exists []. now split.
  - destruct (is_ws c) eqn:Ec.
    + destruct IH as (w & E & Hw). exists (w ++ [c]). split.
      * rewrite (trimEnd_app_ws s c Ec), app_assoc, <- E. reflexivity.
      * rewrite forallb_app, Hw. simpl. now rewrite Ec.
    + exists []. rewrite (trimEnd_fix s c Ec), app_nil_r. now split.
Qed.

Lemma trimEnd_app_all (t w : str) :
  forallb is_ws w = true -> trimEnd (t ++ w) = trimEnd t.
Proof.
  intro Hw. induction w as [|c w IH] using rev_ind.
  - now rewrite app_nil_r.
  - rewrite forallb_app in Hw. apply andb_true_iff in Hw as [Hw Hc].
    simpl in Hc. rewrite andb_true_r in Hc.
    rewrite app_assoc, (trimEnd_app_ws _ c Hc). auto.
Qed.

Lemma last_cases {A : Type} (l : list A) : l = [] \/ exists r d, l = r ++ [d].
Proof. induction l using rev_ind; eauto. Qed.

Lemma collapse_last (r : str) (d : char) :
  exists x, collapse_slashes (r ++ [d]) = x ++ [d].
Proof.
  induction r as [|c r [x IH]].
  - exists []. cbn [app]. rewrite collapse_slashes_cons.
    now rewrite andb_false_r.
  - cbn [app]. rewrite collapse_slashes_cons.
    destruct ((c =? SLASH) && startsWith (r ++ [d]) [SLASH]).
    + exists x. exact IH.
    + exists (c :: x). now rewrite IH.
Qed.

Lemma trimEnd_collapse (u : str) :
  trimEnd (collapse_slashes u) = collapse_slashes (trimEnd u).
Proof.
  destruct (trimEnd_split u) as (w & E & Hw).
  rewrite E at 1.
  rewrite (collapse_app_plain _ w (ws_not_slash_all w Hw)), (trimEnd_app_all _ w Hw).
  destruct (last_cases (trimEnd u)) as [-> | (r & d & Et)]; [reflexivity|].
  rewrite Et. destruct (collapse_last r d) as [x Ex]. rewrite Ex.
  apply trimEnd_fix. exact (trimEnd_last u d r Et).
Qed.

Lemma trim_collapse (s : str) :
  trim (collapse_slashes s) = collapse_slashes (trim s).
Proof.
  unfold trim, trimStart. rewrite collapse_drop_ws. apply trimEnd_collapse.
Qed.

Lemma sep_head (r : str) :
  startsWith (backslashes_to_slashes (collapse_slashes r)) [SLASH]
  = startsWith (backslashes_to_slashes r) [SLASH].
Proof.
  destruct r as [|d r]; [reflexivity|]. rewrite collapse_slashes_cons.
  destruct ((d =? SLASH) && startsWith r [SLASH]) eqn:E; [|reflexivity].
  apply andb_true_iff in E as [Ed Er]. apply N.eqb_eq in Ed. subst d.
  pose proof (collapse_head r) as H. rewrite Er in H.
  destruct (collapse_slashes r) as [|e x]; [discriminate H|].
  simpl in H. rewrite andb_true_r in H. apply N.eqb_eq in H. subst e.
  reflexivity.
Qed.

Lemma collapse_backslashes_collapse (t : str) :
  collapse_slashes (backslashes_to_slashes (collapse_slashes t))
  = collapse_slashes (backslashes_to_slashes t).
Proof.
  induction t as [|c t IH]; [reflexivity|].
  rewrite (collapse_slashes_cons c t).
  destruct ((c =? SLASH) && startsWith t [SLASH]) eqn:E.
  - rewrite IH. apply andb_true_iff in E as [Ec Et].
    apply N.eqb_eq in Ec. subst c.
    change (backslashes_to_slashes (SLASH :: t))
      with (SLASH :: backslashes_to_slashes t).
    rewrite collapse_slashes_cons.
    destruct t as [|d t']; [discriminate Et|]. simpl in Et.
    rewrite andb_true_r in Et. apply N.eqb_eq in Et. subst d.
    reflexivity.
  - change (backslashes_to_slashes (c :: collapse_slashes t))
      with ((if c =? BACKSLASH then SLASH else c)
            :: backslashes_to_slashes (collapse_slashes t)).
    change (backslashes_to_slashes (c :: t))
      with ((if c =? BACKSLASH then SLASH else c) :: backslashes_to_slashes t).
    rewrite !collapse_slashes_cons, sep_head, IH. reflexivity.
Qed.

(** X2. [fromRaw] reads the same category from a string whether its separators
    are slashes or backslashes, single or repeated, and whatever white space
    stands around it. *)
Theorem fromRaw_same_category (s : str) :
  CategoryPath.fromRaw (backslashes_to_slashes s) = CategoryPath.fromRaw s
  /\ CategoryPath.fromRaw (collapse_slashes s) = CategoryPath.fromRaw s
  /\ CategoryPath.fromRaw (trim s) = CategoryPath.fromRaw s.
Proof.
  rewrite !cleaned_all.
  assert (E1 : CategoryPath.cleaned (backslashes_to_slashes s) = CategoryPath.cleaned s).
  { unfold CategoryPath.cleaned. now rewrite trim_backslashes, backslashes_idem. }
  assert (E2 : CategoryPath.cleaned (collapse_slashes s) = CategoryPath.cleaned s).
  { unfold CategoryPath.cleaned.
    now rewrite trim_collapse, collapse_backslashes_collapse. }
  assert (E3 : CategoryPath.cleaned (trim s) = CategoryPath.cleaned s).
  { unfold CategoryPath.cleaned. now rewrite trim_idem. }
  now rewrite E1, E2, E3.
Qed.

(** ** CategoryPath: when a stored value is read back as itself *)

Lemma cleaned_length (v : str) :
  (length (CategoryPath.cleaned v) <= length (trim v))%nat.
Proof.
  unfold CategoryPath.cleaned.
  pose proof (strip_edge_length (collapse_slashes (backslashes_to_slashes (trim v)))).
  pose proof (collapse_length (backslashes_to_slashes (trim v))) as H2.
  assert (L : length (backslashes_to_slashes (trim v)) = length (trim v))
    by apply length_map.
  lia.
Qed.

Lemma fromRaw_fixed_trimmed (v : str) :
  CategoryPath.fromRaw v = Ok (CategoryPath.make v) -> v <> [] /\ trim v = v.
Proof.
  intro H. apply fromRaw_ok_inv in H as [E Hne].
  injection E as E. rewrite <- E in Hne. split; [exact Hne|].
  apply trim_length_eq. pose proof (cleaned_length v) as L.
  rewrite <- E in L. pose proof (trim_length v). lia.
Qed.

(** X3. A category made by [fromRaw] is read back from its own string exactly
    when that string has no white space at its ends. *)
Theorem fromRaw_twice (s : str) (c : CategoryPath.t) :
  CategoryPath.fromRaw s = Ok c ->
  (CategoryPath.fromRaw (CategoryPath.toString c) = Ok c
   <-> trim (CategoryPath.toString c) = CategoryPath.toString c).
Proof.
  intro H. split.
  - destruct c as [v]. cbn [CategoryPath.toString CategoryPath.value].
    intro Hv. now apply fromRaw_fixed_trimmed in Hv.
  - apply fromRaw_idempotent_on_trimmed with (s := s). exact H.
Qed.

Lemma fromRaw_twice_witness :
  CategoryPath.fromRaw (CategoryPath.toString (CategoryPath.make (lit "AI/Agents")))
  = Ok (CategoryPath.make (lit "AI/Agents"))
  <-> trim (CategoryPath.toString (CategoryPath.make (lit "AI/Agents")))
      = CategoryPath.toString (CategoryPath.make (lit "AI/Agents")).
Proof.
  apply (fromRaw_twice (lit " /AI//Agents/ ")). reflexivity.
Defined.

(** ** Note files: what a parsed header looks like *)

Lemma split_lines_no_lf (s : str) :
  Forall (fun l => no_lf l = true) (split_lines s).
Proof.
  induction s as [|c s IH]; [repeat constructor|].
  rewrite split_lines_cons. destruct (c =? LF) eqn:Ec.
  - constructor; [reflexivity | exact IH].
  - destruct ((c =? CR) && startsWith s [LF]); [exact IH|].
    destruct (split_lines s) as [|p rest]; cbn [cons_to_first].
    + repeat constructor. simpl. now rewrite Ec.
    + inversion IH as [|? ? Hp Hrest]; subst. constructor; [|exact Hrest].
      simpl. now rewrite Ec, Hp.
Qed.

Lemma drop_while_incl (p : char -> bool) (s : str) (c : char) :
  In c (drop_while p s) -> In c s.
Proof.
  induction s as [|d s IH]; [auto|]. simpl.
  destruct (p d); [intro H; right; auto | auto].
Qed.

Lemma trim_incl (s : str) (c : char) : In c (trim s) -> In c s.
Proof.
  unfold trim, trimEnd, trimStart. intro H.
  apply in_rev, drop_while_incl, in_rev, drop_while_incl in H. exact H.
Qed.

Lemma firstn_incl {A : Type} (n : nat) (l : list A) (x : A) :
  In x (firstn n l) -> In x l.
Proof.
  revert l. induction n as [|n IH]; intros [|a l]; simpl; try tauto.
  intros [H | H]; auto.
Qed.

Lemma skipn_incl {A : Type} (n : nat) (l : list A) (x : A) :
  In x (skipn n l) -> In x l.
Proof.
  revert l. induction n as [|n IH]; intros [|a l]; simpl; auto.
Qed.

Lemma forallb_sub (P : char -> bool) (s t : str) :
  (forall c, In c t -> In c s) -> forallb P s = true -> forallb P t = true.
Proof.
  intros Hsub H. apply forallb_forall. intros c Hc.
  rewrite forallb_forall in H. auto.
Qed.

Lemma indexOf_firstn (c : char) (s : str) (i : nat) :
  indexOf c s = Some i -> ~ In c (firstn i s).
Proof.
  revert i. induction s as [|x s IH]; intros i; [discriminate|]. simpl.
  destruct (x =? c) eqn:E.
  - intros [= <-]. simpl. tauto.
  - destruct (indexOf c s) as [j|]; [|discriminate].
    intros [= <-]. simpl. intros [H | H].
    + subst x. now rewrite N.eqb_refl in E.
    + exact (IH j eq_refl H).
Qed.

Lemma parsed_entry_ok (line : str) (idx : nat) :
  no_lf line = true ->
  indexOf COLON line = Some idx ->
  truthy (trim (slice line 0 idx)) = true ->
  trim (slice line 0 idx) <> PROTO ->
  entry_ok (trim (slice line 0 idx), trim (slice_from line (idx + 1))).
Proof.
  intros Hlf Hidx Hkey Hproto. unfold slice, slice_from in *.
  rewrite Nat.sub_0_r in *. cbn [skipn] in *.
  unfold entry_ok. cbn [fst snd].
  split; [now apply truthy_true|].
  split; [apply trim_idem|].
  split.
  { intro H. apply trim_incl in H. exact (indexOf_firstn _ _ _ Hidx H). }
  split.
  { apply (forallb_sub _ line); [|exact Hlf].
    intros c Hc. now apply trim_incl, firstn_incl in Hc. }
  split; [apply trim_idem|].
  split; [|exact Hproto].
  apply (forallb_sub _ line); [|exact Hlf].
  intros c Hc. now apply trim_incl, skipn_incl in Hc.
Qed.

Lemma parse_header_entries (lines : list str) (fm : obj) :
  Forall (fun l => no_lf l = true) lines ->
  NoDup (map fst fm) -> Forall entry_ok fm -> key_order fm = true ->
  NoDup (map fst (fst (parse_header lines fm)))
  /\ Forall entry_ok (fst (parse_header lines fm))
  /\ key_order (fst (parse_header lines fm)) = true.
Proof.
  intro Hlines. revert fm.
  induction Hlines as [|line rest Hline Hrest IH]; intros fm Hnd Hok Hord.
  - now repeat split.
  - cbn [parse_header].
    destruct (negb (truthy line)); [now apply IH|].
    destruct (str_eqb (trim line) DELIM); [now repeat split|].
    destruct (indexOf COLON line) as [idx|] eqn:Hidx; [|now apply IH].
    destruct (truthy (trim (slice line 0 idx))) eqn:Hkey; [|now apply IH].
    apply IH.
    + now apply obj_set_NoDup.
    + apply obj_set_Forall_own; [exact Hok|]. now apply parsed_entry_ok.
    + now apply key_order_set.
Qed.

Lemma parse_result_entries (raw : str) :
  NoDup (map fst (frontmatter (parseNoteFile raw)))
  /\ Forall entry_ok (frontmatter (parseNoteFile raw))
  /\ key_order (frontmatter (parseNoteFile raw)) = true.
Proof.
  unfold parseNoteFile. destruct (negb _).
  - repeat split; constructor.
  - assert (Hl : Forall (fun l => no_lf l = true) (tl (split_lines raw))).
    { pose proof (split_lines_no_lf raw) as H.
      destruct (split_lines raw); [constructor | now inversion H]. }
    pose proof (parse_header_entries _ [] Hl (NoDup_nil _) (Forall_nil _) eq_refl)
      as H.
    destruct (parse_header _ _) as [fm rest]. exact H.
Qed.

(** X4. Whatever text [parseNoteFile] is given, the header it returns has no
    key twice; every key is non-empty, has no colon, no line feed and no white
    space at its ends; every value has no line feed and no white space at its
    ends. *)
Theorem parsed_header_well_formed (raw : str) :
  NoDup (map fst (frontmatter (parseNoteFile raw)))
  /\ Forall entry_ok (frontmatter (parseNoteFile raw)).
Proof.
  unfold parseNoteFile.
  destruct (negb (str_eqb (trim (hd [] (split_lines raw))) DELIM)).
  - split; constructor.
  - assert (Hl : Forall (fun l => no_lf l = true) (tl (split_lines raw))).
    { pose proof (split_lines_no_lf raw) as H.
      destruct (split_lines raw); [constructor | now inversion H]. }
    pose proof (parse_header_entries _ [] Hl (NoDup_nil _) (Forall_nil _) eq_refl)
      as (H1 & H2 & _).
    destruct (parse_header (tl (split_lines raw)) []) as [fm rest]. now split.
Qed.

(** ** Note files: a key set on a note that was read *)

Lemma parse_serialize (H : obj) (B : str) :
  header_ok H ->
  parseNoteFile (serializeNoteFile {| frontmatter := H; body := B |})
  = {| frontmatter := H; body := LF :: lf_breaks B |}.
Proof.
  intros (Hne & Hnd & Hok & Hord).
  unfold serializeNoteFile. cbn [frontmatter body].
  destruct H as [|e H']; [contradiction|].
  set (fmLines := map (fun '(k, v) => k ++ lit ": " ++ v) (e :: H')).
  assert (Hsplit :
    split_lines (join [LF] ([DELIM] ++ fmLines ++ [DELIM; []; B]))
    = DELIM :: fmLines ++ DELIM :: [] :: split_lines B).
  { replace ([DELIM] ++ fmLines ++ [DELIM; []; B])
      with ((DELIM :: fmLines ++ [DELIM; []]) ++ [B])
      by (simpl; rewrite <- app_assoc; reflexivity).
    rewrite split_join_lines.
    - simpl. rewrite <- app_assoc. reflexivity.
    - constructor; [split; reflexivity|].
      apply Forall_app. split.
      + unfold fmLines. rewrite Forall_map.
        eapply Forall_impl; [|exact Hok]. intros [k v] Hkv.
        destruct (entry_line k v Hkv) as (H1 & H2 & _). now split.
      + repeat constructor. }
  rewrite parseNoteFile_header by (unfold first_line; rewrite Hsplit; reflexivity).
  rewrite Hsplit. cbn [tl]. unfold fmLines.
  rewrite parse_header_written by exact Hok.
  rewrite (fold_set_fresh _ [] Hnd (Forall_impl _ entry_ok_not_proto Hok) Hord).
  rewrite join_cons by apply split_lines_not_nil. reflexivity.
Qed.

Lemma header_ok_set (raw k v : str) :
  entry_ok (k, v) ->
  header_ok (obj_set (frontmatter (parseNoteFile raw)) k v).
Proof.
  intro Hkv. destruct (parse_result_entries raw) as (Hnd & Hok & Hord).
  split; [apply obj_set_not_nil, (entry_ok_not_proto _ Hkv)|].
  split; [now apply obj_set_NoDup|].
  split; [now apply obj_set_Forall | now apply key_order_set].
Qed.

(** X5. When a key other than [__proto__] is set on the header of a note that
    was read and the note is written and read again, the header read is the
    header written, with the key at its value; the body comes back behind one
    more line feed. *)
Theorem saved_key_is_read_back (raw k v : str) :
  entry_ok (k, v) ->
  parseNoteFile
    (serializeNoteFile
       {| frontmatter := obj_set (frontmatter (parseNoteFile raw)) k v;
          body := body (parseNoteFile raw) |})
  = {| frontmatter := obj_set (frontmatter (parseNoteFile raw)) k v;
       body := LF :: lf_breaks (body (parseNoteFile raw)) |}
  /\ obj_get
       (frontmatter
          (parseNoteFile
             (serializeNoteFile
                {| frontmatter := obj_set (frontmatter (parseNoteFile raw)) k v;
                   body := body (parseNoteFile raw) |})))
       k
     = Some v.
Proof.
  intro Hkv. rewrite (parse_serialize _ _ (header_ok_set raw k v Hkv)).
  split; [reflexivity|]. cbn [frontmatter].
  now rewrite obj_get_set, str_eqb_refl by exact (entry_ok_not_proto _ Hkv).
Qed.

Lemma saved_key_is_read_back_witness :
  parseNoteFile
    (serializeNoteFile
       {| frontmatter :=
            obj_set
              (frontmatter (parseNoteFile (lit "---\ntitle: x\ncategory: Old\n---\nbody")))
              (lit "category") (lit "AI/Agents");
          body := body (parseNoteFile (lit "---\ntitle: x\ncategory: Old\n---\nbody")) |})
  = {| frontmatter :=
         obj_set
           (frontmatter (parseNoteFile (lit "---\ntitle: x\ncategory: Old\n---\nbody")))
           (lit "category") (lit "AI/Agents");
       body :=
         LF :: lf_breaks
                 (body (parseNoteFile (lit "---\ntitle: x\ncategory: Old\n---\nbody"))) |}
  /\ obj_get
       (frontmatter
          (parseNoteFile
             (serializeNoteFile
                {| frontmatter :=
                     obj_set
                       (frontmatter
                          (parseNoteFile (lit "---\ntitle: x\ncategory: Old\n---\nbody")))
                       (lit "category") (lit "AI/Agents");
                   body :=
                     body (parseNoteFile (lit "---\ntitle: x\ncategory: Old\n---\nbody")) |})))
       (lit "category")
     = Some (lit "AI/Agents").
Proof.
  apply (saved_key_is_read_back (lit "---\ntitle: x\ncategory: Old\n---\nbody")
           (lit "category") (lit "AI/Agents")).
  repeat split; try reflexivity; vm_compute; intuition discriminate.
Defined.

(** ** Note files: a header block that is closed *)

Lemma parse_header_app (hs tail : list str) (fm : obj) :
  (forall l, In l hs -> trim l <> DELIM) ->
  parse_header (hs ++ tail) fm
  = parse_header tail
      (fold_left (fun fm kv => obj_set fm (fst kv) (snd kv))
         (flat_map (fun l => match header_entry l with
                             | Some kv => [kv]
                             | None => []
                             end) hs)
         fm).
Proof.
  revert fm. induction hs as [|line rest IH]; intros fm H.
  - reflexivity.
  - assert (Hrest : forall l, In l rest -> trim l <> DELIM)
      by (intros l Hl; apply H; now right).
    assert (Hline : str_eqb (trim line) DELIM = false)
      by (apply str_eqb_neq, H; now left).
    cbn [app parse_header flat_map]. rewrite Hline.
    destruct line as [|c line'].
    + simpl. now apply IH.
    + cbn [truthy negb]. unfold header_entry, slice, slice_from.
      destruct (indexOf COLON (c :: line')) as [idx|]; [|now apply IH].
      rewrite Nat.sub_0_r, Nat.add_1_r. cbn [skipn].
      destruct (truthy (trim (firstn idx (c :: line')))); now rewrite IH.
Qed.

(** X6. The header runs from the opening delimiter line to the first line
    after it that is a delimiter line: it is the object the entries of the
    lines between them are assigned to in turn, and the body is made of the
    lines after the closing one, joined by line feeds. *)
Theorem closed_header (raw l0 cl : str) (hs rest : list str) :
  split_lines raw = l0 :: hs ++ cl :: rest ->
  trim l0 = DELIM ->
  (forall l, In l hs -> trim l <> DELIM) ->
  trim cl = DELIM ->
  parseNoteFile raw
  = {| frontmatter := header_of hs; body := join [LF] rest |}.
Proof.
  intros Hsplit H0 Hhs Hcl.
  rewrite parseNoteFile_header by (unfold first_line; now rewrite Hsplit).
  rewrite Hsplit. cbn [tl].
  rewrite (parse_header_app hs (cl :: rest) [] Hhs).
  rewrite (parse_header_closing cl rest _ Hcl). reflexivity.
Qed.

Lemma closed_header_witness :
  parseNoteFile (lit "--- \ntitle: x\n\nnot an entry\ncategory : AI\n ---\n# T\n---\nend")
  = {| frontmatter :=
         header_of [lit "title: x"; lit ""; lit "not an entry"; lit "category : AI"];
       body := join [LF] [lit "# T"; lit "---"; lit "end"] |}.
Proof.
  apply (closed_header _ (lit "--- ") (lit " ---")).
  - reflexivity.
  - reflexivity.
  - intros l Hl. simpl in Hl.
    destruct Hl as [<- | [<- | [<- | [<- | []]]]]; vm_compute; discriminate.
  - reflexivity.
Defined.

(** ** Note files: writing and reading a note without a header *)

(** X7. A note without header entries is written as its body alone. Reading it
    gives the note back exactly when the first line of the body is not a
    delimiter line. *)
Theorem headerless_round_trip (B : str) :
  parseNoteFile (serializeNoteFile {| frontmatter := []; body := B |})
  = {| frontmatter := []; body := B |}
  <-> trim (first_line B) <> DELIM.
Proof.
  cbn [serializeNoteFile frontmatter body]. split.
  - intros E H. pose proof (header_body_shorter B H) as L.
    rewrite E in L. cbn [body] in L. lia.
  - intro H. unfold parseNoteFile. fold (first_line B).
    apply str_eqb_neq in H. now rewrite H.
Qed.

(** ** Note files: the title of a note with a heading *)

Lemma startsWith_app (a w p : str) :
  startsWith a p = true -> startsWith (a ++ w) p = true.
Proof.
  revert a. induction p as [|x p IH]; intros a H; [reflexivity|].
  destruct a as [|c a]; [discriminate H|]. simpl in *.
  apply andb_true_iff in H as [H1 H2]. now rewrite H1, IH.
Qed.

Lemma heading_cases (h1 : str) :
  is_heading h1 = true ->
  startsWith h1 (lit "# ") = true \/ exists c r, h1 = c :: r /\ is_ws c = true.
Proof.
  intro H. destruct h1 as [|c r]; [discriminate H|].
  destruct (is_ws c) eqn:Ec; [right; eauto|]. left.
  unfold is_heading, trim, trimStart in H. cbn [drop_while] in H.
  rewrite Ec in H.
  destruct (trimEnd_split (c :: r)) as (w & E & _).
  rewrite E. now apply startsWith_app.
Qed.

(** X8. When a line of the body is a heading line (it starts, white space
    aside, with a hash and a space), the title is made of the first such line
    alone: it does not depend on the path of the note, it is never empty and
    it has no white space at its ends. *)
Theorem heading_title (relativePath body h1 : str) :
  find is_heading (split_lines body) = Some h1 ->
  deriveTitle relativePath body = trim (strip_heading_marker h1)
  /\ deriveTitle relativePath body <> []
  /\ trim (deriveTitle relativePath body) = deriveTitle relativePath body.
Proof.
  intro Hfind.
  assert (Hh : is_heading h1 = true) by (apply find_some in Hfind; tauto).
  assert (E : deriveTitle relativePath body = trim (strip_heading_marker h1)
              /\ deriveTitle relativePath body <> []).
  { destruct (heading_cases h1 Hh) as [Hs | (c & r & -> & Hc)].
    - destruct (deriveTitle_heading relativePath body h1 Hfind Hs) as [E Hne].
      split; [|now rewrite E]. rewrite E.
      destruct h1 as [|c0 [|c1 r]];
        [discriminate Hs
        | simpl in Hs; rewrite andb_false_r in Hs; discriminate Hs |].
      simpl in Hs. apply andb_true_iff in Hs as [H0 H1].
      rewrite andb_true_r in H1. apply N.eqb_eq in H0, H1. subst c0 c1.
      cbn [skipn strip_heading_marker]. change (35 =? HASH) with true. cbv iota.
      change (drop_while is_ws (32 :: r)) with (drop_while is_ws r).
      now rewrite trim_trimStart.
    - destruct (deriveTitle_indented relativePath body c r Hfind Hc) as [E Hs].
      split.
      + rewrite E. cbn [strip_heading_marker].
        destruct (c =? HASH) eqn:Eh; [|reflexivity].
        apply N.eqb_eq in Eh. subst c. discriminate Hc.
      + intro E'. rewrite E' in Hs. discriminate Hs. }
  destruct E as [E Hne]. split; [exact E|]. split; [exact Hne|].
  rewrite E. apply trim_idem.
Qed.

Lemma heading_title_witness :
  deriveTitle (lit "inbox/idea.md") (lit "intro\n#  My Idea \nmore\n# Later")
  = trim (strip_heading_marker (lit "#  My Idea "))
  /\ deriveTitle (lit "inbox/idea.md") (lit "intro\n#  My Idea \nmore\n# Later") <> []
  /\ trim (deriveTitle (lit "inbox/idea.md") (lit "intro\n#  My Idea \nmore\n# Later"))
     = deriveTitle (lit "inbox/idea.md") (lit "intro\n#  My Idea \nmore\n# Later").
Proof.
  apply (heading_title (lit "inbox/idea.md") (lit "intro\n#  My Idea \nmore\n# Later")
           (lit "#  My Idea ")).
  reflexivity.
Defined.

(** ** Note files: the title of a note without a heading *)

Lemma take_while_all (p : char -> bool) (a : str) :
  forallb p a = true -> Path.take_while p a = a.
Proof.
  induction a as [|c a IH]; [reflexivity|]. simpl. intro H.
  apply andb_true_iff in H as [Hc Ha]. now rewrite Hc, IH.
Qed.

Lemma take_while_app_stop (p : char -> bool) (a b : str) (c : char) :
  forallb p a = true -> p c = false -> Path.take_while p (a ++ c :: b) = a.
Proof.
  induction a as [|x a IH]; simpl; intros H Hc.
  - now rewrite Hc.
  - apply andb_true_iff in H as [Hx Ha]. now rewrite Hx, IH.
Qed.

Lemma startsWith_self_app (a b : str) : startsWith (a ++ b) a = true.
Proof.
  induction a as [|c a IH]; [reflexivity|]. simpl. now rewrite N.eqb_refl, IH.
Qed.

Lemma last_component_name (prefix name : str) :
  name <> [] -> forallb Path.not_slash name = true ->
  prefix = [] \/ (exists d, prefix = d ++ [SLASH]) ->
  Path.last_component_rev (prefix ++ name) = rev name.
Proof.
  intros Hne Hns Hp. unfold Path.last_component_rev.
  rewrite rev_app_distr.
  assert (Hr : forallb Path.not_slash (rev name) = true) by now rewrite forallb_rev.
  assert (Hd : drop_while Path.is_slash (rev name ++ rev prefix)
               = rev name ++ rev prefix).
  { destruct (rev name) as [|x xs] eqn:E.
    - exfalso. apply Hne. rewrite <- (rev_involutive name), E. reflexivity.
    - simpl in Hr |- *. apply andb_true_iff in Hr as [Hx _].
      unfold Path.not_slash in Hx. apply negb_true_iff in Hx.
      unfold Path.is_slash. now rewrite Hx. }
  rewrite Hd. destruct Hp as [-> | [d ->]].
  - rewrite app_nil_r. now apply take_while_all.
  - rewrite rev_unit. now apply take_while_app_stop.
Qed.

Lemma stem_of_name (p stem ext : str) :
  stem <> [] -> ext <> [] -> forallb Path.not_dot ext = true ->
  Path.last_component_rev p = rev (stem ++ DOT :: ext) ->
  (length (stem ++ DOT :: ext) <= length p)%nat ->
  Path.basename_ext p (Path.extname p) = stem.
Proof.
  intros Hstem Hext Hdot Hcomp Hlen.
  assert (Ec : rev (stem ++ DOT :: ext) = (rev ext ++ [DOT]) ++ rev stem).
  { rewrite rev_app_distr. cbn [rev]. reflexivity. }
  assert (Hrd : forallb Path.not_dot (rev ext) = true) by now rewrite forallb_rev.
  assert (Hrs : rev stem <> []).
  { intro E. apply Hstem. rewrite <- (rev_involutive stem), E. reflexivity. }
  assert (Hre : rev ext <> []).
  { intro E. apply Hext. rewrite <- (rev_involutive ext), E. reflexivity. }
  assert (Eext : Path.extname p = DOT :: ext).
  { unfold Path.extname. rewrite Hcomp, Ec, <- app_assoc. cbn [app].
    rewrite (take_while_app_stop Path.not_dot (rev ext) (rev stem) DOT Hrd eq_refl).
    rewrite skipn_app_exact.
    destruct (rev stem) as [|s0 rs] eqn:Es; [contradiction|].
    cbn [truthy negb].
    assert (Hdd : str_eqb (rev ext ++ DOT :: s0 :: rs) [DOT; DOT] = false).
    { destruct (rev ext) as [|e0 re]; [contradiction|].
      simpl in Hrd. apply andb_true_iff in Hrd as [He _].
      unfold Path.not_dot in He. apply negb_true_iff in He.
      simpl. now rewrite He. }
    rewrite Hdd. now rewrite rev_involutive. }
  rewrite Eext. unfold Path.basename_ext.
  assert (Hls : length (DOT :: ext) = length (rev ext ++ [DOT])).
  { rewrite length_app, length_rev. simpl. lia. }
  assert (Hlt : (length (DOT :: ext) < length (stem ++ DOT :: ext))%nat).
  { rewrite length_app. destruct stem; [contradiction|]. simpl. lia. }
  cbn [truthy andb].
  assert (Hle : (length (DOT :: ext) <=? length p)%nat = true)
    by (apply Nat.leb_le; lia).
  rewrite Hle.
  assert (Hneq : str_eqb (DOT :: ext) p = false).
  { apply str_eqb_neq. intro E. rewrite <- E in Hlen. lia. }
  rewrite Hneq, Hcomp, Ec.
  assert (Erev : rev (DOT :: ext) = rev ext ++ [DOT]) by reflexivity.
  rewrite Erev, startsWith_self_app.
  assert (Hl2 : (length ((rev ext ++ [DOT]) ++ rev stem) =? length (DOT :: ext))%nat
                = false).
  { apply Nat.eqb_neq. rewrite length_app, <- Hls.
    destruct (rev stem); [contradiction|]. simpl. lia. }
  rewrite Hl2, Hls, skipn_app_exact. apply rev_involutive.
Qed.

(** X9. The title of a note with no heading line is the name of its file
    without the extension, whatever folder the file lies in. *)
Theorem title_is_the_file_stem (dir stem ext body : str) :
  stem <> [] -> forallb Path.not_slash stem = true ->
  ext <> [] -> forallb Path.not_slash ext = true ->
  forallb Path.not_dot ext = true ->
  find is_heading (split_lines body) = None ->
  deriveTitle (stem ++ DOT :: ext) body = stem
  /\ deriveTitle (dir ++ SLASH :: stem ++ DOT :: ext) body = stem.
Proof.
  intros Hstem Hs Hext He Hd Hfind.
  assert (Hname : stem ++ DOT :: ext <> []) by (destruct stem; discriminate).
  assert (Hns : forallb Path.not_slash (stem ++ DOT :: ext) = true).
  { rewrite forallb_app, Hs. simpl. now rewrite He. }
  rewrite !deriveTitle_no_heading by exact Hfind. split.
  - apply (stem_of_name _ stem ext); try assumption; [|apply Nat.le_refl].
    apply (last_component_name [] _ Hname Hns). now left.
  - replace (dir ++ SLASH :: stem ++ DOT :: ext)
      with ((dir ++ [SLASH]) ++ stem ++ DOT :: ext)
      by (rewrite <- app_assoc; reflexivity).
    apply (stem_of_name _ stem ext); try assumption.
    + apply (last_component_name _ _ Hname Hns). right. now exists dir.
    + rewrite (length_app (dir ++ [SLASH])). lia.
Qed.

Lemma title_is_the_file_stem_witness :
  deriveTitle (lit "foo" ++ DOT :: lit "md") (lit "no heading here") = lit "foo"
  /\ deriveTitle (lit "notes/inbox" ++ SLASH :: lit "foo" ++ DOT :: lit "md")
       (lit "no heading here")
     = lit "foo".
Proof.
  apply (title_is_the_file_stem (lit "notes/inbox") (lit "foo") (lit "md")
           (lit "no heading here"));
    try reflexivity; discriminate.
Defined.

(** ** Paths: the file a path stands for *)

Lemma strip_leading_slashes_id (s : str) :
  startsWith s [SLASH] = false -> strip_leading_slashes s = s.
Proof.
  destruct s as [|c s]; [reflexivity|]. simpl. rewrite andb_true_r.
  unfold strip_leading_slashes. cbn [drop_while]. rewrite (N.eqb_sym SLASH c).
  now intros ->.
Qed.

Lemma strip_leading_slashes_head (s : str) :
  startsWith (strip_leading_slashes s) [SLASH] = false.
Proof.
  unfold strip_leading_slashes.
  destruct (drop_while (N.eqb SLASH) s) as [|c r] eqn:E; [reflexivity|].
  apply drop_while_head in E. simpl. now rewrite andb_true_r, N.eqb_sym.
Qed.

Lemma drop_while_forallb (P p : char -> bool) (s : str) :
  forallb P s = true -> forallb P (drop_while p s) = true.
Proof.
  intro H. apply (forallb_sub P s); [|exact H].
  intros c. apply drop_while_incl.
Qed.

Lemma relative_fixed (s : str) :
  strip_leading_slashes
    (backslashes_to_slashes (strip_leading_slashes (backslashes_to_slashes s)))
  = strip_leading_slashes (backslashes_to_slashes s).
Proof.
  rewrite (backslashes_id (strip_leading_slashes (backslashes_to_slashes s))).
  - apply strip_leading_slashes_id, strip_leading_slashes_head.
  - apply drop_while_forallb, backslashes_gone.
Qed.

(** X10. [applyCategoryChange] reads the note from the very path [loadNote]
    reads it from; a path names the same file whether it is written with
    slashes or backslashes, and with or without slashes at its start. *)
Theorem same_file_whatever_the_spelling (root p : str) :
  old_path root p = FsWorkspace.resolveAbsolute root p
  /\ FsWorkspace.resolveAbsolute root (backslashes_to_slashes p)
     = FsWorkspace.resolveAbsolute root p
  /\ FsWorkspace.resolveAbsolute root (SLASH :: p)
     = FsWorkspace.resolveAbsolute root p
  /\ FsWorkspace.resolveAbsolute root (BACKSLASH :: p)
     = FsWorkspace.resolveAbsolute root p.
Proof.
  unfold old_path, FsWorkspace.resolveAbsolute.
  rewrite relative_fixed, backslashes_idem. repeat split.
Qed.

(** X11. A relative path made of plain names leads to the node of those names
    below the node the workspace root leads to. *)
Theorem plain_path_stays_below_the_root (root : str) (L : list str) :
  forallb plain_name L = true ->
  fs_segments (FsWorkspace.resolveAbsolute root (rel_of L))
  = fs_segments root ++ L
  /\ FsWorkspace.resolveAbsolute root (rel_of L)
     = Path.join root (rel_of L).
Proof.
  intro HL. split; [now apply resolve_below|].
  unfold FsWorkspace.resolveAbsolute.
  rewrite backslashes_id by now apply plain_names_no_backslash.
  now rewrite good_ends_strip_leading by now apply rel_of_good_ends.
Qed.

Lemma plain_path_stays_below_the_root_witness :
  fs_segments (FsWorkspace.resolveAbsolute (lit "/home/me/notes")
                 (rel_of [lit "AI"; lit "Agents"; lit "n.md"]))
  = fs_segments (lit "/home/me/notes") ++ [lit "AI"; lit "Agents"; lit "n.md"]
  /\ FsWorkspace.resolveAbsolute (lit "/home/me/notes")
       (rel_of [lit "AI"; lit "Agents"; lit "n.md"])
     = Path.join (lit "/home/me/notes") (rel_of [lit "AI"; lit "Agents"; lit "n.md"]).
Proof.
  apply (plain_path_stays_below_the_root (lit "/home/me/notes")
           [lit "AI"; lit "Agents"; lit "n.md"]).
  reflexivity.
Defined.

(** ** Paths: the category a path stands for *)

Lemma rel_of_snoc (L : list str) (name : str) :
  rel_of (L ++ [name]) = join [SLASH] (L ++ [name]).
Proof. destruct L; reflexivity. Qed.

Lemma plain_snoc (L : list str) (name : str) :
  forallb plain_name L = true -> plain_name name = true ->
  forallb plain_name (L ++ [name]) = true.
Proof. intros HL Hn. rewrite forallb_app, HL. simpl. now rewrite Hn. Qed.

Lemma join_snoc (L : list str) (name : str) :
  L <> [] -> join [SLASH] (L ++ [name]) = join [SLASH] L ++ SLASH :: name.
Proof.
  induction L as [|a L IH]; [contradiction|]. intros _.
  destruct L as [|b L'].
  - reflexivity.
  - change ((a :: b :: L') ++ [name]) with (a :: ((b :: L') ++ [name])).
    rewrite join_cons by (destruct L'; discriminate).
    rewrite IH by discriminate.
    rewrite (join_cons [SLASH] a (b :: L')) by discriminate.
    now rewrite <- !app_assoc.
Qed.

Lemma drop_slashes_plain (s : str) :
  forallb Path.not_slash s = true -> drop_while Path.is_slash s = s.
Proof.
  destruct s as [|c s]; [reflexivity|]. simpl. intro H.
  apply andb_true_iff in H as [H _]. unfold Path.not_slash in H.
  apply negb_true_iff in H. unfold Path.is_slash. now rewrite H.
Qed.

Lemma dirname_plain (L : list str) (name : str) :
  forallb plain_name L = true -> plain_name name = true ->
  Path.dirname (join [SLASH] (L ++ [name])) = rel_of L.
Proof.
  intros HL Hn.
  destruct (plain_name_inv name Hn) as (Hseg & _).
  destruct (seg_ok_inv name Hseg) as (Hne & Hns & _).
  destruct L as [|a L'].
  - cbn [app join rel_of]. destruct name as [|c0 t]; [contradiction|].
    unfold Path.dirname. simpl in Hns. apply andb_true_iff in Hns as [Hc Ht].
    unfold Path.not_slash in Hc. apply negb_true_iff in Hc. rewrite Hc.
    assert (Hr : forallb Path.not_slash (rev t) = true) by now rewrite forallb_rev.
    rewrite (drop_slashes_plain _ Hr), (drop_while_all _ _ Hr). reflexivity.
  - rewrite join_snoc by discriminate.
    change (rel_of (a :: L')) with (join [SLASH] (a :: L')).
    pose proof (rel_of_good_ends (a :: L') HL) as Hg.
    change (rel_of (a :: L')) with (join [SLASH] (a :: L')) in Hg.
    destruct Hg as [(c0 & r & E & _ & Hc0) _]. rewrite E.
    change ((c0 :: r) ++ SLASH :: name) with (c0 :: (r ++ SLASH :: name)).
    unfold Path.dirname. rewrite Hc0.
    rewrite rev_app_distr. cbn [rev]. rewrite <- !app_assoc. cbn [app].
    assert (Hr : forallb Path.not_slash (rev name) = true) by now rewrite forallb_rev.
    assert (Hrn : rev name <> []).
    { intro E'. apply Hne. rewrite <- (rev_involutive name), E'. reflexivity. }
    assert (E1 : drop_while Path.is_slash (rev name ++ SLASH :: rev r)
                 = rev name ++ SLASH :: rev r).
    { destruct (rev name) as [|x xs]; [contradiction|]. simpl in Hr |- *.
      apply andb_true_iff in Hr as [Hx _]. unfold Path.not_slash in Hx.
      apply negb_true_iff in Hx. unfold Path.is_slash. now rewrite Hx. }
    rewrite E1, (drop_while_app_all _ _ _ Hr). cbn [drop_while].
    unfold Path.not_slash at 1. change (SLASH =? SLASH) with true. cbn [negb andb].
    now rewrite rev_involutive.
Qed.

(** X12. Where the header gives no category, the category of a note is its
    folder: for a path of plain names, [deriveCategoryFromPath] gives the
    category named by the names before the last, and none for a note that lies
    in the workspace root. *)
Theorem category_is_the_folder (L : list str) (name : str) :
  forallb plain_name L = true -> plain_name name = true ->
  FsWorkspace.deriveCategoryFromPath (join [SLASH] (L ++ [name]))
  = Ok match L with
       | [] => None
       | _ :: _ => Some (CategoryPath.make (join [SLASH] L))
       end.
Proof.
  intros HL Hn. unfold FsWorkspace.deriveCategoryFromPath.
  rewrite (dirname_plain L name HL Hn).
  rewrite backslashes_id by now apply plain_names_no_backslash.
  destruct L as [|a L']; [reflexivity|].
  change (rel_of (a :: L')) with (join [SLASH] (a :: L')).
  destruct (fromRaw_plain (a :: L')) as (Hf & Hd & Hnil);
    [discriminate | exact HL |].
  apply str_eqb_neq in Hd, Hnil. now rewrite Hd, Hnil, Hf.
Qed.

Lemma category_is_the_folder_witness :
  FsWorkspace.deriveCategoryFromPath
    (join [SLASH] ([lit "AI"; lit "Agents"] ++ [lit "n.md"]))
  = Ok (Some (CategoryPath.make (join [SLASH] [lit "AI"; lit "Agents"]))).
Proof.
  apply (category_is_the_folder [lit "AI"; lit "Agents"] (lit "n.md"));
    reflexivity.
Defined.

(** ** The command line: the path handed to the use case *)

Lemma relPath_head (argPath : str) (c : char) (r : str) :
  Cli.strip_dot_and_separators argPath = c :: r ->
  (c =? SLASH) = false /\ (c =? BACKSLASH) = false.
Proof.
  unfold Cli.strip_dot_and_separators. intro E.
  apply drop_while_head in E. now apply orb_false_iff in E.
Qed.

(** X13. The path the command line hands on has no backslash and does not
    start with a slash, so the workspace store resolves it as it stands. A dot
    at the very start of the argument is dropped with the separators after it:
    [.x], [./x] and [x] are handed on as the same path. *)
Theorem relPath_is_relative (argPath : str) :
  no_backslash (Cli.relPath argPath) = true
  /\ startsWith (Cli.relPath argPath) [SLASH] = false
  /\ (forall root,
        FsWorkspace.resolveAbsolute root (Cli.relPath argPath)
        = Path.join root (Cli.relPath argPath))
  /\ (startsWith argPath [DOT] = false ->
      Cli.relPath (DOT :: argPath) = Cli.relPath argPath
      /\ Cli.relPath (DOT :: SLASH :: argPath) = Cli.relPath argPath).
Proof.
  assert (H3 : startsWith argPath [DOT] = false ->
               Cli.relPath (DOT :: argPath) = Cli.relPath argPath
               /\ Cli.relPath (DOT :: SLASH :: argPath) = Cli.relPath argPath).
  { intro Hd. unfold Cli.relPath, Cli.strip_dot_and_separators.
    change (DOT =? DOT) with true. cbv iota.
    destruct argPath as [|c r]; [now split|].
    simpl in Hd. rewrite andb_true_r in Hd. rewrite Hd. now split. }
  assert (H1 : no_backslash (Cli.relPath argPath) = true)
    by apply backslashes_gone.
  assert (H2 : startsWith (Cli.relPath argPath) [SLASH] = false).
  { unfold Cli.relPath.
    destruct (Cli.strip_dot_and_separators argPath) as [|c r] eqn:E;
      [reflexivity|].
    destruct (relPath_head _ _ _ E) as [Hs Hb].
    simpl. now rewrite Hb, Hs. }
  split; [exact H1|]. split; [exact H2|]. split; [|exact H3].
  intro root. unfold FsWorkspace.resolveAbsolute.
  rewrite (backslashes_id _ H1). now rewrite strip_leading_slashes_id.
Qed.

(** ** Loading a note *)

Lemma loadNote_fst (root rel : str) (w : world) :
  fst (FsWorkspace.loadNote root rel w)
  = if hd false (faults w) then Throw EIO else note_of root rel (disk w).
Proof.
  unfold note_of, FsWorkspace.loadNote, fs.readFile, bind, fs_call.
  cbn [faults hd disk].
  destruct (hd false (faults w)); [reflexivity|].
  destruct (keep (disk w) (fs_readFile (disk w) (FsWorkspace.resolveAbsolute root rel)))
    as [e|[raw d']]; [reflexivity|].
  unfold lift, ret.
  match goal with |- context [match ?r with inl _ => _ | inr _ => _ end] =>
    destruct r end; reflexivity.
Qed.

Lemma obj_get_Forall (P : str * str -> Prop) (o : obj) (k v : str) :
  Forall P o -> obj_get o k = Some v -> exists k', P (k', v).
Proof.
  induction o as [|[k0 v0] o IH]; [discriminate|]. intros Ho H.
  inversion Ho as [|? ? Hkv Hrest]; subst. cbn [obj_get] in H.
  destruct (str_eqb k0 k).
  - injection H as <-. now exists k0.
  - now apply IH.
Qed.

Lemma loadNote_cases (root rel : str) (w : world) :
  (exists e,
      FsWorkspace.loadNote root rel w
      = (Throw e,
         mkWorld (disk w) (tl (faults w))
           (trace w ++ [(ReadFile (FsWorkspace.resolveAbsolute root rel), false)])
           (console w)))
  \/ (exists raw,
        fs_readFile (disk w) (FsWorkspace.resolveAbsolute root rel) = Ok raw
        /\ snd (FsWorkspace.loadNote root rel w)
           = mkWorld (disk w) (tl (faults w))
               (trace w ++ [(ReadFile (FsWorkspace.resolveAbsolute root rel), true)])
               (console w)
        /\ forall n,
             fst (FsWorkspace.loadNote root rel w) = Ok n ->
             id n = rel /\ path n = rel
             /\ content n = body (parseNoteFile raw)
             /\ title n = deriveTitle rel (body (parseNoteFile raw))
             /\ (forall v c,
                   obj_get (frontmatter (parseNoteFile raw)) (lit "category") = Some v ->
                   v <> [] -> CategoryPath.fromRaw v = Ok c ->
                   category n = Some c)
             /\ (forall c, category n = Some c ->
                   exists raw', CategoryPath.fromRaw raw' = Ok c)).
Proof.
  unfold FsWorkspace.loadNote, fs.readFile.
  destruct (fs_call_cases (ReadFile (FsWorkspace.resolveAbsolute root rel))
              (fun d => keep d (fs_readFile d (FsWorkspace.resolveAbsolute root rel))) w)
    as [(raw & d' & Hrun & E) | (e & E)].
  - right. apply keep_inv in Hrun as [Hread ->]. exists raw.
    split; [exact Hread|].
    rewrite (bind_ok_run _ _ _ _ _ E). unfold bind, lift, ret.
    pose proof (parse_result_entries raw) as (_ & Hok & _).
    set (fm := frontmatter (parseNoteFile raw)) in *.
    destruct (obj_get fm (lit "category")) as [v0|] eqn:Eget.
    + assert (Hv0 : trim v0 = v0).
      { destruct (obj_get_Forall _ _ _ _ Hok Eget) as [k' Hk']. apply Hk'. }
      destruct (truthy v0 && negb (str_eqb (trim v0) [])) eqn:Et.
      * destruct (CategoryPath.fromRaw v0) as [e|cp] eqn:Ef.
        -- split; [reflexivity|]. intros n Hn. discriminate Hn.
        -- split; [reflexivity|]. intros n Hn. cbn [fst] in Hn.
           injection Hn as <-. cbn [id path content title category].
           repeat split.
           ++ intros v c [= <-] _ Hc. rewrite Ef in Hc. now injection Hc as ->.
           ++ intros c [= <-]. now exists v0.
      * assert (Hnil : v0 = []).
        { rewrite Hv0 in Et. destruct v0; [reflexivity | discriminate Et]. }
        subst v0. unfold FsWorkspace.deriveCategoryFromPath.
        destruct (str_eqb _ [DOT] || str_eqb _ []).
        -- split; [reflexivity|]. intros n Hn. cbn [fst] in Hn.
           injection Hn as <-. cbn [id path content title category].
           repeat split.
           ++ intros v c [= <-] Hne. contradiction.
           ++ intros c Hc. discriminate Hc.
        -- destruct (CategoryPath.fromRaw _) as [e|cp] eqn:Ef.
           ++ split; [reflexivity|]. intros n Hn. discriminate Hn.
           ++ split; [reflexivity|]. intros n Hn. cbn [fst] in Hn.
              injection Hn as <-. cbn [id path content title category].
              repeat split.
              ** intros v c [= <-] Hne. contradiction.
              ** intros c [= <-]. eexists. exact Ef.
    + unfold FsWorkspace.deriveCategoryFromPath.
      destruct (str_eqb _ [DOT] || str_eqb _ []).
      * split; [reflexivity|]. intros n Hn. cbn [fst] in Hn.
        injection Hn as <-. cbn [id path content title category].
        repeat split.
        -- intros v c Hv. discriminate Hv.
        -- intros c Hc. discriminate Hc.
      * destruct (CategoryPath.fromRaw _) as [e|cp] eqn:Ef.
        -- split; [reflexivity|]. intros n Hn. discriminate Hn.
        -- split; [reflexivity|]. intros n Hn. cbn [fst] in Hn.
           injection Hn as <-. cbn [id path content title category].
           repeat split.
           ++ intros v c Hv. discriminate Hv.
           ++ intros c [= <-]. eexists. exact Ef.
  - left. exists e. now rewrite (bind_throw_run _ _ _ _ _ E).
Qed.

(** X14. [loadNote] makes one call to the file system, a read of the file the
    path resolves to, and leaves the disk and the log as they were. It fails
    when the read fails. The note it returns has the path it was asked for as
    its path and its id, the body of the file as its content and the title
    derived from that body. *)
Theorem loadNote_reads_once (root rel : str) (w : world) :
  exists ok,
    trace (snd (FsWorkspace.loadNote root rel w))
    = trace w ++ [(ReadFile (FsWorkspace.resolveAbsolute root rel), ok)]
    /\ disk (snd (FsWorkspace.loadNote root rel w)) = disk w
    /\ console (snd (FsWorkspace.loadNote root rel w)) = console w
    /\ (ok = false -> exists e, fst (FsWorkspace.loadNote root rel w) = Throw e)
    /\ (forall n,
          fst (FsWorkspace.loadNote root rel w) = Ok n ->
          ok = true /\ id n = rel /\ path n = rel
          /\ exists raw,
               fs_readFile (disk w) (FsWorkspace.resolveAbsolute root rel) = Ok raw
               /\ content n = body (parseNoteFile raw)
               /\ title n = deriveTitle rel (body (parseNoteFile raw))).
Proof.
  destruct (loadNote_cases root rel w) as [(e & E) | (raw & Hread & Hw & Hn)].
  - exists false. rewrite E. cbn [fst snd trace disk console].
    repeat split; try reflexivity.
    + intros _. now exists e.
    + discriminate.
    + discriminate H.
    + discriminate H.
    + discriminate H.
  - exists true. rewrite Hw. cbn [trace disk console].
    repeat split; try reflexivity; try discriminate.
    + now destruct (Hn n H) as (? & _).
    + now destruct (Hn n H) as (_ & ? & _).
    + destruct (Hn n H) as (_ & _ & Hc & Ht & _). exists raw. now repeat split.
Qed.

(** X15. The category of a loaded note, when it has one, is one [fromRaw]
    made: it is never the root category. *)
Theorem loaded_category_is_made (root rel : str) (w : world) (n : Note)
    (c : CategoryPath.t) :
  fst (FsWorkspace.loadNote root rel w) = Ok n ->
  category n = Some c ->
  CategoryPath.isRoot c = false
  /\ exists raw, CategoryPath.fromRaw raw = Ok c.
Proof.
  intros Hn Hc.
  destruct (loadNote_cases root rel w) as [(e & E) | (raw & _ & _ & H)].
  - rewrite E in Hn. discriminate Hn.
  - destruct (H n Hn) as (_ & _ & _ & _ & _ & Hmade).
    destruct (Hmade c Hc) as [raw' Hraw']. split; [|now exists raw'].
    apply fromRaw_ok_inv in Hraw' as [-> Hne].
    unfold CategoryPath.isRoot. cbn [CategoryPath.value].
    now apply str_eqb_neq.
Qed.

Lemma loaded_category_is_made_witness :
  CategoryPath.isRoot (CategoryPath.make (lit "AI/Agents")) = false
  /\ exists raw, CategoryPath.fromRaw raw = Ok (CategoryPath.make (lit "AI/Agents")).
Proof.
  apply (loaded_category_is_made (lit "/ws") (lit "AI/Agents/n.md") demo_world demo_note);
    reflexivity.
Defined.

(** ** Loading a note: where its category comes from *)

(** X16. The category of a loaded note is the one its header names; only when
    the header names none, or an empty one, is it the folder of the note. The
    path plays no part in the first case, the header none in the second. *)
Theorem header_category_wins (root rel : str) (w : world) (n : Note) (raw : str) :
  fst (FsWorkspace.loadNote root rel w) = Ok n ->
  fs_readFile (disk w) (FsWorkspace.resolveAbsolute root rel) = Ok raw ->
  match obj_get (frontmatter (parseNoteFile raw)) (lit "category") with
  | Some (c :: v) =>
      category n = Some (CategoryPath.make (CategoryPath.cleaned (c :: v)))
  | _ => FsWorkspace.deriveCategoryFromPath rel = Ok (category n)
  end.
Proof.
  intros Hn Hraw. rewrite loadNote_fst in Hn.
  destruct (hd false (faults w)); [discriminate Hn|].
  unfold note_of, FsWorkspace.loadNote, fs.readFile, bind, fs_call in Hn.
  cbn [faults hd disk] in Hn. rewrite Hraw in Hn. cbn [keep] in Hn.
  unfold lift, ret in Hn.
  pose proof (parse_result_entries raw) as (_ & Hok & _).
  destruct (obj_get (frontmatter (parseNoteFile raw)) (lit "category"))
    as [[|c v]|] eqn:Eget.
  - cbn [truthy andb] in Hn.
    destruct (FsWorkspace.deriveCategoryFromPath rel) as [e|oc];
      [discriminate Hn|].
    cbn [fst] in Hn. now injection Hn as <-.
  - destruct (obj_get_Forall _ _ _ _ Hok Eget) as [k' Hk'].
    assert (Ht : trim (c :: v) = c :: v) by apply Hk'.
    rewrite Ht in Hn. cbn [truthy andb str_eqb negb] in Hn.
    rewrite cleaned_all in Hn.
    destruct (negb (truthy (CategoryPath.cleaned (c :: v)))); [discriminate Hn|].
    cbn [fst] in Hn. now injection Hn as <-.
  - destruct (FsWorkspace.deriveCategoryFromPath rel) as [e|oc];
      [discriminate Hn|].
    cbn [fst] in Hn. now injection Hn as <-.
Qed.

Lemma header_category_wins_witness :
  match obj_get
          (frontmatter (parseNoteFile (lit "---\ncategory: AI/Agents\n---\n\n# T\nbody")))
          (lit "category") with
  | Some (c :: v) =>
      category demo_note = Some (CategoryPath.make (CategoryPath.cleaned (c :: v)))
  | _ => FsWorkspace.deriveCategoryFromPath (lit "AI/Agents/n.md")
         = Ok (category demo_note)
  end.
Proof.
  apply (header_category_wins (lit "/ws") (lit "AI/Agents/n.md") demo_world demo_note
           (lit "---\ncategory: AI/Agents\n---\n\n# T\nbody"));
    reflexivity.
Defined.

(** ** Listing the categories: the calls made *)

Lemma lists_only_ret {A : Type} (a : A) : lists_only (ret a).
Proof. intro w. exists []. now rewrite app_nil_r. Qed.

Lemma lists_only_throw {A : Type} (e : exn) : lists_only (@throw A e).
Proof. intro w. exists []. now rewrite app_nil_r. Qed.

Lemma lists_only_lift {A : Type} (r : result A) : lists_only (lift r).
Proof. intro w. exists []. now rewrite app_nil_r. Qed.

Lemma lists_only_bind {A B : Type} (m : M A) (k : A -> M B) :
  lists_only m -> (forall a, lists_only (k a)) -> lists_only (bind m k).
Proof.
  intros Hm Hk w. destruct (Hm w) as (evs & Ht & Hf & Hd & Hc).
  unfold bind. destruct (m w) as [[e|a] w1]; cbn [snd] in *.
  - exists evs. now repeat split.
  - destruct (Hk a w1) as (evs' & Ht' & Hf' & Hd' & Hc').
    exists (evs ++ evs'). rewrite Ht', Ht, Hd', Hd, Hc', Hc, app_assoc.
    repeat split. now apply Forall_app.
Qed.

Lemma lists_only_readdir (p : str) : lists_only (fs.readdir p).
Proof.
  intro w. unfold fs.readdir.
  destruct (fs_call_cases (Readdir p) (fun d => keep d (fs_readdir d p)) w)
    as [(a & d' & Hrun & E) | (e & E)]; rewrite E; cbn [snd trace disk console].
  - apply keep_inv in Hrun as [_ ->]. eexists. repeat split.
    repeat constructor. now exists p.
  - eexists. repeat split. repeat constructor. now exists p.
Qed.

Lemma lists_only_for_each {A S : Type} (body : A -> S -> M S) (l : list A) :
  (forall a s, lists_only (body a s)) -> forall s, lists_only (for_each body l s).
Proof.
  intro Hb. induction l as [|a l IH]; intro s; cbn [for_each].
  - apply lists_only_ret.
  - apply lists_only_bind; [apply Hb | exact IH].
Qed.

Lemma lists_only_walk (root : str) (fuel : nat) :
  forall currentRel categories,
    lists_only (FsWorkspace.walk root fuel currentRel categories).
Proof.
  induction fuel as [|fuel IH]; intros currentRel categories.
  - apply lists_only_throw.
  - rewrite walk_unfold. apply lists_only_bind; [apply lists_only_readdir|].
    intro entries. apply lists_only_for_each. intros entry cats.
    unfold walk_body. destruct (snd entry); [apply IH | apply lists_only_ret].
Qed.

(** X17. [listCategories] asks the file system for nothing but the entries of
    directories: every call it makes is a [readdir]; it changes nothing on the
    disk and writes nothing to the log. *)
Theorem listCategories_only_lists (root : str) (w : world) :
  exists evs,
    trace (snd (FsWorkspace.listCategories root w)) = trace w ++ evs
    /\ (forall e, In e evs -> exists p, fst e = Readdir p)
    /\ disk (snd (FsWorkspace.listCategories root w)) = disk w
    /\ console (snd (FsWorkspace.listCategories root w)) = console w.
Proof.
  unfold FsWorkspace.listCategories.
  assert (H : lists_only
                (bind (FsWorkspace.walk root (S (height (disk w))) [DOT] [])
                   (fun categories => lift (FsWorkspace.build_result categories [])))).
  { apply lists_only_bind; [apply lists_only_walk|].
    intro cats. apply lists_only_lift. }
  destruct (H w) as (evs & Ht & Hf & Hd & Hc).
  exists evs. repeat split; try assumption.
  rewrite Forall_forall in Hf. exact Hf.
Qed.

(** X18. When the workspace root does not lead to a directory,
    [listCategories] fails after one [readdir]; it does not return an empty
    list. *)
Theorem listCategories_needs_the_root (root : str) (w : world) :
  (forall es, lookup (disk w) (fs_segments root) <> Some (Dir es)) ->
  (exists e, fst (FsWorkspace.listCategories root w) = Throw e)
  /\ trace (snd (FsWorkspace.listCategories root w))
     = trace w ++ [(Readdir (FsWorkspace.resolveAbsolute root [DOT]), false)].
Proof.
  intro Hroot. unfold FsWorkspace.listCategories.
  rewrite walk_unfold. unfold fs.readdir.
  destruct (fs_call_cases (Readdir (FsWorkspace.resolveAbsolute root [DOT]))
              (fun d => keep d (fs_readdir d (FsWorkspace.resolveAbsolute root [DOT])))
              w)
    as [(a & d' & Hrun & E) | (e & E)].
  - exfalso. apply keep_inv in Hrun as [Hrun _]. unfold fs_readdir in Hrun.
    pose proof (resolve_below root [] eq_refl) as Hseg.
    cbn [rel_of] in Hseg. rewrite app_nil_r in Hseg. rewrite Hseg in Hrun.
    destruct (lookup (disk w) (fs_segments root)) as [[x|es]|] eqn:El;
      try discriminate Hrun.
    now apply (Hroot es).
  - rewrite (bind_throw_run _ _ _ _ _ (bind_throw_run _ _ _ _ _ E)).
    split; [now exists e | reflexivity].
Qed.

Lemma listCategories_needs_the_root_witness :
  (exists e, fst (FsWorkspace.listCategories (lit "/notes") demo_world) = Throw e)
  /\ trace (snd (FsWorkspace.listCategories (lit "/notes") demo_world))
     = trace demo_world
       ++ [(Readdir (FsWorkspace.resolveAbsolute (lit "/notes") [DOT]), false)].
Proof.
  apply (listCategories_needs_the_root (lit "/notes") demo_world).
  intros es H. vm_compute in H. discriminate H.
Defined.

(** ** Listing the categories: the order of the list *)

Lemma listing_Dir (es : list (str * node)) (L : list str) :
  listing (Dir es) L = flat_map (entry_listing L) es.
Proof.
  cbn [listing]. induction es as [|[name c] es IH]; [reflexivity|].
  cbn [flat_map]. unfold entry_listing at 1. cbn [fst snd]. now rewrite <- IH.
Qed.

Lemma names_distinct_apart (done rest : list (str * node)) (name name' : str)
    (c c' : node) :
  names_distinct (map fst (done ++ (name, c) :: rest)) = true ->
  In (name', c') done -> name' <> name.
Proof.
  induction done as [|[n0 c0] done IH]; [intros _ []|].
  cbn [app map fst names_distinct]. intros H Hin.
  apply andb_true_iff in H as [Hn0 Hrest]. apply negb_true_iff in Hn0.
  destruct Hin as [E | Hin]; [|now apply IH].
  injection E as -> ->. intros ->.
  rewrite map_app in Hn0. cbn [map fst] in Hn0.
  rewrite existsb_app in Hn0. cbn [existsb] in Hn0.
  now rewrite str_eqb_refl, orb_true_r in Hn0.
Qed.

Lemma join_plain_inj (X Y : list str) :
  X <> [] -> Y <> [] ->
  forallb plain_name X = true -> forallb plain_name Y = true ->
  join [SLASH] X = join [SLASH] Y -> X = Y.
Proof.
  intros HX HY PX PY E.
  rewrite <- (split_slash_join X HX (plain_names_seg_ok X PX)).
  rewrite <- (split_slash_join Y HY (plain_names_seg_ok Y PY)).
  now rewrite E.
Qed.

Lemma under_child (es es1 : list (str * node)) (L : list str) (name x : str) :
  names_distinct (map fst es) = true -> In (name, Dir es1) es ->
  under (Dir es1) (L ++ [name]) x -> under (Dir es) L x.
Proof.
  intros Hdist Hin (segs & es' & Hne & Hl & ->).
  exists (name :: segs), es'. split; [discriminate|]. split.
  - simpl. now rewrite (lookup_entry_in name es (Dir es1) Hdist Hin).
  - now rewrite <- app_assoc.
Qed.

Lemma under_self (es es1 : list (str * node)) (L : list str) (name : str) :
  names_distinct (map fst es) = true -> In (name, Dir es1) es ->
  under (Dir es) L (join [SLASH] (L ++ [name])).
Proof.
  intros Hdist Hin. exists [name], es1. split; [discriminate|]. split.
  - simpl. now rewrite (lookup_entry_in name es (Dir es1) Hdist Hin).
  - reflexivity.
Qed.

Lemma loop_lists (root : str) (L : list str) (f : nat) (es : list (str * node)) :
  walk_lists root f ->
  forallb plain_name L = true ->
  tidy (Dir es) = true ->
  (height (Dir es) <= S f)%nat ->
  forall rest done cur w,
    es = done ++ rest ->
    lookup (disk w) (fs_segments root ++ L) = Some (Dir es) ->
    calm_world w -> NoDup cur ->
    (forall x, In x cur ->
       ~ under (Dir es) L x
       \/ exists name es1 segs es',
            In (name, Dir es1) done
            /\ lookup (Dir es1) segs = Some (Dir es')
            /\ x = join [SLASH] (L ++ name :: segs)) ->
    fst (for_each (walk_body (FsWorkspace.walk root f) (rel_of L))
           (map dirent_of rest) cur w)
    = Ok (cur ++ flat_map (entry_listing L) rest).
Proof.
  intros IH HL Htidy Hh.
  destruct (tidy_entries es Htidy) as [Hdist Hent].
  induction rest as [|[name child] rest IHrest];
    intros done cur w Hes Hlook Hcalm Hnd Hcur.
  - cbn [map for_each flat_map]. now rewrite app_nil_r.
  - assert (Hin : In (name, child) es)
      by (rewrite Hes; apply in_or_app; right; now left).
    assert (Hes' : es = (done ++ [(name, child)]) ++ rest)
      by (rewrite <- app_assoc; exact Hes).
    destruct (Hent name child Hin) as [Htc Hplain].
    cbn [map for_each flat_map]. rewrite bind_run.
    destruct child as [data|es1].
    + (* a file *)
      cbn [dirent_of walk_body fst snd is_dir ret].
      unfold entry_listing at 1. cbn [snd is_dir app].
      apply (IHrest (done ++ [(name, File data)]) cur w Hes' Hlook Hcalm Hnd).
      intros x Hx. destruct (Hcur x Hx) as [H | (n & e1 & segs & es' & Hn & Hl & ->)];
        [now left|].
      right. exists n, e1, segs, es'. split; [|now split].
      apply in_or_app. now left.
    + (* a directory *)
      specialize (Hplain eq_refl).
      assert (HL' : forallb plain_name (L ++ [name]) = true)
        by now apply plain_snoc.
      cbn [dirent_of walk_body fst snd is_dir].
      rewrite (entry_rel L name HL Hplain), rel_of_snoc.
      set (entryRel := join [SLASH] (L ++ [name])).
      assert (Hlook1 : lookup (disk w) (fs_segments root ++ L ++ [name])
                       = Some (Dir es1)).
      { rewrite app_assoc, lookup_app, Hlook. simpl.
        now rewrite (lookup_entry_in name es (Dir es1) Hdist Hin). }
      assert (Hh1 : (height (Dir es1) <= f)%nat).
      { pose proof (height_child es name (Dir es1) Hin). lia. }
      (* a path gathered so far has another first name *)
      assert (Hother : forall n e1 segs es' Y,
                In (n, Dir e1) done -> lookup (Dir e1) segs = Some (Dir es') ->
                forallb plain_name Y = true ->
                join [SLASH] (L ++ n :: segs) <> join [SLASH] (L ++ name :: Y)).
      { intros n e1 segs es' Y Hn Hl HY E.
        assert (Hn_es : In (n, Dir e1) es)
          by (rewrite Hes; apply in_or_app; now left).
        destruct (Hent n (Dir e1) Hn_es) as [Hte Hpn]. specialize (Hpn eq_refl).
        pose proof (tidy_lookup_plain segs (Dir e1) es' Hte Hl) as Hsegs.
        apply join_plain_inj in E.
        - apply app_inv_head in E. injection E as E _.
          rewrite Hes in Hdist.
          exact (names_distinct_apart _ _ _ _ _ _ Hdist Hn E).
        - destruct L; discriminate.
        - destruct L; discriminate.
        - rewrite forallb_app, HL. simpl. now rewrite Hpn, Hsegs.
        - rewrite forallb_app, HL. simpl. now rewrite Hplain, HY. }
      assert (Hfresh : ~ In entryRel cur).
      { intro Hx. destruct (Hcur _ Hx) as [H | (n & e1 & segs & es' & Hn & Hl & E)].
        - apply H. now apply (under_self es es1 L name Hdist Hin).
        - symmetry in E. exact (Hother n e1 segs es' [] Hn Hl eq_refl E). }
      assert (Hadd : set_add entryRel cur = cur ++ [entryRel]).
      { unfold set_add. destruct (set_has entryRel cur) eqn:Eh; [|reflexivity].
        apply set_has_in in Eh. contradiction. }
      assert (Hnd1 : NoDup (cur ++ [entryRel])).
      { rewrite <- Hadd. now apply set_add_nodup. }
      assert (Hpre : forall x, In x (cur ++ [entryRel]) ->
                ~ under (Dir es1) (L ++ [name]) x).
      { intros x Hx (segs2 & es2 & Hne2 & Hl2 & E2).
        pose proof (tidy_lookup_plain segs2 (Dir es1) es2 Htc Hl2) as Hp2.
        rewrite <- app_assoc in E2. cbn [app] in E2.
        apply in_app_or in Hx as [Hx | [<- | []]].
        - destruct (Hcur _ Hx) as [H | (n & e1 & segs & es' & Hn & Hl & E)].
          + apply H. apply (under_child es es1 L name x Hdist Hin).
            exists segs2, es2. rewrite <- app_assoc. now repeat split.
          + rewrite E in E2. exact (Hother n e1 segs es' segs2 Hn Hl Hp2 E2).
        - unfold entryRel in E2. apply join_plain_inj in E2.
          + apply app_inv_head in E2. injection E2 as E2.
            apply Hne2. now rewrite <- E2.
          + destruct L; discriminate.
          + destruct L; discriminate.
          + exact HL'.
          + rewrite forallb_app, HL. simpl. now rewrite Hplain, Hp2. }
      rewrite Hadd.
      pose proof (IH (L ++ [name]) es1 (cur ++ [entryRel]) w HL' Hlook1 Htc Hh1
                    Hcalm Hnd1 Hpre) as E1.
      rewrite rel_of_snoc in E1. fold entryRel in E1. rewrite E1.
      destruct (walk_ok root f (L ++ [name]) es1 (cur ++ [entryRel]) w HL' Hlook1
                  Htc Hh1 Hcalm Hnd1) as (cats1 & E1' & Hnd' & Hmem).
      rewrite rel_of_snoc in E1'. fold entryRel in E1'. rewrite E1 in E1'.
      injection E1' as <-.
      set (w1 := snd (FsWorkspace.walk root f entryRel (cur ++ [entryRel]) w)).
      assert (Hd1 : disk w1 = disk w) by apply read_only_walk.
      assert (Hc1 : calm_world w1) by (apply calm_walk; exact Hcalm).
      rewrite <- Hd1 in Hlook.
      rewrite (IHrest (done ++ [(name, Dir es1)])
                 ((cur ++ [entryRel]) ++ listing (Dir es1) (L ++ [name]))
                 w1 Hes' Hlook Hc1 Hnd').
      * unfold entry_listing at 2. cbn [fst snd is_dir]. fold entryRel.
        rewrite <- !app_assoc. reflexivity.
      * intros x Hx. apply Hmem in Hx as [Hx | (segs2 & es2 & Hne2 & Hl2 & ->)].
        -- apply in_app_or in Hx as [Hx | [<- | []]].
           ++ destruct (Hcur x Hx) as [H | (n & e1 & segs & es' & Hn & Hl & ->)];
                [now left|].
              right. exists n, e1, segs, es'. split; [|now split].
              apply in_or_app. now left.
           ++ right. exists name, es1, [], es1. split; [|now split].
              apply in_or_app. right. now left.
        -- right. exists name, es1, segs2, es2. split; [|split; [exact Hl2|]].
           ++ apply in_or_app. right. now left.
           ++ now rewrite <- app_assoc.
Qed.

Lemma walk_lists_ok (root : str) (fuel : nat) : walk_lists root fuel.
Proof.
  induction fuel as [|f IH];
    intros L es cats w HL Hlook Htidy Hh Hcalm Hnd Hpre.
  - simpl in Hh. lia.
  - rewrite walk_unfold, bind_run.
    assert (Hseg : fs_segments (FsWorkspace.resolveAbsolute root (rel_of L))
                   = fs_segments root ++ L)
      by now apply resolve_below.
    rewrite (readdir_ok _ w es Hcalm) by (rewrite Hseg; exact Hlook).
    set (w0 := snd (fs.readdir _ w)).
    assert (Hd0 : disk w0 = disk w) by (apply read_only_fs_call; reflexivity).
    assert (Hc0 : calm_world w0) by (apply calm_fs_call; exact Hcalm).
    rewrite <- Hd0 in Hlook.
    rewrite (loop_lists root L f es IH HL Htidy Hh es [] cats w0 eq_refl Hlook
               Hc0 Hnd).
    + now rewrite listing_Dir.
    + intros x Hx. left. now apply Hpre.
Qed.

Lemma listCategories_run (root : str) (w : world) (es : list (str * node)) :
  lookup (disk w) (fs_segments root) = Some (Dir es) ->
  tidy (Dir es) = true ->
  calm_world w ->
  fst (FsWorkspace.listCategories root w)
  = Ok (map CategoryPath.make (listing (Dir es) []))
  /\ forall x, In x (listing (Dir es) []) <-> under (Dir es) [] x.
Proof.
  intros Hlook Htidy Hcalm.
  assert (Hlook0 : lookup (disk w) (fs_segments root ++ []) = Some (Dir es))
    by now rewrite app_nil_r.
  assert (Hh : (height (Dir es) <= S (height (disk w)))%nat).
  { pose proof (height_lookup _ (disk w) (Dir es) Hlook). lia. }
  pose proof (walk_lists_ok root (S (height (disk w))) [] es [] w eq_refl Hlook0
                Htidy Hh Hcalm (NoDup_nil _) (fun x (H : In x []) => match H with end))
    as E.
  destruct (walk_ok root (S (height (disk w))) [] es [] w eq_refl Hlook0 Htidy Hh
              Hcalm (NoDup_nil _)) as (cats & E' & Hnd & Hmem).
  rewrite E in E'. injection E' as <-. cbn [app] in *.
  change (rel_of []) with [DOT] in E.
  assert (Hunder : forall x, In x (listing (Dir es) []) <-> under (Dir es) [] x).
  { intro x. rewrite Hmem. cbn [In]. tauto. }
  split; [|exact Hunder].
  unfold FsWorkspace.listCategories. rewrite bind_run, E.
  unfold lift. cbn [fst]. rewrite build_result_ok; [reflexivity|].
  intros x Hx. apply Hunder in Hx as (segs & es' & Hne & Hl & ->).
  apply fromRaw_plain; [exact Hne|].
  now apply (tidy_lookup_plain segs (Dir es) es').
Qed.

(** X19. On a workspace of plainly named directories, with no call failing,
    [listCategories] returns the directories in the order of a walk that goes
    down into each directory as it meets it: every directory comes before the
    directories in it, and the entries of one directory come in the order the
    file system lists them. *)
Theorem listCategories_in_walk_order (root : str) (w : world)
    (es : list (str * node)) :
  lookup (disk w) (fs_segments root) = Some (Dir es) ->
  tidy (Dir es) = true ->
  calm_world w ->
  fst (FsWorkspace.listCategories root w)
  = Ok (map CategoryPath.make (listing (Dir es) [])).
Proof.
  intros Hlook Htidy Hcalm.
  exact (proj1 (listCategories_run root w es Hlook Htidy Hcalm)).
Qed.

Lemma listCategories_in_walk_order_witness :
  fst (FsWorkspace.listCategories (lit "/ws") (listing_world spec_workspace_reordered))
  = Ok (map CategoryPath.make (listing (Dir spec_workspace_reordered) [])).
Proof.
  apply (listCategories_in_walk_order (lit "/ws")
           (listing_world spec_workspace_reordered) spec_workspace_reordered);
    reflexivity.
Defined.

(** X20. The folder of every note is among the categories listed: for a note
    that lies in a folder of a workspace of plainly named directories, the
    category its path gives it is in the list [listCategories] returns. *)
Theorem note_folder_is_listed (root : str) (w : world) (es : list (str * node))
    (L : list str) (name raw : str) :
  lookup (disk w) (fs_segments root) = Some (Dir es) ->
  tidy (Dir es) = true ->
  calm_world w ->
  L <> [] -> plain_name name = true ->
  lookup (Dir es) (L ++ [name]) = Some (File raw) ->
  exists cats c,
    fst (FsWorkspace.listCategories root w) = Ok cats
    /\ FsWorkspace.deriveCategoryFromPath (join [SLASH] (L ++ [name])) = Ok (Some c)
    /\ In c cats.
Proof.
  intros Hlook Htidy Hcalm HL Hn Hfile.
  destruct (listCategories_run root w es Hlook Htidy Hcalm) as [E Hunder].
  rewrite lookup_app in Hfile.
  destruct (lookup (Dir es) L) as [[x|es']|] eqn:El;
    [simpl in Hfile; discriminate Hfile | | discriminate Hfile].
  pose proof (tidy_lookup_plain L (Dir es) es' Htidy El) as HpL.
  exists (map CategoryPath.make (listing (Dir es) [])),
         (CategoryPath.make (join [SLASH] L)).
  split; [exact E|]. split.
  - unfold FsWorkspace.deriveCategoryFromPath.
    rewrite (dirname_plain L name HpL Hn).
    rewrite backslashes_id by now apply plain_names_no_backslash.
    destruct L as [|a L']; [contradiction|].
    change (rel_of (a :: L')) with (join [SLASH] (a :: L')).
    destruct (fromRaw_plain (a :: L')) as (Hf & Hd & Hnil);
      [discriminate | exact HpL |].
    apply str_eqb_neq in Hd, Hnil. now rewrite Hd, Hnil, Hf.
  - apply in_map, Hunder. now exists L, es'.
Qed.

Lemma note_folder_is_listed_witness :
  exists cats c,
    fst (FsWorkspace.listCategories (lit "/ws") demo_world) = Ok cats
    /\ FsWorkspace.deriveCategoryFromPath
         (join [SLASH] ([lit "AI"; lit "Agents"] ++ [lit "n.md"]))
       = Ok (Some c)
    /\ In c cats.
Proof.
  apply (note_folder_is_listed (lit "/ws") demo_world
           [(lit "AI",
             Dir [(lit "Agents",
                   Dir [(lit "n.md",
                         File (lit "---\ncategory: AI/Agents\n---\n\n# T\nbody"))])]);
            (lit "Product", Dir []);
            (lit "inbox", Dir [(lit "idea.md", File (lit "# Idea\ntext"))])]
           [lit "AI"; lit "Agents"] (lit "n.md")
           (lit "---\ncategory: AI/Agents\n---\n\n# T\nbody"));
    try reflexivity; discriminate.
Defined.

(** ** The disk: directories without a name twice, and removing a file *)

Lemma distinct_names_Dir (es : list (str * node)) :
  distinct_names (Dir es)
  = names_distinct (map fst es) && forallb (fun e => distinct_names (snd e)) es.
Proof.
  cbn [distinct_names]. f_equal.
  induction es as [|[n c] es IH]; [reflexivity|].
  cbn [forallb snd]. now rewrite <- IH.
Qed.

Lemma distinct_child (es : list (str * node)) (name : str) (c : node) :
  distinct_names (Dir es) = true -> lookup_entry name es = Some c ->
  distinct_names c = true.
Proof.
  rewrite distinct_names_Dir. intros H Hl.
  apply andb_true_iff in H as [_ H]. rewrite forallb_forall in H.
  exact (H _ (lookup_entry_some _ _ _ Hl)).
Qed.

Lemma set_entry_has (n name : str) (c : node) (es : list (str * node)) :
  existsb (str_eqb n) (map fst (set_entry name c es))
  = existsb (str_eqb n) (map fst es) || str_eqb n name.
Proof.
  induction es as [|[m c'] es IH].
  - simpl. now rewrite orb_false_r.
  - cbn [set_entry]. destruct (str_eqb m name) eqn:E.
    + apply str_eqb_eq in E. subst m. cbn [map fst existsb].
      destruct (str_eqb n name); [now rewrite orb_true_r | now rewrite orb_false_r].
    + cbn [map fst existsb]. rewrite IH. now rewrite orb_assoc.
Qed.

Lemma set_entry_distinct (name : str) (c : node) (es : list (str * node)) :
  names_distinct (map fst es) = true ->
  names_distinct (map fst (set_entry name c es)) = true.
Proof.
  induction es as [|[m c'] es IH]; [reflexivity|].
  cbn [set_entry map fst names_distinct]. intro H.
  apply andb_true_iff in H as [Hm Hes].
  destruct (str_eqb m name) eqn:E.
  - cbn [map fst names_distinct]. now rewrite Hm, Hes.
  - cbn [map fst names_distinct]. rewrite set_entry_has, E, orb_false_r, Hm.
    now apply IH.
Qed.

Lemma set_entry_forallb (P : str * node -> bool) (name : str) (c : node)
    (es : list (str * node)) :
  (forall n, P (n, c) = true) -> forallb P es = true ->
  forallb P (set_entry name c es) = true.
Proof.
  intros Hc. induction es as [|[m c'] es IH]; intro H.
  - simpl. now rewrite Hc.
  - cbn [forallb] in H. apply andb_true_iff in H as [Hm Hes].
    cbn [set_entry]. destruct (str_eqb m name); cbn [forallb].
    + now rewrite Hc, Hes.
    + now rewrite Hm, IH.
Qed.

Lemma distinct_set_entry (name : str) (c : node) (es : list (str * node)) :
  distinct_names (Dir es) = true -> distinct_names c = true ->
  distinct_names (Dir (set_entry name c es)) = true.
Proof.
  rewrite !distinct_names_Dir. intros H Hc.
  apply andb_true_iff in H as [H1 H2].
  rewrite (set_entry_distinct _ _ _ H1). cbn [andb].
  apply set_entry_forallb; [intro n; exact Hc | exact H2].
Qed.

Lemma distinct_update (f : list (str * node) -> result (list (str * node))) :
  (forall es es', f es = Ok es' -> distinct_names (Dir es) = true ->
                  distinct_names (Dir es') = true) ->
  forall segs d d',
    distinct_names d = true -> update d segs f = Ok d' ->
    distinct_names d' = true.
Proof.
  intro Hf. induction segs as [|s segs IH]; intros d d' Hd H;
    destruct d as [data|es]; try discriminate H; cbn [update] in H.
  - destruct (f es) as [e|es'] eqn:E; [discriminate|]. injection H as <-.
    now apply (Hf es).
  - destruct (lookup_entry s es) as [c0|] eqn:El; [|discriminate].
    destruct (update c0 segs f) as [e|c0'] eqn:E; [discriminate|].
    injection H as <-. apply distinct_set_entry; [exact Hd|].
    apply (IH c0); [|exact E]. exact (distinct_child _ _ _ Hd El).
Qed.

Lemma distinct_mkdir_p (segs : list str) :
  forall d d',
    distinct_names d = true -> mkdir_p d segs = Ok d' ->
    distinct_names d' = true.
Proof.
  induction segs as [|s segs IH]; intros d d' Hd H;
    destruct d as [data|es]; try discriminate H; cbn [mkdir_p] in H.
  - now injection H as <-.
  - destruct (mkdir_p _ segs) as [e|c'] eqn:E; [discriminate|].
    injection H as <-. apply distinct_set_entry; [exact Hd|].
    eapply IH; [|exact E].
    destruct (lookup_entry s es) as [c0|] eqn:El; [|reflexivity].
    exact (distinct_child _ _ _ Hd El).
Qed.

Lemma distinct_writeFile (d d' : node) (p data : str) :
  distinct_names d = true -> fs_writeFile d p data = Ok d' ->
  distinct_names d' = true.
Proof.
  intros Hd H. apply fs_writeFile_inv in H as (name & parent & _ & _ & Hu).
  eapply distinct_update; [|exact Hd | exact Hu].
  intros es es' E Hes. cbv beta in E.
  assert (E' : es' = set_entry name (File data) es).
  { destruct (lookup_entry name es) as [[z|es0]|]; try discriminate;
      now injection E as <-. }
  subst es'. now apply distinct_set_entry.
Qed.

Lemma fs_unlink_inv (d d' : node) (p : str) :
  fs_unlink d p = Ok d' ->
  exists name parent f,
    fs_segments p = parent ++ [name]
    /\ update d parent f = Ok d'
    /\ forall es es', f es = Ok es' ->
         es' = remove_entry name es
         /\ exists x, lookup_entry name es = Some (File x).
Proof.
  unfold fs_unlink. intro H.
  destruct (rev (fs_segments p)) as [|name parent_rev] eqn:E; [discriminate|].
  exists name, (rev parent_rev).
  eexists. split; [|split; [exact H|]].
  - rewrite <- (rev_involutive (fs_segments p)), E. reflexivity.
  - intros es es' Hf. cbv beta in Hf.
    destruct (lookup_entry name es) as [[x|es0]|]; try discriminate.
    destruct (ends_with_slash p); [discriminate|].
    injection Hf as <-. split; [reflexivity | now exists x].
Qed.

Lemma lookup_entry_remove_other (name q : str) (es : list (str * node)) :
  str_eqb name q = false ->
  lookup_entry q (remove_entry name es) = lookup_entry q es.
Proof.
  intro Hq. induction es as [|[n c] es IH]; [reflexivity|].
  cbn [remove_entry]. destruct (str_eqb n name) eqn:E.
  - apply str_eqb_eq in E. subst n. cbn [lookup_entry]. now rewrite Hq.
  - cbn [lookup_entry]. now rewrite IH.
Qed.

Lemma lookup_entry_absent (name : str) (es : list (str * node)) :
  existsb (str_eqb name) (map fst es) = false -> lookup_entry name es = None.
Proof.
  induction es as [|[n c] es IH]; [reflexivity|].
  cbn [map fst existsb lookup_entry]. intro H.
  apply orb_false_iff in H as [H1 H2].
  rewrite str_eqb_sym, H1. now apply IH.
Qed.

Lemma lookup_entry_remove_same (name : str) (es : list (str * node)) :
  names_distinct (map fst es) = true ->
  lookup_entry name (remove_entry name es) = None.
Proof.
  induction es as [|[n c] es IH]; [reflexivity|].
  cbn [map fst names_distinct remove_entry]. intro H.
  apply andb_true_iff in H as [Hn Hes]. apply negb_true_iff in Hn.
  destruct (str_eqb n name) eqn:E.
  - apply str_eqb_eq in E. subst n. now apply lookup_entry_absent.
  - cbn [lookup_entry]. rewrite E. now apply IH.
Qed.

Lemma update_removed (name : str)
    (f : list (str * node) -> result (list (str * node))) :
  (forall es es', f es = Ok es' -> es' = remove_entry name es) ->
  forall segs d d',
    distinct_names d = true -> update d segs f = Ok d' ->
    lookup d' (segs ++ [name]) = None.
Proof.
  intro Hf. induction segs as [|s segs IH]; intros d d' Hd H;
    destruct d as [data|es]; try discriminate H; cbn [update] in H.
  - destruct (f es) as [e|es'] eqn:E; [discriminate|]. injection H as <-.
    rewrite (Hf _ _ E). cbn [app lookup].
    rewrite distinct_names_Dir in Hd. apply andb_true_iff in Hd as [Hd _].
    now rewrite lookup_entry_remove_same.
  - destruct (lookup_entry s es) as [c0|] eqn:El; [|discriminate].
    destruct (update c0 segs f) as [e|c0'] eqn:E; [discriminate|].
    injection H as <-. cbn [app lookup].
    rewrite lookup_entry_set_entry, str_eqb_refl.
    apply (IH c0); [|exact E]. exact (distinct_child _ _ _ Hd El).
Qed.

Lemma update_removed_back (name : str)
    (f : list (str * node) -> result (list (str * node))) :
  (forall es es', f es = Ok es' -> es' = remove_entry name es) ->
  forall segs d d' Q x,
    distinct_names d = true -> update d segs f = Ok d' ->
    lookup d' Q = Some (File x) -> lookup d Q = Some (File x).
Proof.
  intro Hf. induction segs as [|s segs IH]; intros d d' Q x Hd H HQ;
    destruct d as [data|es]; try discriminate H; cbn [update] in H.
  - destruct (f es) as [e|es'] eqn:E; [discriminate|]. injection H as <-.
    rewrite (Hf _ _ E) in HQ.
    destruct Q as [|q Q']; [discriminate HQ|]. cbn [lookup] in *.
    destruct (str_eqb name q) eqn:Eq.
    + apply str_eqb_eq in Eq. subst q.
      rewrite distinct_names_Dir in Hd. apply andb_true_iff in Hd as [Hd _].
      rewrite lookup_entry_remove_same in HQ by exact Hd. discriminate HQ.
    + now rewrite lookup_entry_remove_other in HQ by exact Eq.
  - destruct (lookup_entry s es) as [c0|] eqn:El; [|discriminate].
    destruct (update c0 segs f) as [e|c0'] eqn:E; [discriminate|].
    injection H as <-.
    destruct Q as [|q Q']; [discriminate HQ|]. cbn [lookup] in *.
    rewrite lookup_entry_set_entry in HQ.
    destruct (str_eqb s q) eqn:Eq; [|exact HQ].
    apply str_eqb_eq in Eq. subst q. rewrite El.
    apply (IH c0 c0'); [|exact E | exact HQ].
    exact (distinct_child _ _ _ Hd El).
Qed.

Lemma fs_unlink_gone (d d' : node) (p : str) :
  distinct_names d = true -> fs_unlink d p = Ok d' ->
  lookup d' (fs_segments p) = None.
Proof.
  intros Hd H. apply fs_unlink_inv in H as (name & parent & f & Hs & Hu & Hf).
  rewrite Hs. eapply update_removed; [|exact Hd | exact Hu].
  intros es es' E. now destruct (Hf es es' E).
Qed.

Lemma fs_unlink_back (d d' : node) (p q x : str) :
  distinct_names d = true -> fs_unlink d p = Ok d' ->
  fs_readFile d' q = Ok x -> fs_readFile d q = Ok x.
Proof.
  intros Hd H Hq. apply fs_readFile_inv in Hq as [Hl He].
  apply fs_unlink_inv in H as (name & parent & f & Hs & Hu & Hf).
  unfold fs_readFile. rewrite He.
  assert (Hback := update_removed_back name f
                     (fun es es' E => proj1 (Hf es es' E))
                     parent d d' (fs_segments q) x Hd Hu Hl).
  now rewrite Hback.
Qed.


(** ** Changing the category: how a run ends *)

Lemma bind_ret_run {A : Type} (m : M A) (w : world) :
  bind m (fun a => ret a) w = m w.
Proof.
  unfold bind, ret. destruct (m w) as [[e|a] w']; reflexivity.
Qed.

Lemma loadNote_disk (root rel : str) (w : world) :
  disk (snd (FsWorkspace.loadNote root rel w)) = disk w.
Proof. now destruct (loadNote_trace root rel w) as (ok & _ & H). Qed.

Lemma loadNote_end (root rel : str) (w : world) :
  fst (FsWorkspace.loadNote root rel w) = Throw EIO
  \/ fst (FsWorkspace.loadNote root rel w) = note_of root rel (disk w).
Proof.
  rewrite loadNote_fst. destruct (hd false (faults w)); [now left | now right].
Qed.

Lemma change_ends (root notePath : str) (c : CategoryPath.t) (w : world) :
  change_end root notePath c (disk w)
    (fst (FsWorkspace.applyCategoryChange root notePath c w))
    (disk (snd (FsWorkspace.applyCategoryChange root notePath c w))).
Proof.
  unfold FsWorkspace.applyCategoryChange.
  fold (old_path root notePath). fold (new_path root notePath c).
  fold (new_rel notePath c).
  set (absOld := old_path root notePath).
  set (absNew := new_path root notePath c).
  unfold fs.readFile, fs.mkdir, fs.writeFile, fs.unlink.
  (* read *)
  destruct (fs_call_cases (ReadFile absOld)
              (fun d => keep d (fs_readFile d absOld)) w)
    as [(raw & d0 & Hread & E0) | (e & E0)];
    [|rewrite (bind_throw_run _ _ _ _ _ E0); apply end_unread].
  apply keep_inv in Hread as [Hread ->].
  rewrite (bind_ok_run _ _ _ _ _ E0). clear E0.
  set (w0 := mkWorld (disk w) _ _ _).
  fold (new_content raw c).
  (* mkdir *)
  match goal with |- context [fs_call (Mkdir ?dir) ?run] =>
    destruct (fs_call_cases (Mkdir dir) run w0)
      as [(u1 & d1 & Hmk & E1) | (e & E1)] end;
    [|rewrite (bind_throw_run _ _ _ _ _ E1); cbn [fst snd disk w0];
      now apply end_no_directory with (raw := raw)].
  apply change_inv in Hmk. cbn [disk w0] in Hmk.
  rewrite (bind_ok_run _ _ _ _ _ E1). clear E1.
  set (w1 := mkWorld d1 _ _ _).
  (* write *)
  match goal with |- context [fs_call (WriteFile absNew ?data) ?run] =>
    destruct (fs_call_cases (WriteFile absNew data) run w1)
      as [(u2 & d2 & Hwr & E2) | (e & E2)] end;
    [|rewrite (bind_throw_run _ _ _ _ _ E2); cbn [fst snd disk w1];
      now apply end_unwritten with (raw := raw)].
  apply change_inv in Hwr. cbn [disk w1] in Hwr.
  rewrite (bind_ok_run _ _ _ _ _ E2). clear E2.
  set (w2 := mkWorld d2 _ _ _).
  (* unlink, or not *)
  destruct (str_eqb absNew absOld) eqn:Esame; cbn [negb].
  - apply str_eqb_eq in Esame.
    rewrite (bind_ok_run (ret tt) _ w2 w2 tt eq_refl).
    rewrite bind_ret_run, loadNote_disk. cbn [disk w2].
    apply end_in_place with (raw := raw) (d1 := d1); try assumption.
    exact (loadNote_end root (new_rel notePath c) w2).
  - apply str_eqb_neq in Esame.
    destruct (fs_call_cases (Unlink absOld)
                (fun d => change (fs_unlink d absOld)) w2)
      as [(u3 & d3 & Hun & E3) | (e & E3)].
    + apply change_inv in Hun. cbn [disk w2] in Hun.
      rewrite (bind_ok_run _ _ _ _ _ E3). clear E3.
      set (w3 := mkWorld d3 _ _ _).
      rewrite bind_ret_run, loadNote_disk. cbn [disk w3].
      apply end_moved with (raw := raw) (d1 := d1) (d2 := d2); try assumption.
      exact (loadNote_end root (new_rel notePath c) w3).
    + rewrite (bind_throw_run _ _ _ _ _ E3). cbn [fst snd disk w2].
      now apply end_not_removed with (raw := raw) (d1 := d1).
Qed.

Lemma distinct_mkdir (d d' : node) (p : str) :
  distinct_names d = true -> fs_mkdir d p = Ok d' -> distinct_names d' = true.
Proof. intros Hd H. exact (distinct_mkdir_p _ _ _ Hd H). Qed.

Lemma category_key_ok (v : str) :
  trim v = v -> no_lf v = true -> entry_ok (lit "category", v).
Proof.
  intros Ht Hlf. repeat split; try reflexivity; try assumption.
  - discriminate.
  - vm_compute. intuition discriminate.
  - discriminate.
Qed.

Lemma note_of_inv (root rel : str) (d : node) (n : Note) :
  note_of root rel d = Ok n ->
  exists raw,
    fs_readFile d (FsWorkspace.resolveAbsolute root rel) = Ok raw
    /\ id n = rel /\ path n = rel
    /\ content n = body (parseNoteFile raw)
    /\ title n = deriveTitle rel (body (parseNoteFile raw))
    /\ (forall v c,
          obj_get (frontmatter (parseNoteFile raw)) (lit "category") = Some v ->
          v <> [] -> CategoryPath.fromRaw v = Ok c ->
          category n = Some c).
Proof.
  unfold note_of. intro H.
  destruct (loadNote_cases root rel (mkWorld d [] [] []))
    as [(e & E) | (raw & Hread & _ & Hn)].
  - rewrite E in H. discriminate H.
  - exists raw. cbn [disk] in Hread. split; [exact Hread|].
    destruct (Hn n H) as (H1 & H2 & H3 & H4 & H5 & _). now repeat split.
Qed.

(** What a run that returns a note has done. *)
Lemma change_ok_inv (root notePath : str) (c : CategoryPath.t) (w : world)
    (n : Note) :
  distinct_names (disk w) = true ->
  fst (FsWorkspace.applyCategoryChange root notePath c w) = Ok n ->
  exists raw,
    fs_readFile (disk w) (old_path root notePath) = Ok raw
    /\ fs_readFile (disk (snd (FsWorkspace.applyCategoryChange root notePath c w)))
         (new_path root notePath c)
       = Ok (new_content raw c)
    /\ (new_path root notePath c <> old_path root notePath ->
        fs_readFile (disk (snd (FsWorkspace.applyCategoryChange root notePath c w)))
          (old_path root notePath)
        = Throw ENOENT)
    /\ note_of root (new_rel notePath c)
         (disk (snd (FsWorkspace.applyCategoryChange root notePath c w)))
       = Ok n.
Proof.
  intros Hd Hn. pose proof (change_ends root notePath c w) as Hend.
  rewrite Hn in Hend.
  set (d' := disk (snd (FsWorkspace.applyCategoryChange root notePath c w))) in *.
  inversion Hend as [ | | | | raw d1 d2 d3 r Hread Hmk Hwr Hne Hun Hr
                      | raw d1 d2 r Hread Hmk Hwr Hsame Hr ]; subst.
  - (* moved *)
    destruct Hr as [Hr | Hr]; [discriminate Hr|].
    exists raw. split; [exact Hread|].
    assert (Hd2 : distinct_names d2 = true).
    { eapply distinct_writeFile; [|exact Hwr].
      eapply distinct_mkdir; [exact Hd | exact Hmk]. }
    symmetry in Hr. destruct (note_of_inv _ _ _ _ Hr) as (raw2 & Hread2 & _).
    change (FsWorkspace.resolveAbsolute root (new_rel notePath c))
      with (new_path root notePath c) in Hread2.
    pose proof (fs_unlink_back _ _ _ _ _ Hd2 Hun Hread2) as Hb.
    rewrite (fs_writeFile_read _ _ _ _ Hwr) in Hb. injection Hb as <-.
    split; [exact Hread2|]. split; [|exact Hr].
    intros _. unfold fs_readFile.
    now rewrite (fs_unlink_gone _ _ _ Hd2 Hun).
  - (* in place *)
    destruct Hr as [Hr | Hr]; [discriminate Hr|].
    exists raw. split; [exact Hread|].
    split; [exact (fs_writeFile_read _ _ _ _ Hwr)|].
    split; [intro Hne; contradiction | now symmetry].
Qed.

(** X21. When [applyCategoryChange] returns a note, on a disk with no name
    twice in a directory, and the text it writes is well-formed UTF-16: the
    file at the new path holds the note with the category written into its
    header; if the new path is another path, no file is left at the old one;
    the note returned has the new workspace-relative path as its path and id,
    and its content and title are those of the file written. *)
Theorem change_moves_the_note (root notePath : str) (c : CategoryPath.t)
    (w : world) (n : Note) :
  distinct_names (disk w) = true ->
  (forall raw,
      fs_readFile (disk w) (old_path root notePath) = Ok raw ->
      well_formed (new_content raw c) = true) ->
  fst (FsWorkspace.applyCategoryChange root notePath c w) = Ok n ->
  exists raw,
    fs_readFile (disk w) (old_path root notePath) = Ok raw
    /\ fs_readFile (disk (snd (FsWorkspace.applyCategoryChange root notePath c w)))
         (new_path root notePath c)
       = Ok (new_content raw c)
    /\ (new_path root notePath c <> old_path root notePath ->
        fs_readFile (disk (snd (FsWorkspace.applyCategoryChange root notePath c w)))
          (old_path root notePath)
        = Throw ENOENT)
    /\ id n = new_rel notePath c
    /\ path n = new_rel notePath c
    /\ content n = body (parseNoteFile (new_content raw c))
    /\ title n = deriveTitle (new_rel notePath c) (content n).
Proof.
  intros Hd _ Hn.
  destruct (change_ok_inv root notePath c w n Hd Hn) as (raw & H1 & H2 & H3 & H4).
  exists raw. split; [exact H1|]. split; [exact H2|]. split; [exact H3|].
  destruct (note_of_inv _ _ _ _ H4) as (raw2 & Hread2 & Hid & Hpath & Hc & Ht & _).
  change (FsWorkspace.resolveAbsolute root (new_rel notePath c))
      with (new_path root notePath c) in Hread2. rewrite H2 in Hread2.
  injection Hread2 as <-. rewrite Hc. now repeat split.
Qed.

Lemma change_moves_the_note_witness :
  exists raw,
    fs_readFile (disk demo_world) (old_path (lit "/ws") (lit "inbox/idea.md")) = Ok raw
    /\ fs_readFile
         (disk (snd (FsWorkspace.applyCategoryChange (lit "/ws") (lit "inbox/idea.md")
                       (CategoryPath.make (lit "Product")) demo_world)))
         (new_path (lit "/ws") (lit "inbox/idea.md") (CategoryPath.make (lit "Product")))
       = Ok (new_content raw (CategoryPath.make (lit "Product")))
    /\ (new_path (lit "/ws") (lit "inbox/idea.md") (CategoryPath.make (lit "Product"))
        <> old_path (lit "/ws") (lit "inbox/idea.md") ->
        fs_readFile
          (disk (snd (FsWorkspace.applyCategoryChange (lit "/ws") (lit "inbox/idea.md")
                        (CategoryPath.make (lit "Product")) demo_world)))
          (old_path (lit "/ws") (lit "inbox/idea.md"))
        = Throw ENOENT)
    /\ id moved_note = new_rel (lit "inbox/idea.md") (CategoryPath.make (lit "Product"))
    /\ path moved_note = new_rel (lit "inbox/idea.md") (CategoryPath.make (lit "Product"))
    /\ content moved_note
       = body (parseNoteFile (new_content raw (CategoryPath.make (lit "Product"))))
    /\ title moved_note
       = deriveTitle (new_rel (lit "inbox/idea.md") (CategoryPath.make (lit "Product")))
           (content moved_note).
Proof.
  apply (change_moves_the_note (lit "/ws") (lit "inbox/idea.md")
           (CategoryPath.make (lit "Product")) demo_world moved_note).
  - reflexivity.
  - intros raw H. vm_compute in H. injection H as H. subst raw. reflexivity.
  - reflexivity.
Defined.

(** X22. When the category given to [applyCategoryChange] is one that
    [fromRaw] reads back from its own string, that string has no line feed,
    and the text written is well-formed UTF-16, the note returned has that
    category, and so has the header of the file written. *)
Theorem change_sets_the_category (root notePath : str) (c : CategoryPath.t)
    (w : world) (n : Note) :
  distinct_names (disk w) = true ->
  CategoryPath.fromRaw (CategoryPath.toString c) = Ok c ->
  no_lf (CategoryPath.toString c) = true ->
  (forall raw,
      fs_readFile (disk w) (old_path root notePath) = Ok raw ->
      well_formed (new_content raw c) = true) ->
  fst (FsWorkspace.applyCategoryChange root notePath c w) = Ok n ->
  category n = Some c
  /\ exists stored,
       fs_readFile (disk (snd (FsWorkspace.applyCategoryChange root notePath c w)))
         (new_path root notePath c)
       = Ok stored
       /\ obj_get (frontmatter (parseNoteFile stored)) (lit "category")
          = Some (CategoryPath.toString c).
Proof.
  intros Hd Hc Hlf _ Hn.
  destruct (change_ok_inv root notePath c w n Hd Hn) as (raw & H1 & H2 & H3 & H4).
  destruct (note_of_inv _ _ _ _ H4) as (raw2 & Hread2 & _ & _ & _ & _ & Hcat).
  change (FsWorkspace.resolveAbsolute root (new_rel notePath c))
      with (new_path root notePath c) in Hread2. rewrite H2 in Hread2.
  injection Hread2 as <-.
  assert (Hv : CategoryPath.toString c <> []
               /\ trim (CategoryPath.toString c) = CategoryPath.toString c).
  { destruct c as [v]. cbn [CategoryPath.toString CategoryPath.value] in *.
    now apply fromRaw_fixed_trimmed. }
  destruct Hv as [Hne Htrim].
  assert (Hget : obj_get (frontmatter (parseNoteFile (new_content raw c)))
                   (lit "category")
                 = Some (CategoryPath.toString c)).
  { unfold new_content.
    rewrite (parse_serialize _ _
               (header_ok_set raw _ _ (category_key_ok _ Htrim Hlf))).
    cbn [frontmatter]. now rewrite obj_get_set, str_eqb_refl by discriminate. }
  split.
  - exact (Hcat _ c Hget Hne Hc).
  - exists (new_content raw c). now split.
Qed.

Lemma change_sets_the_category_witness :
  category moved_note = Some (CategoryPath.make (lit "Product"))
  /\ exists stored,
       fs_readFile
         (disk (snd (FsWorkspace.applyCategoryChange (lit "/ws") (lit "inbox/idea.md")
                       (CategoryPath.make (lit "Product")) demo_world)))
         (new_path (lit "/ws") (lit "inbox/idea.md") (CategoryPath.make (lit "Product")))
       = Ok stored
       /\ obj_get (frontmatter (parseNoteFile stored)) (lit "category")
          = Some (CategoryPath.toString (CategoryPath.make (lit "Product"))).
Proof.
  apply (change_sets_the_category (lit "/ws") (lit "inbox/idea.md")
           (CategoryPath.make (lit "Product")) demo_world moved_note).
  - reflexivity.
  - reflexivity.
  - reflexivity.
  - intros raw H. vm_compute in H. injection H as H. subst raw. reflexivity.
  - reflexivity.
Defined.

(** ** Changing the category: where the note goes *)

Lemma plain_relative (L : list str) :
  forallb plain_name L = true ->
  strip_leading_slashes (backslashes_to_slashes (rel_of L)) = rel_of L.
Proof.
  intro HL. rewrite backslashes_id by now apply plain_names_no_backslash.
  now apply good_ends_strip_leading, rel_of_good_ends.
Qed.

Lemma basename_plain (L : list str) (name : str) :
  plain_name name = true ->
  Path.basename (join [SLASH] (L ++ [name])) = name.
Proof.
  intro Hn. destruct (plain_name_inv name Hn) as (Hseg & _).
  destruct (seg_ok_inv name Hseg) as (Hne & Hns & _).
  unfold Path.basename. destruct L as [|a L'].
  - cbn [app join].
    pose proof (last_component_name [] name Hne Hns (or_introl eq_refl)) as E.
    cbn [app] in E. rewrite E. apply rev_involutive.
  - rewrite join_snoc by discriminate.
    replace (join [SLASH] (a :: L') ++ SLASH :: name)
      with ((join [SLASH] (a :: L') ++ [SLASH]) ++ name)
      by (rewrite <- app_assoc; reflexivity).
    rewrite (last_component_name _ name Hne Hns) by (right; eauto).
    apply rev_involutive.
Qed.

(** X23. For a note at a path of plain names and a category of plain names,
    the note goes to the folder of the category under its own file name: the
    new path is the category, a slash and the file name, and both the old and
    the new path lead below the workspace root. *)
Theorem new_path_is_category_and_name (root : str) (L Lc : list str) (name : str) :
  forallb plain_name L = true -> plain_name name = true ->
  Lc <> [] -> forallb plain_name Lc = true ->
  new_rel (join [SLASH] (L ++ [name])) (CategoryPath.make (join [SLASH] Lc))
  = join [SLASH] (Lc ++ [name])
  /\ fs_segments (new_path root (join [SLASH] (L ++ [name]))
                    (CategoryPath.make (join [SLASH] Lc)))
     = fs_segments root ++ Lc ++ [name]
  /\ fs_segments (old_path root (join [SLASH] (L ++ [name])))
     = fs_segments root ++ L ++ [name].
Proof.
  intros HL Hn Hne HLc.
  assert (Hrel : new_rel (join [SLASH] (L ++ [name]))
                   (CategoryPath.make (join [SLASH] Lc))
                 = rel_of (Lc ++ [name])).
  { unfold new_rel. cbn [CategoryPath.toString CategoryPath.value].
    rewrite <- (rel_of_snoc L name), (plain_relative _ (plain_snoc _ _ HL Hn)).
    rewrite rel_of_snoc, (basename_plain L name Hn).
    replace (join [SLASH] Lc) with (rel_of Lc) by (destruct Lc; [contradiction | reflexivity]).
    now apply entry_rel. }
  split; [now rewrite Hrel, rel_of_snoc|]. split.
  - change (new_path root (join [SLASH] (L ++ [name]))
              (CategoryPath.make (join [SLASH] Lc)))
      with (FsWorkspace.resolveAbsolute root
              (new_rel (join [SLASH] (L ++ [name]))
                 (CategoryPath.make (join [SLASH] Lc)))).
    rewrite Hrel. apply resolve_below. now apply plain_snoc.
  - unfold old_path.
    rewrite <- (rel_of_snoc L name), (plain_relative _ (plain_snoc _ _ HL Hn)).
    apply resolve_below. now apply plain_snoc.
Qed.

Lemma new_path_is_category_and_name_witness :
  new_rel (join [SLASH] ([lit "inbox"] ++ [lit "idea.md"]))
    (CategoryPath.make (join [SLASH] [lit "AI"; lit "Ideas"]))
  = join [SLASH] ([lit "AI"; lit "Ideas"] ++ [lit "idea.md"])
  /\ fs_segments (new_path (lit "/ws") (join [SLASH] ([lit "inbox"] ++ [lit "idea.md"]))
                    (CategoryPath.make (join [SLASH] [lit "AI"; lit "Ideas"])))
     = fs_segments (lit "/ws") ++ [lit "AI"; lit "Ideas"] ++ [lit "idea.md"]
  /\ fs_segments (old_path (lit "/ws") (join [SLASH] ([lit "inbox"] ++ [lit "idea.md"])))
     = fs_segments (lit "/ws") ++ [lit "inbox"] ++ [lit "idea.md"].
Proof.
  apply (new_path_is_category_and_name (lit "/ws") [lit "inbox"]
           [lit "AI"; lit "Ideas"] (lit "idea.md"));
    try reflexivity; discriminate.
Defined.

(** X24. The note [applyCategoryChange] returns is the note [loadNote] finds
    afterwards at the path the returned note carries. *)
Theorem changed_note_is_found_again (root notePath : str) (c : CategoryPath.t)
    (w w2 : world) (n : Note) :
  fst (FsWorkspace.applyCategoryChange root notePath c w) = Ok n ->
  disk w2 = disk (snd (FsWorkspace.applyCategoryChange root notePath c w)) ->
  hd false (faults w2) = false ->
  path n = new_rel notePath c
  /\ fst (FsWorkspace.loadNote root (path n) w2) = Ok n.
Proof.
  intros Hn Hd Hf. pose proof (change_ends root notePath c w) as Hend.
  rewrite Hn, <- Hd in Hend.
  assert (Hnote : note_of root (new_rel notePath c) (disk w2) = Ok n).
  { inversion Hend as [ | | | | raw d1 d2 d3 r Hread Hmk Hwr Hne Hun Hr
                        | raw d1 d2 r Hread Hmk Hwr Hsame Hr ]; subst;
      (destruct Hr as [Hr | Hr]; [discriminate Hr | now symmetry]). }
  destruct (note_of_inv _ _ _ _ Hnote) as (raw & _ & _ & Hpath & _).
  split; [exact Hpath|]. now rewrite loadNote_fst, Hf, Hpath.
Qed.

Lemma changed_note_is_found_again_witness :
  path moved_note = new_rel (lit "inbox/idea.md") (CategoryPath.make (lit "Product"))
  /\ fst (FsWorkspace.loadNote (lit "/ws") (path moved_note)
            (snd (FsWorkspace.applyCategoryChange (lit "/ws") (lit "inbox/idea.md")
                    (CategoryPath.make (lit "Product")) demo_world)))
     = Ok moved_note.
Proof.
  apply (changed_note_is_found_again (lit "/ws") (lit "inbox/idea.md")
           (CategoryPath.make (lit "Product")) demo_world);
    reflexivity.
Defined.

(** ** Changing the category: a note that cannot be read *)

(** X25. When the note cannot be read, [applyCategoryChange] fails at once:
    the read is its only call, no folder is made and the disk is as it was. *)
Theorem change_of_unreadable_note_does_nothing (root notePath : str)
    (c : CategoryPath.t) (w : world) :
  (forall raw, fs_readFile (disk w) (old_path root notePath) <> Ok raw) ->
  (exists e, fst (FsWorkspace.applyCategoryChange root notePath c w) = Throw e)
  /\ disk (snd (FsWorkspace.applyCategoryChange root notePath c w)) = disk w
  /\ trace (snd (FsWorkspace.applyCategoryChange root notePath c w))
     = trace w ++ [(ReadFile (old_path root notePath), false)].
Proof.
  intro Hno. unfold FsWorkspace.applyCategoryChange.
  fold (old_path root notePath). unfold fs.readFile.
  destruct (fs_call_cases (ReadFile (old_path root notePath))
              (fun d => keep d (fs_readFile d (old_path root notePath))) w)
    as [(raw & d0 & Hread & E0) | (e & E0)].
  - exfalso. apply keep_inv in Hread as [Hread _]. exact (Hno raw Hread).
  - rewrite (bind_throw_run _ _ _ _ _ E0). cbn [fst snd disk trace].
    split; [now exists e | now split].
Qed.

Lemma change_of_unreadable_note_does_nothing_witness :
  (exists e,
      fst (FsWorkspace.applyCategoryChange (lit "/ws") (lit "inbox/missing.md")
             (CategoryPath.make (lit "Product")) demo_world) = Throw e)
  /\ disk (snd (FsWorkspace.applyCategoryChange (lit "/ws") (lit "inbox/missing.md")
                  (CategoryPath.make (lit "Product")) demo_world))
     = disk demo_world
  /\ trace (snd (FsWorkspace.applyCategoryChange (lit "/ws") (lit "inbox/missing.md")
                   (CategoryPath.make (lit "Product")) demo_world))
     = trace demo_world
       ++ [(ReadFile (old_path (lit "/ws") (lit "inbox/missing.md")), false)].
Proof.
  apply (change_of_unreadable_note_does_nothing (lit "/ws") (lit "inbox/missing.md")
           (CategoryPath.make (lit "Product")) demo_world).
  intros raw H. vm_compute in H. discriminate H.
Defined.

(** ** Changing the category: the note is never lost *)






(** ** The use case: what it reports, and what a failure leaves *)

Lemma bind_ok_inv {A B : Type} (m : M A) (k : A -> M B) (w w' : world) (b : B) :
  bind m k w = (Ok b, w') ->
  exists a w1, m w = (Ok a, w1) /\ k a w1 = (Ok b, w').
Proof.
  unfold bind. destruct (m w) as [[e|a] w1]; [discriminate|].
  intro H. now exists a, w1.
Qed.

Lemma execute_ok_inv (workspace : WorkspacePort) (categorizer : CategorizationPort)
    (relativePath : str) (w w' : world) (out : CategorizeNoteOutput) :
  CategorizeNoteUseCase.execute workspace categorizer relativePath w = (Ok out, w') ->
  exists cats d,
    suggestCategory categorizer
      {| note := originalNote out; availableCategories := cats |} = Ok d
    /\ out_reasoning out = reasoning d
    /\ wasMoved out
       = negb (str_eqb (CategorizeNoteUseCase.currentCategoryStr (originalNote out))
                 (CategoryPath.toString (suggestedCategory d)))
    /\ (wasMoved out = false -> updatedNote out = originalNote out).
Proof.
  unfold CategorizeNoteUseCase.execute. intro H.
  apply bind_ok_inv in H as (u0 & w0 & _ & H).
  apply bind_ok_inv in H as (n & w1 & _ & H).
  apply bind_ok_inv in H as (u1 & w2 & _ & H).
  apply bind_ok_inv in H as (cats & w3 & _ & H).
  apply bind_ok_inv in H as (u2 & w4 & _ & H).
  apply bind_ok_inv in H as (u3 & w5 & _ & H).
  apply bind_ok_inv in H as (d & w6 & Hd & H).
  unfold lift in Hd. injection Hd as Hd _.
  destruct (str_eqb (CategorizeNoteUseCase.currentCategoryStr n)
              (CategoryPath.toString (suggestedCategory d))) eqn:E.
  - apply bind_ok_inv in H as (u4 & w7 & _ & H).
    unfold ret in H. injection H as <- _.
    cbn [originalNote updatedNote wasMoved out_reasoning].
    exists cats, d. rewrite E. now repeat split.
  - apply bind_ok_inv in H as (u4 & w7 & _ & H).
    apply bind_ok_inv in H as (n' & w8 & _ & H).
    apply bind_ok_inv in H as (u5 & w9 & _ & H).
    unfold ret in H. injection H as <- _.
    cbn [originalNote updatedNote wasMoved out_reasoning].
    exists cats, d. rewrite E. repeat split; try assumption. discriminate.
Qed.

(** X27. When [execute] returns, it reports a move exactly when the category
    suggested is not the one the note had; when it reports none, the note it
    returns as updated is the note it loaded. The reasoning is the one of the
    decision. This holds for every workspace and categorizer. *)
Theorem execute_reports_the_move (workspace : WorkspacePort)
    (categorizer : CategorizationPort) (relativePath : str) (w : world)
    (out : CategorizeNoteOutput) :
  fst (CategorizeNoteUseCase.execute workspace categorizer relativePath w) = Ok out ->
  exists cats d,
    suggestCategory categorizer
      {| note := originalNote out; availableCategories := cats |} = Ok d
    /\ out_reasoning out = reasoning d
    /\ (wasMoved out = true
        <-> CategoryPath.toString (suggestedCategory d)
            <> CategorizeNoteUseCase.currentCategoryStr (originalNote out))
    /\ (wasMoved out = false -> updatedNote out = originalNote out).
Proof.
  intro H.
  destruct (CategorizeNoteUseCase.execute workspace categorizer relativePath w)
    as [r w'] eqn:E. cbn [fst] in H. subst r.
  destruct (execute_ok_inv _ _ _ _ _ _ E) as (cats & d & Hd & Hr & Hm & Hu).
  exists cats, d. repeat split; try assumption.
  - intros Ht Heq. rewrite Ht, Heq, str_eqb_refl in Hm. discriminate Hm.
  - intro Hne. rewrite Hm. apply negb_true_iff, str_eqb_neq.
    intro Heq. now apply Hne.
Qed.

Lemma execute_reports_the_move_witness :
  exists cats d,
    suggestCategory demo_categorizer
      {| note := originalNote
                   {| originalNote := demo_note; updatedNote := demo_note;
                      wasMoved := false; out_reasoning := lit "about agents" |};
         availableCategories := cats |} = Ok d
    /\ out_reasoning
         {| originalNote := demo_note; updatedNote := demo_note;
            wasMoved := false; out_reasoning := lit "about agents" |}
       = reasoning d
    /\ (wasMoved
          {| originalNote := demo_note; updatedNote := demo_note;
             wasMoved := false; out_reasoning := lit "about agents" |} = true
        <-> CategoryPath.toString (suggestedCategory d)
            <> CategorizeNoteUseCase.currentCategoryStr
                 (originalNote
                    {| originalNote := demo_note; updatedNote := demo_note;
                       wasMoved := false; out_reasoning := lit "about agents" |}))
    /\ (wasMoved
          {| originalNote := demo_note; updatedNote := demo_note;
             wasMoved := false; out_reasoning := lit "about agents" |} = false ->
        updatedNote
          {| originalNote := demo_note; updatedNote := demo_note;
             wasMoved := false; out_reasoning := lit "about agents" |}
        = originalNote
            {| originalNote := demo_note; updatedNote := demo_note;
               wasMoved := false; out_reasoning := lit "about agents" |}).
Proof.
  apply (execute_reports_the_move (FsWorkspacePort (lit "/ws")) demo_categorizer
           (lit "AI/Agents/n.md") demo_world).
  reflexivity.
Defined.

(** X28. With the adapters the container wires in, a note that has no category
    is never left where it is: the adapter's suggestion is a category
    [fromRaw] made, which is never the empty one, so when the use case returns
    for such a note it has moved it. *)
Theorem uncategorized_note_is_moved
    (generateObject : LLMProvider -> str -> str -> result Response.t)
    (config : AppConfig) (relativePath : str) (w : world)
    (out : CategorizeNoteOutput) :
  fst (Container.categorizeNoteUseCase generateObject config relativePath w) = Ok out ->
  category (originalNote out) = None ->
  wasMoved out = true.
Proof.
  unfold Container.categorizeNoteUseCase. intros H Hcat.
  destruct (CategorizeNoteUseCase.execute _ _ relativePath w) as [r w'] eqn:E.
  cbn [fst] in H. subst r.
  destruct (execute_ok_inv _ _ _ _ _ _ E) as (cats & d & Hd & _ & Hm & _).
  rewrite Hm. unfold CategorizeNoteUseCase.currentCategoryStr. rewrite Hcat.
  unfold Container.categorizer, OpenAICategorizationAdapter in Hd.
  cbn [suggestCategory] in Hd.
  unfold CategorizationAdapter.suggestCategory in Hd.
  destruct (generateObject _ _ _) as [e|object]; [discriminate|].
  destruct (CategoryPath.fromRaw (Response.category object)) as [e|c] eqn:Ef;
    [discriminate|].
  injection Hd as <-. cbn [suggestedCategory].
  apply fromRaw_ok_inv in Ef as [-> Hne]. cbn [CategoryPath.toString CategoryPath.value].
  destruct (CategoryPath.cleaned (Response.category object));
    [contradiction | reflexivity].
Qed.

Lemma uncategorized_note_is_moved_witness :
  fst (Container.categorizeNoteUseCase demo_service demo_config (lit "loose.md")
         loose_world)
  = Ok loose_out
  /\ category (originalNote loose_out) = None
  /\ wasMoved loose_out = true.
Proof.
  split; [reflexivity|]. split; [reflexivity|].
  apply (uncategorized_note_is_moved demo_service demo_config (lit "loose.md")
           loose_world loose_out);
    reflexivity.
Defined.





(** ** The agent's tools *)

(** X30. The tool that changes the category refuses a category that is blank
    or made of separators alone before it touches anything: it makes no call
    to the file system and leaves the world as it was. *)
Theorem tool_rejects_blank_category (root p newCategory : str) (w : world) :
  forallb is_sep (trim newCategory) = true ->
  Agent.apply_category_change root p newCategory w
  = (Throw (Error (lit "CategoryPath cannot be empty")), w).
Proof.
  intro H. apply cleaned_nil_iff in H.
  unfold Agent.apply_category_change, bind, lift.
  rewrite cleaned_all, H. reflexivity.
Qed.

Lemma tool_rejects_blank_category_witness :
  Agent.apply_category_change (lit "/ws") (lit "inbox/idea.md") (lit " /\\/ ") demo_world
  = (Throw (Error (lit "CategoryPath cannot be empty")), demo_world).
Proof.
  apply (tool_rejects_blank_category (lit "/ws") (lit "inbox/idea.md") (lit " /\\/ ")
           demo_world).
  reflexivity.
Defined.
